(** * Verification of the CP-SAT translation layer (solver/solver.py)

    The development embeds the request and response models of
    [solver/models.py] and the compiler / extractor of [solver/solver.py].
    Python dictionaries are finite maps, Python integers are [Z], raised
    exceptions are values of an error monad, and the objects of the
    constraint-solving library (model, variables, linear expressions, the
    solver after [Solve]) are plain data that records what the code sends
    and reads. Integers are unbounded, as in Python; the 64-bit limits of the
    library are not part of the model. The oracle is a function from the
    model and the parameters to an exception or a solver object, and the
    properties hold for every such function. *)

From stdpp Require Import base option list gmap strings pretty.
From Stdlib Require Import ZArith Lia.

Local Open Scope Z_scope.
Local Open Scope string_scope.
Local Open Scope list_scope.

(** ** models.py *)

Inductive VariableType := type_bool | type_int | type_interval.

Record Variable_ := {
  var_type : VariableType;
  var_name : string;
  var_min : option Z;
  var_max : option Z;
  var_start : option Z;
  var_end : option Z;
  var_size : option Z;
  var_presenceVar : option string;
}.

Record Term := { var : string; coeff : Z }.

Inductive ConstraintType :=
  | linear | soft_linear | exactly_one | at_most_one
  | implication | bool_or | bool_and | no_overlap.

Inductive Comparator := op_le | op_ge | op_eq.

Record Constraint := {
  c_type : ConstraintType;
  c_terms : option (list Term);
  c_op : option Comparator;
  c_rhs : option Z;
  c_penalty : option Z;
  c_vars : option (list string);
  c_intervals : option (list string);
  c_if : option string;
  c_then : option string;
  c_id : option string;
}.

Inductive Sense := minimize | maximize.

Record Objective := { sense : Sense; obj_terms : list Term }.

Inductive Status := OPTIMAL | FEASIBLE | INFEASIBLE | TIMEOUT | ERROR.

Record SoftConstraintViolation := {
  constraintId : string;
  violationAmount : Z;
  targetValue : Z;
  actualValue : Z;
}.

#[global] Instance VariableType_eq_dec : EqDecision VariableType.
Proof. solve_decision. Defined.
#[global] Instance ConstraintType_eq_dec : EqDecision ConstraintType.
Proof. solve_decision. Defined.
#[global] Instance Comparator_eq_dec : EqDecision Comparator.
Proof. solve_decision. Defined.
#[global] Instance Sense_eq_dec : EqDecision Sense.
Proof. solve_decision. Defined.
#[global] Instance Status_eq_dec : EqDecision Status.
Proof. solve_decision. Defined.

(** ** Exceptions

    Every [raise] of solver.py is a [ValueError]; a failed dictionary
    subscript is a [KeyError] carrying the key; [LibraryError] stands for an
    exception coming out of the solving library, and [InvalidLiteral] is the
    one the library raises when it is given, as a boolean literal, the
    variable of that name whose domain is not within [0, 1]. *)

Inductive exn :=
  | ValueError (msg : string)
  | KeyError (key : string)
  | LibraryError (msg : string)
  | InvalidLiteral (name : string).

Inductive Res (A : Type) :=
  | Ok (a : A)
  | Raise (e : exn).
Arguments Ok {A} a.
Arguments Raise {A} e.

#[global] Instance Res_ret : MRet Res := fun A a => Ok a.
#[global] Instance Res_bind : MBind Res := fun A B k m =>
  match m with
  | Ok a => k a
  | Raise e => Raise e
  end.

(** [for x in xs: state = body(state, x)], stopping at the first exception. *)
Fixpoint for_in {A S} (body : S → A → Res S) (s : S) (xs : list A) : Res S :=
  match xs with
  | [] => Ok s
  | x :: xs' => s' ← body s x ; for_in body s' xs'
  end.

(** [d[k]] on a Python dictionary. *)
Definition subscript {V} (d : gmap string V) (k : string) : Res V :=
  match d !! k with
  | Some v => Ok v
  | None => Raise (KeyError k)
  end.

(** [[d[k] for k in ks]], evaluated left to right. *)
Fixpoint subscripts {V} (d : gmap string V) (ks : list string) : Res (list V) :=
  match ks with
  | [] => Ok []
  | k :: ks' => v ← subscript d k ; vs ← subscripts d ks' ; Ok (v :: vs)
  end.

(** ** Bounds *)

Record _VariableBounds := { lower : Z; upper : Z }.

Definition _collect_bounds (variables : list Variable_)
  : Res (gmap string _VariableBounds) :=
  for_in (fun bounds v =>
    match var_type v with
    | type_bool => Ok (<[var_name v := {| lower := 0; upper := 1 |}]> bounds)
    | type_int =>
        match var_min v, var_max v with
        | Some lo, Some hi =>
            Ok (<[var_name v := {| lower := lo; upper := hi |}]> bounds)
        | _, _ =>
            Raise (ValueError ("Int variable " +:+ var_name v +:+ " requires min and max"))
        end
    | type_interval => Ok bounds
    end) ∅ variables.

Definition _term_range (term : Term) (bounds : _VariableBounds) : Z * Z :=
  let c := coeff term in
  if bool_decide (c >= 0) then (c * lower bounds, c * upper bounds)
  else (c * upper bounds, c * lower bounds).

Definition _expression_range (terms : list Term)
    (bounds : gmap string _VariableBounds) : Res (Z * Z) :=
  for_in (fun '(min_expr, max_expr) term =>
    match bounds !! var term with
    | None => Raise (ValueError ("Unknown variable " +:+ var term))
    | Some b =>
        let '(term_min, term_max) := _term_range term b in
        Ok (min_expr + term_min, max_expr + term_max)
    end) (0, 0) terms.

(** ** What lies outside the repository

    The Python runtime supplies the type [float], the literal [60.0], the
    conversion [int(t * 1000)] and [repr] on strings, and the solving library
    the text of its message about a literal that is not boolean; they are
    taken as they come. *)

Class PyRuntime := {
  float : Type;
  float_60 : float;
  int_of_times_1000 : float → Z;
  repr : string → string;
  invalid_literal_message : string → string;
}.

(** [str(exc)] *)
Definition str `{PyRuntime} (e : exn) : string :=
  match e with
  | ValueError msg => msg
  | KeyError key => repr key
  | LibraryError msg => msg
  | InvalidLiteral name => invalid_literal_message name
  end.

(** [o or d] on an optional string: [None] and the empty string are falsy. *)
Definition or_ (o : option string) (d : string) : string :=
  match o with
  | None => d
  | Some s => if bool_decide (s = "") then d else s
  end.

(** [not xs] on an optional list is true for [None] and for the empty list;
    [truthy] keeps the list in the other case. *)
Definition truthy {A} (o : option (list A)) : option (list A) :=
  match o with
  | Some (_ :: _) => o
  | _ => None
  end.

(** ** The constraint-solving library, as the code uses it

    A model is the record of what was created in it: integer variables with
    their domain, intervals, constraints, and at most one objective, and the
    constants it made, by value. A variable handle is the index of the
    variable in its model. Linear expressions are kept as the code writes
    them; [eval] gives their value under an assignment. Where the library
    takes a variable as a boolean literal (the presence of an optional
    interval, the members of a boolean constraint) it raises unless the
    domain of the variable is within [0, 1]. *)

Module cp_model.

Definition IntVar := nat.

Record IntVarProto := { domain_lb : Z; domain_ub : Z; name : string }.

Inductive LinearExpr :=
  | Const (z : Z)
  | Var (v : IntVar)
  | Mul (e : LinearExpr) (c : Z)
  | Plus (a b : LinearExpr)
  | Minus (a b : LinearExpr)
  | Neg (a : LinearExpr).

Fixpoint eval (val : IntVar → Z) (e : LinearExpr) : Z :=
  match e with
  | Const z => z
  | Var v => val v
  | Mul e c => eval val e * c
  | Plus a b => eval val a + eval val b
  | Minus a b => eval val a - eval val b
  | Neg a => - eval val a
  end.

Inductive BoundedLinearExpression :=
  | Le (a b : LinearExpr)
  | Ge (a b : LinearExpr)
  | Eq (a b : LinearExpr).

Definition holds (val : IntVar → Z) (b : BoundedLinearExpression) : Prop :=
  match b with
  | Le a b => eval val a <= eval val b
  | Ge a b => eval val a >= eval val b
  | Eq a b => eval val a = eval val b
  end.

Record IntervalVar := {
  interval_start : IntVar;
  interval_size : Z;
  interval_end : IntVar;
  interval_presence : option IntVar;
  interval_name : string;
}.

Inductive ConstraintProto :=
  | Linear (b : BoundedLinearExpression)
  | ExactlyOne (literals : list IntVar)
  | AtMostOne (literals : list IntVar)
  | Implication (a b : IntVar)
  | BoolOr (literals : list IntVar)
  | BoolAnd (literals : list IntVar)
  | NoOverlap (intervals : list IntervalVar).

Record CpModel := {
  variables : list IntVarProto;
  intervals : list IntervalVar;
  constraints : list ConstraintProto;
  objective : option (Sense * LinearExpr);
  constant_map : gmap Z IntVar;
}.

Definition new : CpModel :=
  {| variables := []; intervals := []; constraints := []; objective := None;
     constant_map := ∅ |}.

Definition NewIntVar (m : CpModel) (lb ub : Z) (name : string) : CpModel * IntVar :=
  ({| variables := variables m ++ [ {| domain_lb := lb; domain_ub := ub; name := name |} ];
      intervals := intervals m;
      constraints := constraints m;
      objective := objective m;
      constant_map := constant_map m |},
   length (variables m)).

Definition NewBoolVar (m : CpModel) (name : string) : CpModel * IntVar :=
  NewIntVar m 0 1 name.

(** A constant is a variable without name whose domain is the single value;
    the model remembers the constants it made and hands out the same variable
    for the same value. *)
Definition NewConstant (m : CpModel) (value : Z) : CpModel * IntVar :=
  match constant_map m !! value with
  | Some index => (m, index)
  | None =>
      ({| variables :=
            variables m ++ [ {| domain_lb := value; domain_ub := value; name := "" |} ];
          intervals := intervals m;
          constraints := constraints m;
          objective := objective m;
          constant_map := <[value := length (variables m)]> (constant_map m) |},
       length (variables m))
  end.

(** A variable can stand as a boolean literal when its domain is not empty
    and within [0, 1]. *)
Definition is_boolean (d : IntVarProto) : Prop :=
  0 <= domain_lb d ∧ domain_lb d <= domain_ub d ∧ domain_ub d <= 1.

#[global] Instance is_boolean_dec d : Decision (is_boolean d).
Proof. unfold is_boolean. apply _. Defined.

(** The check the library makes on every variable it is given as a literal. *)
Definition check_literal (m : CpModel) (x : IntVar) : Res () :=
  match variables m !! x with
  | Some d => if decide (is_boolean d) then Ok () else Raise (InvalidLiteral (name d))
  | None => Raise (InvalidLiteral "")
  end.

Fixpoint check_literals (m : CpModel) (xs : list IntVar) : Res () :=
  match xs with
  | [] => Ok ()
  | x :: xs' => _ ← check_literal m x; check_literals m xs'
  end.

Definition add_interval (m : CpModel) (i : IntervalVar) : CpModel * IntervalVar :=
  ({| variables := variables m;
      intervals := intervals m ++ [i];
      constraints := constraints m;
      objective := objective m;
      constant_map := constant_map m |}, i).

Definition NewIntervalVar (m : CpModel) (start : IntVar) (size : Z) (end_ : IntVar)
    (name : string) : CpModel * IntervalVar :=
  add_interval m {| interval_start := start; interval_size := size; interval_end := end_;
                    interval_presence := None; interval_name := name |}.

Definition NewOptionalIntervalVar (m : CpModel) (start : IntVar) (size : Z) (end_ : IntVar)
    (is_present : IntVar) (name : string) : Res (CpModel * IntervalVar) :=
  _ ← check_literal m is_present;
  Ok (add_interval m {| interval_start := start; interval_size := size;
                        interval_end := end_; interval_presence := Some is_present;
                        interval_name := name |}).

Definition add_constraint (m : CpModel) (c : ConstraintProto) : CpModel :=
  {| variables := variables m;
     intervals := intervals m;
     constraints := constraints m ++ [c];
     objective := objective m;
     constant_map := constant_map m |}.

Definition Add m b := add_constraint m (Linear b).
Definition AddNoOverlap m ivs := add_constraint m (NoOverlap ivs).

(** The constraints over boolean literals check their literals first. *)
Definition AddExactlyOne (m : CpModel) (ls : list IntVar) : Res CpModel :=
  _ ← check_literals m ls; Ok (add_constraint m (ExactlyOne ls)).
Definition AddAtMostOne (m : CpModel) (ls : list IntVar) : Res CpModel :=
  _ ← check_literals m ls; Ok (add_constraint m (AtMostOne ls)).
Definition AddBoolOr (m : CpModel) (ls : list IntVar) : Res CpModel :=
  _ ← check_literals m ls; Ok (add_constraint m (BoolOr ls)).
Definition AddBoolAnd (m : CpModel) (ls : list IntVar) : Res CpModel :=
  _ ← check_literals m ls; Ok (add_constraint m (BoolAnd ls)).
Definition AddImplication (m : CpModel) (a b : IntVar) : Res CpModel :=
  _ ← check_literals m [b; a]; Ok (add_constraint m (Implication a b)).

Definition set_objective (m : CpModel) (s : Sense) (e : LinearExpr) : CpModel :=
  {| variables := variables m;
     intervals := intervals m;
     constraints := constraints m;
     objective := Some (s, e);
     constant_map := constant_map m |}.

Definition Minimize m e := set_objective m minimize e.
Definition Maximize m e := set_objective m maximize e.

(** The raw status codes of the library. *)
Class StatusCodes := {
  OPTIMAL : Z;
  FEASIBLE : Z;
  INFEASIBLE : Z;
  MODEL_INVALID : Z;
  UNKNOWN : Z;
}.

Record Parameters `{PyRuntime} := {
  max_time_in_seconds : float;
  stop_after_first_solution : bool;
}.

(** A solver object after [Solve]: what the extractor reads from it. *)
Record CpSolver `{PyRuntime} := {
  status : Z;
  solution_info : string;
  wall_time : float;
  num_conflicts : Z;
  num_branches : Z;
  objective_value : float;
  best_objective_bound : float;
  value : IntVar → Z;
}.


End cp_model.

(** [solver.Solve(model)] with the parameters set before the call: the
    oracle either raises or leaves a solver object to read from. *)
Definition Oracle `{PyRuntime} : Type :=
  cp_model.CpModel → cp_model.Parameters → Res cp_model.CpSolver.

Record _TrackedSoftConstraint := {
  constraint_id : string;
  violation_var : cp_model.IntVar;
  target_value : Z;
  comparator : Comparator;
  terms : list Term;
}.

Definition _sum_expr (exprs : list cp_model.LinearExpr) : option cp_model.LinearExpr :=
  match exprs with
  | [] => None
  | e :: rest => Some (foldl cp_model.Plus e rest)
  end.

(** [sum(vars_map[t.var] * t.coeff for t in terms)] *)
Definition sum_terms (vars_map : gmap string cp_model.IntVar) (ts : list Term)
  : Res cp_model.LinearExpr :=
  for_in (fun total t =>
    v ← subscript vars_map (var t);
    Ok (cp_model.Plus total (cp_model.Mul (cp_model.Var v) (coeff t))))
    (cp_model.Const 0) ts.

(** [[vars_map[t.var] * t.coeff for t in terms]] *)
Fixpoint term_exprs (vars_map : gmap string cp_model.IntVar) (ts : list Term)
  : Res (list cp_model.LinearExpr) :=
  match ts with
  | [] => Ok []
  | t :: ts' =>
      v ← subscript vars_map (var t);
      es ← term_exprs vars_map ts';
      Ok (cp_model.Mul (cp_model.Var v) (coeff t) :: es)
  end.

(** ** Constraint handlers

    A handler takes the model (and the lists it appends to) and returns the
    updated ones, or raises. *)

Definition op_str (op : Comparator) : string :=
  match op with
  | op_le => "<="
  | op_ge => ">="
  | op_eq => "=="
  end.

Definition _add_linear_constraint (model : cp_model.CpModel) (constraint : Constraint)
    (vars_map : gmap string cp_model.IntVar) : Res cp_model.CpModel :=
  match truthy (c_terms constraint), c_op constraint, c_rhs constraint with
  | Some ts, Some op, Some rhs =>
      expr ← sum_terms vars_map ts;
      match op with
      | op_le => Ok (cp_model.Add model (cp_model.Le expr (cp_model.Const rhs)))
      | op_ge => Ok (cp_model.Add model (cp_model.Ge expr (cp_model.Const rhs)))
      | op_eq => Ok (cp_model.Add model (cp_model.Eq expr (cp_model.Const rhs)))
      end
  | _, _, _ => Raise (ValueError "Linear constraint requires terms, op, and rhs")
  end.

Definition _add_soft_linear_constraint
    (model : cp_model.CpModel)
    (constraint : Constraint)
    (vars_map : gmap string cp_model.IntVar)
    (bounds : gmap string _VariableBounds)
    (penalty_terms : list cp_model.LinearExpr)
    (tracked_constraints : list _TrackedSoftConstraint)
    (constraint_index : nat)
  : Res (cp_model.CpModel * list cp_model.LinearExpr * list _TrackedSoftConstraint) :=
  match truthy (c_terms constraint), c_op constraint, c_rhs constraint, c_penalty constraint with
  | Some ts, Some op, Some rhs, Some penalty =>
      '(min_expr, max_expr) ← _expression_range ts bounds;
      expr ← sum_terms vars_map ts;
      let constraint_id := or_ (c_id constraint) ("soft_" +:+ pretty constraint_index) in
      '(model, max_violation, violation) ←
        match op with
        | op_le =>
            let max_violation := Z.max 0 (max_expr - rhs) in
            let '(model, violation) :=
              cp_model.NewIntVar model 0 max_violation ("violation_" +:+ constraint_id) in
            Ok (cp_model.Add model
                  (cp_model.Le expr (cp_model.Plus (cp_model.Const rhs) (cp_model.Var violation))),
                max_violation, Some violation)
        | op_ge =>
            let max_violation := Z.max 0 (rhs - min_expr) in
            let '(model, violation) :=
              cp_model.NewIntVar model 0 max_violation ("violation_" +:+ constraint_id) in
            Ok (cp_model.Add model
                  (cp_model.Ge (cp_model.Plus expr (cp_model.Var violation)) (cp_model.Const rhs)),
                max_violation, Some violation)
        | op_eq =>
            Raise (ValueError ("Unsupported soft linear operator " +:+ op_str op))
        end;
      match violation with
      | None => Raise (ValueError "Soft linear constraint failed to create violation variable")
      | Some violation =>
          if bool_decide (max_violation > 0) then
            let penalty_terms :=
              penalty_terms ++ [cp_model.Mul (cp_model.Var violation) penalty] in
            match c_id constraint with
            | Some _ =>
                Ok (model, penalty_terms,
                    tracked_constraints ++
                      [ {| constraint_id := constraint_id;
                           violation_var := violation;
                           target_value := rhs;
                           comparator := op;
                           terms := ts |} ])
            | None => Ok (model, penalty_terms, tracked_constraints)
            end
          else Ok (model, penalty_terms, tracked_constraints)
      end
  | _, _, _, _ =>
      Raise (ValueError "Soft linear constraint requires terms, op, rhs, and penalty")
  end.

Definition _add_exactly_one (model : cp_model.CpModel) (constraint : Constraint)
    (vars_map : gmap string cp_model.IntVar) : Res cp_model.CpModel :=
  match truthy (c_vars constraint) with
  | None => Raise (ValueError "Exactly one constraint requires vars")
  | Some vs => literals ← subscripts vars_map vs; cp_model.AddExactlyOne model literals
  end.

Definition _add_at_most_one (model : cp_model.CpModel) (constraint : Constraint)
    (vars_map : gmap string cp_model.IntVar) : Res cp_model.CpModel :=
  match truthy (c_vars constraint) with
  | None => Raise (ValueError "At most one constraint requires vars")
  | Some vs => literals ← subscripts vars_map vs; cp_model.AddAtMostOne model literals
  end.

Definition _add_implication (model : cp_model.CpModel) (constraint : Constraint)
    (vars_map : gmap string cp_model.IntVar) : Res cp_model.CpModel :=
  match c_if constraint, c_then constraint with
  | Some i, Some t =>
      a ← subscript vars_map i;
      b ← subscript vars_map t;
      cp_model.AddImplication model a b
  | _, _ => Raise (ValueError "Implication constraint requires if/then")
  end.

Definition _add_bool_or (model : cp_model.CpModel) (constraint : Constraint)
    (vars_map : gmap string cp_model.IntVar) : Res cp_model.CpModel :=
  match truthy (c_vars constraint) with
  | None => Raise (ValueError "Bool OR constraint requires vars")
  | Some vs => literals ← subscripts vars_map vs; cp_model.AddBoolOr model literals
  end.

Definition _add_bool_and (model : cp_model.CpModel) (constraint : Constraint)
    (vars_map : gmap string cp_model.IntVar) : Res cp_model.CpModel :=
  match truthy (c_vars constraint) with
  | None => Raise (ValueError "Bool AND constraint requires vars")
  | Some vs => literals ← subscripts vars_map vs; cp_model.AddBoolAnd model literals
  end.

Definition _add_no_overlap (model : cp_model.CpModel) (constraint : Constraint)
    (intervals_map : gmap string cp_model.IntervalVar) : Res cp_model.CpModel :=
  match truthy (c_intervals constraint) with
  | None => Raise (ValueError "NoOverlap constraint requires intervals")
  | Some names => ivs ← subscripts intervals_map names; Ok (cp_model.AddNoOverlap model ivs)
  end.

(** ** Objective *)

Definition _build_objective (model : cp_model.CpModel) (objective : option Objective)
    (vars_map : gmap string cp_model.IntVar) (penalty_terms : list cp_model.LinearExpr)
  : Res (cp_model.CpModel * bool) :=
  let penalty_expr := _sum_expr penalty_terms in
  match objective with
  | Some objective =>
      objective_terms ← term_exprs vars_map (obj_terms objective);
      let obj_expr := _sum_expr objective_terms in
      let chosen :=
        match penalty_expr, obj_expr with
        | Some penalty_expr, Some obj_expr =>
            Some (if bool_decide (sense objective = minimize)
                  then cp_model.Plus obj_expr penalty_expr
                  else cp_model.Minus obj_expr penalty_expr)
        | None, Some obj_expr => Some obj_expr
        | Some penalty_expr, None =>
            Some (if bool_decide (sense objective = minimize)
                  then penalty_expr
                  else cp_model.Neg penalty_expr)
        | None, None => None
        end in
      match chosen with
      | None => Ok (model, false)
      | Some expr =>
          if bool_decide (sense objective = maximize)
          then Ok (cp_model.Maximize model expr, true)
          else Ok (cp_model.Minimize model expr, true)
      end
  | None =>
      match penalty_expr with
      | Some penalty_expr => Ok (cp_model.Minimize model penalty_expr, true)
      | None => Ok (model, false)
      end
  end.

(** ** Requests and responses *)

Record Options `{PyRuntime} := {
  timeLimitSeconds : float;
  solutionLimit : option Z;
}.

(** [Options()] *)
Definition Options_default `{PyRuntime} : Options :=
  {| timeLimitSeconds := float_60; solutionLimit := None |}.

Record SolverRequest `{PyRuntime} := {
  variables : list Variable_;
  constraints : list Constraint;
  objective : option Objective;
  options : option Options;
}.

Inductive Statistic `{PyRuntime} :=
  | stat_int (z : Z)
  | stat_float (f : float).

Record SolverResponse `{PyRuntime} := {
  status : Status;
  values : option (gmap string Z);
  statistics : option (gmap string Statistic);
  error : option string;
  solutionInfo : option string;
  softViolations : option (list SoftConstraintViolation);
}.

(** ** solve_request *)

Section solve_request.
Context `{PyRuntime} `{cp_model.StatusCodes}.

(** Body of the variable-creation loop. *)
Definition create_variable
    (st : cp_model.CpModel * gmap string cp_model.IntVar * gmap string cp_model.IntervalVar)
    (v : Variable_)
  : Res (cp_model.CpModel * gmap string cp_model.IntVar * gmap string cp_model.IntervalVar) :=
  let '(model, vars_map, intervals_map) := st in
  match var_type v with
  | type_bool =>
      let '(model, x) := cp_model.NewBoolVar model (var_name v) in
      Ok (model, <[var_name v := x]> vars_map, intervals_map)
  | type_int =>
      match var_min v, var_max v with
      | Some lo, Some hi =>
          let '(model, x) := cp_model.NewIntVar model lo hi (var_name v) in
          Ok (model, <[var_name v := x]> vars_map, intervals_map)
      | _, _ =>
          Raise (ValueError ("Int variable " +:+ var_name v +:+ " requires min and max"))
      end
  | type_interval =>
      match var_start v, var_end v, var_size v with
      | Some s, Some e, Some sz =>
          if bool_decide (e - s ≠ sz) then
            Raise (ValueError
              ("Interval variable " +:+ var_name v +:+ " inconsistent: end-start="
               +:+ pretty (e - s) +:+ " != size=" +:+ pretty sz))
          else
            let '(model, start) := cp_model.NewConstant model s in
            let '(model, end_) := cp_model.NewConstant model e in
            let size := sz in
            match var_presenceVar v with
            | None =>
                let '(model, iv) :=
                  cp_model.NewIntervalVar model start size end_ (var_name v) in
                Ok (model, vars_map, <[var_name v := iv]> intervals_map)
            | Some p =>
                match vars_map !! p with
                | None =>
                    Raise (ValueError
                      ("Interval variable " +:+ var_name v
                       +:+ " references unknown presenceVar " +:+ p))
                | Some presence =>
                    '(model, iv) ←
                      cp_model.NewOptionalIntervalVar model start size end_ presence
                        (var_name v);
                    Ok (model, vars_map, <[var_name v := iv]> intervals_map)
                end
            end
      | _, _, _ =>
          Raise (ValueError
            ("Interval variable " +:+ var_name v +:+ " requires start, end, and size"))
      end
  end.

(** Body of the constraint loop. *)
Definition compile_constraint
    (vars_map : gmap string cp_model.IntVar)
    (intervals_map : gmap string cp_model.IntervalVar)
    (var_bounds : gmap string _VariableBounds)
    (st : cp_model.CpModel * list cp_model.LinearExpr * list _TrackedSoftConstraint * nat)
    (constraint : Constraint)
  : Res (cp_model.CpModel * list cp_model.LinearExpr * list _TrackedSoftConstraint * nat) :=
  let '(model, penalty_terms, tracked_constraints, constraint_index) := st in
  let keep model := Ok (model, penalty_terms, tracked_constraints, constraint_index) in
  match c_type constraint with
  | linear => _add_linear_constraint model constraint vars_map ≫= keep
  | soft_linear =>
      '(model, penalty_terms, tracked_constraints) ←
        _add_soft_linear_constraint model constraint vars_map var_bounds
          penalty_terms tracked_constraints constraint_index;
      Ok (model, penalty_terms, tracked_constraints, S constraint_index)
  | exactly_one => _add_exactly_one model constraint vars_map ≫= keep
  | at_most_one => _add_at_most_one model constraint vars_map ≫= keep
  | implication => _add_implication model constraint vars_map ≫= keep
  | bool_or => _add_bool_or model constraint vars_map ≫= keep
  | bool_and => _add_bool_and model constraint vars_map ≫= keep
  | no_overlap => _add_no_overlap model constraint intervals_map ≫= keep
  end.

(** What the first half of [solve_request] has built when the oracle is
    called. *)
Record Compiled := {
  model : cp_model.CpModel;
  vars_map : gmap string cp_model.IntVar;
  intervals_map : gmap string cp_model.IntervalVar;
  var_bounds : gmap string _VariableBounds;
  penalty_terms : list cp_model.LinearExpr;
  tracked_constraints : list _TrackedSoftConstraint;
  has_objective : bool;
}.

(** [solve_request] from its first line up to [_build_objective]. *)
Definition compile (request : SolverRequest) : Res Compiled :=
  let model := cp_model.new in
  var_bounds ← _collect_bounds (variables request);
  '(model, vars_map, intervals_map) ←
    for_in create_variable (model, ∅, ∅) (variables request);
  '(model, penalty_terms, tracked_constraints, _) ←
    for_in (compile_constraint vars_map intervals_map var_bounds)
      (model, [], [], 0%nat) (constraints request);
  '(model, has_objective) ←
    _build_objective model (objective request) vars_map penalty_terms;
  Ok {| model := model; vars_map := vars_map; intervals_map := intervals_map;
        var_bounds := var_bounds; penalty_terms := penalty_terms;
        tracked_constraints := tracked_constraints; has_objective := has_objective |}.

Definition parameters (request : SolverRequest) : cp_model.Parameters :=
  let options := default Options_default (options request) in
  {| cp_model.max_time_in_seconds := timeLimitSeconds options;
     cp_model.stop_after_first_solution :=
       bool_decide (solutionLimit options = Some 1) |}.

Definition status_map : gmap Z Status :=
  <[cp_model.UNKNOWN := TIMEOUT]>
    (<[cp_model.MODEL_INVALID := ERROR]>
      (<[cp_model.INFEASIBLE := INFEASIBLE]>
        (<[cp_model.FEASIBLE := FEASIBLE]>
          (<[cp_model.OPTIMAL := OPTIMAL]> ∅)))).

(** [sum(int(solver.value(vars_map[t.var])) * t.coeff for t in terms)] *)
Definition sum_values (vars_map : gmap string cp_model.IntVar)
    (solver : cp_model.CpSolver) (ts : list Term) : Res Z :=
  for_in (fun total t =>
    v ← subscript vars_map (var t);
    Ok (total + cp_model.value solver v * coeff t)) 0 ts.

(** Body of the loop over the tracked soft constraints. *)
Definition report_violation (vars_map : gmap string cp_model.IntVar)
    (solver : cp_model.CpSolver)
    (soft_violations : list SoftConstraintViolation) (tracked : _TrackedSoftConstraint)
  : Res (list SoftConstraintViolation) :=
  let violation_amount := cp_model.value solver (violation_var tracked) in
  if bool_decide (violation_amount <= 0) then Ok soft_violations
  else
    actual_value ← sum_values vars_map solver (terms tracked);
    Ok (soft_violations ++
          [ {| constraintId := constraint_id tracked;
               violationAmount := violation_amount;
               targetValue := target_value tracked;
               actualValue := actual_value |} ]).

(** [solve_request] from the call of the oracle to the last [return] of the
    [try] block. *)
Definition extract (c : Compiled) (solver : cp_model.CpSolver) : Res SolverResponse :=
  let status := cp_model.status solver in
  let status_text := default ERROR (status_map !! status) in
  if bool_decide (¬ (status = cp_model.OPTIMAL ∨ status = cp_model.FEASIBLE)) then
    Ok {| status := status_text;
          values := None;
          statistics := None;
          error := None;
          solutionInfo :=
            (if bool_decide (cp_model.solution_info solver = "") then None
             else Some (cp_model.solution_info solver));
          softViolations := None |}
  else
    let statistics : gmap string Statistic :=
      <["branches" := stat_int (cp_model.num_branches solver)]>
        (<["conflicts" := stat_int (cp_model.num_conflicts solver)]>
          (<["solveTimeMs" := stat_int (int_of_times_1000 (cp_model.wall_time solver))]> ∅)) in
    let statistics :=
      if has_objective c then
        <["bestObjectiveBound" := stat_float (cp_model.best_objective_bound solver)]>
          (<["objectiveValue" := stat_float (cp_model.objective_value solver)]> statistics)
      else statistics in
    soft_violations ←
      for_in (report_violation (vars_map c) solver) [] (tracked_constraints c);
    Ok {| status := status_text;
          values := Some (cp_model.value solver <$> vars_map c);
          statistics := Some statistics;
          error := None;
          solutionInfo := None;
          softViolations :=
            (match soft_violations with [] => None | _ => Some soft_violations end) |}.

(** The [try] block. *)
Definition solve_request_try (request : SolverRequest) (oracle : Oracle)
  : Res SolverResponse :=
  c ← compile request;
  solver ← oracle (model c) (parameters request);
  extract c solver.

Definition error_response (exc : exn) : SolverResponse :=
  {| status := ERROR; values := None; statistics := None; error := Some (str exc);
     solutionInfo := None; softViolations := None |}.

Definition solve_request (request : SolverRequest) (oracle : Oracle) : SolverResponse :=
  match solve_request_try request oracle with
  | Ok response => response
  | Raise exc => error_response exc
  end.

End solve_request.

(** * Specification-level definitions

    Quantities in the words of the specification, and the invariants of the
    loops, to which the code is compared below. *)

(** The range of [Σ coeff·var] in the words of the specification: over each
    term, [coeff·lower] and [coeff·upper] when [coeff ≥ 0], swapped
    otherwise, summed over all terms. *)
Definition expression_range_spec (ts : list Term) (bounds : gmap string _VariableBounds)
  : Z * Z :=
  foldr (fun t '(min_expr, max_expr) =>
    let b := default {| lower := 0; upper := 0 |} (bounds !! var t) in
    if bool_decide (0 <= coeff t)
    then (coeff t * lower b + min_expr, coeff t * upper b + max_expr)
    else (coeff t * upper b + min_expr, coeff t * lower b + max_expr)) (0, 0) ts.

(** The largest violation a soft constraint admits, in the words of the
    specification ([==] is refused by the handler before any bound is used). *)
Definition max_violation_spec (op : Comparator) (rhs : Z) (range : Z * Z) : Z :=
  match op with
  | op_le => Z.max 0 (range.2 - rhs)
  | op_ge => Z.max 0 (rhs - range.1)
  | op_eq => 0
  end.

(** The left-hand side [Σ coeff·var] under an assignment of the handles. *)
Definition lhs_value (vars_map : gmap string cp_model.IntVar) (val : cp_model.IntVar → Z)
    (ts : list Term) : Z :=
  foldr (fun t acc => from_option val 0 (vars_map !! var t) * coeff t + acc) 0 ts.

Definition resolved {V} (d : gmap string V) (ts : list Term) : Prop :=
  Forall (fun t => is_Some (d !! var t)) ts.

(** The model after a soft-linear constraint was added for the comparator
    [op]: one more variable, the slack, and one more constraint. *)
Definition with_slack (model : cp_model.CpModel) (name : string) (max_violation : Z)
    (op : Comparator) (expr : cp_model.LinearExpr) (rhs : Z) : cp_model.CpModel :=
  let v := length (cp_model.variables model) in
  {| cp_model.variables :=
       cp_model.variables model ++
         [ {| cp_model.domain_lb := 0; cp_model.domain_ub := max_violation;
              cp_model.name := name |} ];
     cp_model.intervals := cp_model.intervals model;
     cp_model.constraints :=
       cp_model.constraints model ++
         [ cp_model.Linear
             (match op with
              | op_le => cp_model.Le expr (cp_model.Plus (cp_model.Const rhs) (cp_model.Var v))
              | _ => cp_model.Ge (cp_model.Plus expr (cp_model.Var v)) (cp_model.Const rhs)
              end) ];
     cp_model.objective := cp_model.objective model;
     cp_model.constant_map := cp_model.constant_map model |}.

(** What the handler appends to the penalty terms and to the tracked
    constraints. *)
Definition soft_penalty (v : cp_model.IntVar) (max_violation penalty : Z)
  : list cp_model.LinearExpr :=
  if bool_decide (max_violation > 0) then [cp_model.Mul (cp_model.Var v) penalty] else [].

Definition soft_tracked (constraint : Constraint) (constraint_index : nat)
    (v : cp_model.IntVar) (max_violation : Z) (op : Comparator) (rhs : Z) (ts : list Term)
  : list _TrackedSoftConstraint :=
  if bool_decide (max_violation > 0) then
    match c_id constraint with
    | Some _ =>
        [ {| constraint_id := or_ (c_id constraint) ("soft_" +:+ pretty constraint_index);
             violation_var := v; target_value := rhs; comparator := op; terms := ts |} ]
    | None => []
    end
  else [].

(** A slack variable, as the soft-linear handler creates it. *)
Definition is_slack (d : cp_model.IntVarProto) : Prop :=
  cp_model.domain_lb d = 0 ∧ 0 <= cp_model.domain_ub d ∧
  ∃ id, cp_model.name d = "violation_" +:+ id.

(** A tracked constraint [t] comes from a soft-linear constraint of [cs]
    that carries an identifier; its slack variable lies at or after position
    [k] of [vars] and has the static maximum violation as upper bound, which
    is positive. *)
Definition tracked_from (cs : list Constraint) (bounds : gmap string _VariableBounds)
    (vars_map : gmap string cp_model.IntVar) (vars : list cp_model.IntVarProto) (k : nat)
    (t : _TrackedSoftConstraint) : Prop :=
  ∃ constraint (index : nat) penalty d,
    constraint ∈ cs ∧ c_type constraint = soft_linear ∧ is_Some (c_id constraint) ∧
    constraint_id t = or_ (c_id constraint) ("soft_" +:+ pretty index) ∧
    truthy (c_terms constraint) = Some (terms t) ∧
    c_op constraint = Some (comparator t) ∧ comparator t ≠ op_eq ∧
    c_rhs constraint = Some (target_value t) ∧
    c_penalty constraint = Some penalty ∧
    resolved bounds (terms t) ∧ resolved vars_map (terms t) ∧
    (k ≤ violation_var t)%nat ∧
    vars !! violation_var t = Some d ∧
    cp_model.domain_lb d = 0 ∧
    cp_model.domain_ub d =
      max_violation_spec (comparator t) (target_value t)
        (expression_range_spec (terms t) bounds) ∧
    0 < cp_model.domain_ub d.

(** The invariant of the constraint loop, for the model [m0] it starts from. *)
Definition constraint_loop_inv (cs : list Constraint) (bounds : gmap string _VariableBounds)
    (vars_map : gmap string cp_model.IntVar) (m0 : cp_model.CpModel)
    (st : cp_model.CpModel * list cp_model.LinearExpr * list _TrackedSoftConstraint * nat)
  : Prop :=
  let '(m, _, tracked, _) := st in
  let k := length (cp_model.variables m0) in
  cp_model.variables m0 `prefix_of` cp_model.variables m ∧
  (∀ i d, (k ≤ i)%nat → cp_model.variables m !! i = Some d → is_slack d) ∧
  Forall (tracked_from cs bounds vars_map (cp_model.variables m) k) tracked.

(** Boolean and integer variables, the ones that get a handle in [vars_map]. *)
Definition scalar (v : Variable_) : Prop := var_type v ≠ type_interval.

(** The model variable [d] is the one created for the declared variable [v]. *)
Definition created_for (v : Variable_) (d : cp_model.IntVarProto) : Prop :=
  cp_model.name d = var_name v ∧
  match var_type v with
  | type_bool => cp_model.domain_lb d = 0 ∧ cp_model.domain_ub d = 1
  | type_int =>
      var_min v = Some (cp_model.domain_lb d) ∧ var_max v = Some (cp_model.domain_ub d)
  | type_interval => False
  end.

Definition variable_loop_inv (pre : list Variable_)
    (st : cp_model.CpModel * gmap string cp_model.IntVar * gmap string cp_model.IntervalVar)
  : Prop :=
  let '(m, vars_map, _) := st in
  dom vars_map = list_to_set (var_name <$> filter scalar pre) ∧
  ∀ n h, vars_map !! n = Some h →
    ∃ v d, v ∈ pre ∧ var_name v = n ∧ cp_model.variables m !! h = Some d ∧ created_for v d.

(** The sum of the values of a list of expressions. *)
Definition sum_eval (val : cp_model.IntVar → Z) (es : list cp_model.LinearExpr) : Z :=
  foldr (fun e acc => cp_model.eval val e + acc) 0 es.

(** The bounds [b] are the ones declared by the variable [v]. *)
Definition declared_bounds (v : Variable_) (b : _VariableBounds) : Prop :=
  match var_type v with
  | type_bool => lower b = 0 ∧ upper b = 1
  | type_int => var_min v = Some (lower b) ∧ var_max v = Some (upper b)
  | type_interval => False
  end.

Definition bounds_inv (pre : list Variable_) (bounds : gmap string _VariableBounds) : Prop :=
  dom bounds = list_to_set (var_name <$> filter scalar pre) ∧
  ∀ n b, bounds !! n = Some b → ∃ v, v ∈ pre ∧ var_name v = n ∧ declared_bounds v b.

Section response_definitions.
Context `{PyRuntime} `{cp_model.StatusCodes}.

(** The violation record of one tracked constraint. *)
Definition violation_record (vars_map : gmap string cp_model.IntVar)
    (solver : cp_model.CpSolver) (t : _TrackedSoftConstraint) : SoftConstraintViolation :=
  {| constraintId := constraint_id t;
     violationAmount := cp_model.value solver (violation_var t);
     targetValue := target_value t;
     actualValue := lhs_value vars_map (cp_model.value solver) (terms t) |}.

(** The tracked constraints whose slack is positive, in order. *)
Definition violated (solver : cp_model.CpSolver) (tracked : list _TrackedSoftConstraint)
  : list _TrackedSoftConstraint :=
  filter (fun t => 0 < cp_model.value solver (violation_var t)) tracked.

(** [None] for the empty list. *)
Definition or_None {A} (l : list A) : option (list A) :=
  match l with
  | [] => None
  | _ => Some l
  end.

(** The response of a successful solve. *)
Definition success_response (c : Compiled) (solver : cp_model.CpSolver)
    (stats : gmap string Statistic) : SolverResponse :=
  {| status := default ERROR (status_map !! cp_model.status solver);
     values := Some (cp_model.value solver <$> vars_map c);
     statistics := Some stats;
     error := None;
     solutionInfo := None;
     softViolations :=
       or_None (violation_record (vars_map c) solver
                  <$> violated solver (tracked_constraints c)) |}.

Definition succeeded (solver : cp_model.CpSolver) : Prop :=
  cp_model.status solver = cp_model.OPTIMAL ∨ cp_model.status solver = cp_model.FEASIBLE.

End response_definitions.

(** The value of the variable named [n] under an assignment of the handles
    ([0] for a name without handle). *)
Definition named_value (vars_map : gmap string cp_model.IntVar)
    (val : cp_model.IntVar → Z) (n : string) : Z :=
  from_option val 0 (vars_map !! n).

(** [Σ coeff·var] under an assignment of the names. *)
Definition linear_value (x : string → Z) (ts : list Term) : Z :=
  foldr (fun t acc => coeff t * x (var t) + acc) 0 ts.

(** The assignment [val] with the handle [v] set to [s]. *)
Definition assign (v : cp_model.IntVar) (s : Z) (val : cp_model.IntVar → Z)
  : cp_model.IntVar → Z :=
  fun i => if decide (i = v) then s else val i.

(** Every key of a list is present in a dictionary. *)
Definition present {V} (d : gmap string V) (ks : list string) : Prop :=
  Forall (fun k => is_Some (d !! k)) ks.

(** Interval variables. *)
Definition is_interval (v : Variable_) : Prop := var_type v = type_interval.

(** Soft-linear constraints. *)
Definition is_soft (c : Constraint) : Prop := c_type c = soft_linear.

(** The model variable of a constant. *)
Definition constant (z : Z) : cp_model.IntVarProto :=
  {| cp_model.domain_lb := z; cp_model.domain_ub := z; cp_model.name := "" |}.

(** The start and the end of a declared interval variable. *)
Definition endpoints (v : Variable_) : list Z :=
  match var_type v, var_start v, var_end v with
  | type_interval, Some s, Some e => [s; e]
  | _, _, _ => []
  end.

(** The values for which the variable loop asks the model for a constant. *)
Definition interval_constants (vs : list Variable_) : gset Z :=
  list_to_set (vs ≫= endpoints).

(** The constants that a model remembers are variables of the model, with
    the value as domain. *)
Definition constants_ok (m : cp_model.CpModel) : Prop :=
  ∀ z h, cp_model.constant_map m !! z = Some h →
    cp_model.variables m !! h = Some (constant z).

(** The interval [iv] is the one created for the declared interval variable
    [v], in a model whose variables are [vars]: same name and size, start and
    end constants whose difference is the size, and a presence literal
    exactly when [v] names one, created under that name and with a boolean
    domain. *)
Definition interval_created_for (vars : list cp_model.IntVarProto) (v : Variable_)
    (iv : cp_model.IntervalVar) : Prop :=
  var_type v = type_interval ∧
  cp_model.interval_name iv = var_name v ∧
  ∃ s e,
    var_start v = Some s ∧ var_end v = Some e ∧
    var_size v = Some (cp_model.interval_size iv) ∧
    e - s = cp_model.interval_size iv ∧
    vars !! cp_model.interval_start iv = Some (constant s) ∧
    vars !! cp_model.interval_end iv = Some (constant e) ∧
    match var_presenceVar v with
    | None => cp_model.interval_presence iv = None
    | Some p =>
        ∃ h d, cp_model.interval_presence iv = Some h ∧ vars !! h = Some d ∧
          cp_model.name d = p ∧ cp_model.is_boolean d
    end.

(** What the variable loop keeps about intervals and about the size of the
    model. *)
Definition interval_loop_inv (pre : list Variable_)
    (st : cp_model.CpModel * gmap string cp_model.IntVar * gmap string cp_model.IntervalVar)
  : Prop :=
  let '(m, _, intervals_map) := st in
  variable_loop_inv pre st ∧
  dom intervals_map = list_to_set (var_name <$> filter is_interval pre) ∧
  (∀ n iv, intervals_map !! n = Some iv →
     iv ∈ cp_model.intervals m ∧
     ∃ v, v ∈ pre ∧ var_name v = n ∧ interval_created_for (cp_model.variables m) v iv) ∧
  length (cp_model.variables m)
    = (length (filter scalar pre) + size (cp_model.constant_map m))%nat ∧
  dom (cp_model.constant_map m) = interval_constants pre ∧
  constants_ok m ∧
  length (cp_model.intervals m) = length (filter is_interval pre) ∧
  cp_model.constraints m = [] ∧
  cp_model.objective m = None.

(** The constraint asserted for a soft-linear constraint with comparator
    [op], left-hand side [expr], target [rhs] and slack variable [v]. *)
Definition soft_assertion (op : Comparator) (expr : cp_model.LinearExpr) (rhs : Z)
    (v : cp_model.IntVar) : cp_model.BoundedLinearExpression :=
  match op with
  | op_le => cp_model.Le expr (cp_model.Plus (cp_model.Const rhs) (cp_model.Var v))
  | _ => cp_model.Ge (cp_model.Plus expr (cp_model.Var v)) (cp_model.Const rhs)
  end.

(** The constraint asserted for the tracked constraint [t] is among [cons]. *)
Definition asserted_in (vars_map : gmap string cp_model.IntVar)
    (cons : list cp_model.ConstraintProto) (t : _TrackedSoftConstraint) : Prop :=
  ∃ expr,
    sum_terms vars_map (terms t) = Ok expr ∧
    cp_model.Linear (soft_assertion (comparator t) expr (target_value t) (violation_var t))
      ∈ cons.

(** What the constraint loop keeps about the shape of the model, for the
    model [m0] it starts from and the constraints [pre] already visited. *)
Definition shape_inv (vars_map : gmap string cp_model.IntVar) (m0 : cp_model.CpModel)
    (pre : list Constraint)
    (st : cp_model.CpModel * list cp_model.LinearExpr * list _TrackedSoftConstraint * nat)
  : Prop :=
  let '(m, pens, tracked, index) := st in
  cp_model.intervals m = cp_model.intervals m0 ∧
  cp_model.objective m = cp_model.objective m0 ∧
  length (cp_model.constraints m) = (length (cp_model.constraints m0) + length pre)%nat ∧
  index = length (filter is_soft pre) ∧
  length (cp_model.variables m) = (length (cp_model.variables m0) + index)%nat ∧
  (length pens ≤ index)%nat ∧
  (length tracked ≤ length pens)%nat ∧
  Forall (asserted_in vars_map (cp_model.constraints m)) tracked.

(** The name [n] is declared by a boolean or integer variable of [vs]. *)
Definition declared_scalar (vs : list Variable_) (n : string) : Prop :=
  ∃ v, v ∈ vs ∧ var_type v ≠ type_interval ∧ var_name v = n.

(** The name [n] is declared by an interval variable of [vs]. *)
Definition declared_interval (vs : list Variable_) (n : string) : Prop :=
  ∃ v, v ∈ vs ∧ var_type v = type_interval ∧ var_name v = n.

(** The bounds map and the map of handles agree: they have the same keys,
    and the model variable behind a handle has the bounds as domain and the
    key as name. *)
Definition bounds_agree (bounds : gmap string _VariableBounds)
    (st : cp_model.CpModel * gmap string cp_model.IntVar * gmap string cp_model.IntervalVar)
  : Prop :=
  let '(m, vars_map, _) := st in
  ∀ n,
    match bounds !! n with
    | Some b =>
        ∃ h d, vars_map !! n = Some h ∧ cp_model.variables m !! h = Some d ∧
          cp_model.domain_lb d = lower b ∧ cp_model.domain_ub d = upper b ∧
          cp_model.name d = n
    | None => vars_map !! n = None
    end.

(** The slack variable of every soft-linear constraint visited so far: the
    constraint at position [i] of [pre], the [k]-th soft-linear one counting
    from 0, has its slack variable at position [k] after the variables of
    [m0], named after its identifier, or after ["soft_k"] without one. *)
Definition slack_positions (m0 : cp_model.CpModel) (pre : list Constraint)
    (vars : list cp_model.IntVarProto) : Prop :=
  ∀ i constraint, pre !! i = Some constraint → is_soft constraint →
    let k := length (filter is_soft (take i pre)) in
    ∃ d, vars !! (length (cp_model.variables m0) + k)%nat = Some d ∧
      cp_model.domain_lb d = 0 ∧
      cp_model.name d = "violation_" +:+ or_ (c_id constraint) ("soft_" +:+ pretty k).

Definition slack_inv (vars_map : gmap string cp_model.IntVar) (m0 : cp_model.CpModel)
    (pre : list Constraint)
    (st : cp_model.CpModel * list cp_model.LinearExpr * list _TrackedSoftConstraint * nat)
  : Prop :=
  shape_inv vars_map m0 pre st ∧ slack_positions m0 pre (cp_model.variables st.1.1.1).

(** The position in the model of the variable created for the declaration at
    position [i]: one model variable per boolean or integer variable declared
    before, and one per value that is the start or the end of an interval
    declared before. *)
Definition declared_position (vs : list Variable_) (i : nat) : nat :=
  (length (filter scalar (take i vs)) + size (interval_constants (take i vs)))%nat.

(** No boolean or integer variable declared after position [i] has name [n]. *)
Definition last_named (vs : list Variable_) (i : nat) (n : string) : Prop :=
  ∀ j u, (i < j)%nat → vs !! j = Some u → scalar u → var_name u ≠ n.

(** Every boolean or integer declaration has its model variable at its
    position, and a name leads to the last declaration of that name. *)
Definition position_inv (pre : list Variable_)
    (st : cp_model.CpModel * gmap string cp_model.IntVar * gmap string cp_model.IntervalVar)
  : Prop :=
  let '(m, vars_map, _) := st in
  length (cp_model.variables m) = declared_position pre (length pre) ∧
  (∀ i v, pre !! i = Some v → scalar v →
     ∃ d, cp_model.variables m !! declared_position pre i = Some d ∧ created_for v d) ∧
  (∀ n h, vars_map !! n = Some h →
     ∃ i v, pre !! i = Some v ∧ scalar v ∧ var_name v = n ∧
       h = declared_position pre i ∧ last_named pre i n).

(** The bounds of a name are those of the last boolean or integer
    declaration of that name. *)
Definition bounds_last_inv (pre : list Variable_) (bounds : gmap string _VariableBounds)
  : Prop :=
  ∀ n b, bounds !! n = Some b →
    ∃ i v, pre !! i = Some v ∧ scalar v ∧ var_name v = n ∧ declared_bounds v b ∧
      last_named pre i n.

(** An integer variable declared without its minimum or without its maximum. *)
Definition lacks_bound (v : Variable_) : Prop :=
  var_type v = type_int ∧ (var_min v = None ∨ var_max v = None).

(** A boolean variable, or an integer variable with a minimum and a maximum,
    in whatever order. *)
Definition bounded_scalar (v : Variable_) : Prop :=
  var_type v = type_bool ∨
  (var_type v = type_int ∧ is_Some (var_min v) ∧ is_Some (var_max v)).

(** The declarations whose model variable the library takes as a literal: a
    boolean variable, or an integer variable whose domain is not empty and
    within [0, 1]. *)
Definition usable_as_presence (u : Variable_) : Prop :=
  var_type u = type_bool ∨
  (var_type u = type_int ∧
   ∃ lo hi, var_min u = Some lo ∧ var_max u = Some hi ∧ 0 <= lo ∧ lo <= hi ∧ hi <= 1).

(** The tracked constraint [t] is the one of the soft-linear constraint at
    some position of [pre]: with [k] soft-linear constraints before that
    position, its identifier is the one of the constraint, or ["soft_k"] for
    the empty identifier, its slack variable is the [k]-th variable after
    those of [m0], and its terms, comparator and target are those of the
    constraint. *)
Definition tracked_at (m0 : cp_model.CpModel) (pre : list Constraint)
    (t : _TrackedSoftConstraint) : Prop :=
  ∃ i constraint,
    pre !! i = Some constraint ∧ is_soft constraint ∧ is_Some (c_id constraint) ∧
    constraint_id t
      = or_ (c_id constraint) ("soft_" +:+ pretty (length (filter is_soft (take i pre)))) ∧
    violation_var t
      = (length (cp_model.variables m0) + length (filter is_soft (take i pre)))%nat ∧
    truthy (c_terms constraint) = Some (terms t) ∧
    c_op constraint = Some (comparator t) ∧
    c_rhs constraint = Some (target_value t).

(** A variable of the model that can stand as a boolean literal. *)
Definition literal_of (m : cp_model.CpModel) (x : cp_model.IntVar) : Prop :=
  ∃ d, cp_model.variables m !! x = Some d ∧ cp_model.is_boolean d.

(** ** A concrete runtime and concrete requests, for running the definitions *)

Module Demo.

(** A runtime whose floats are integers (whole seconds). *)
#[export] Instance runtime : PyRuntime :=
  {| float := Z; float_60 := 60; int_of_times_1000 := fun t => t * 1000;
     repr := fun s => "'" +:+ s +:+ "'";
     invalid_literal_message := fun n => "Invalid boolean literal: " +:+ n |}.

(** The numbering of the library's status enumeration. *)
#[export] Instance codes : cp_model.StatusCodes :=
  {| cp_model.OPTIMAL := 4; cp_model.FEASIBLE := 2; cp_model.INFEASIBLE := 3;
     cp_model.MODEL_INVALID := 1; cp_model.UNKNOWN := 0 |}.

Definition bool_var (n : string) : Variable_ :=
  {| var_type := type_bool; var_name := n; var_min := None; var_max := None;
     var_start := None; var_end := None; var_size := None; var_presenceVar := None |}.

Definition int_var (n : string) (lo hi : Z) : Variable_ :=
  {| var_type := type_int; var_name := n; var_min := Some lo; var_max := Some hi;
     var_start := None; var_end := None; var_size := None; var_presenceVar := None |}.

Definition interval_var (n : string) (s e sz : Z) (p : option string) : Variable_ :=
  {| var_type := type_interval; var_name := n; var_min := None; var_max := None;
     var_start := Some s; var_end := Some e; var_size := Some sz; var_presenceVar := p |}.

Definition linear_c (ts : list Term) (op : Comparator) (rhs : Z) : Constraint :=
  {| c_type := linear; c_terms := Some ts; c_op := Some op; c_rhs := Some rhs;
     c_penalty := None; c_vars := None; c_intervals := None; c_if := None;
     c_then := None; c_id := None |}.

Definition soft_c (ts : list Term) (op : Comparator) (rhs penalty : Z)
    (id : option string) : Constraint :=
  {| c_type := soft_linear; c_terms := Some ts; c_op := Some op; c_rhs := Some rhs;
     c_penalty := Some penalty; c_vars := None; c_intervals := None; c_if := None;
     c_then := None; c_id := id |}.

Definition request (vs : list Variable_) (cs : list Constraint) (o : option Objective)
  : SolverRequest :=
  {| variables := vs; constraints := cs; objective := o; options := None |}.

(** A solver object with a given status, diagnostic and assignment. *)
Definition solved (st : Z) (info : string) (val : cp_model.IntVar → Z) : cp_model.CpSolver :=
  {| cp_model.status := st; cp_model.solution_info := info;
     cp_model.wall_time := 0; cp_model.num_conflicts := 0;
     cp_model.num_branches := 0; cp_model.objective_value := 0;
     cp_model.best_objective_bound := 0; cp_model.value := val |}.

(** An oracle that answers with a fixed status and a fixed assignment. *)
Definition answer (st : Z) (info : string) (val : cp_model.IntVar → Z) : Oracle :=
  fun _ _ => Ok (solved st info val).

(** The assignment that gives 0 to the first variable and 1 to the others. *)
Definition zero_then_one (i : cp_model.IntVar) : Z :=
  match i with
  | O => 0
  | S _ => 1
  end.

(** The request of [test_soft_constraint_reports_violation_when_id_provided]. *)
Definition coverage_request : SolverRequest :=
  request [bool_var "x"]
    [ linear_c [ {| var := "x"; coeff := 1 |} ] op_eq 0;
      soft_c [ {| var := "x"; coeff := 1 |} ] op_ge 1 5 (Some "coverage:test:2024-02-01:540") ]
    None.

Definition x_times_1 : cp_model.LinearExpr :=
  cp_model.Plus (cp_model.Const 0) (cp_model.Mul (cp_model.Var 0%nat) 1).

(** What [coverage_request] compiles to. *)
Definition coverage_compiled : Compiled :=
  {| model :=
       {| cp_model.variables :=
            [ {| cp_model.domain_lb := 0; cp_model.domain_ub := 1; cp_model.name := "x" |};
              {| cp_model.domain_lb := 0; cp_model.domain_ub := 1;
                 cp_model.name := "violation_coverage:test:2024-02-01:540" |} ];
          cp_model.intervals := [];
          cp_model.constraints :=
            [ cp_model.Linear (cp_model.Eq x_times_1 (cp_model.Const 0));
              cp_model.Linear
                (cp_model.Ge (cp_model.Plus x_times_1 (cp_model.Var 1%nat))
                   (cp_model.Const 1)) ];
          cp_model.objective :=
            Some (minimize, cp_model.Mul (cp_model.Var 1%nat) 5);
          cp_model.constant_map := ∅ |};
     vars_map := {[ "x" := 0%nat ]};
     intervals_map := ∅;
     var_bounds := {[ "x" := {| lower := 0; upper := 1 |} ]};
     penalty_terms := [cp_model.Mul (cp_model.Var 1%nat) 5];
     tracked_constraints :=
       [ {| constraint_id := "coverage:test:2024-02-01:540"; violation_var := 1%nat;
            target_value := 1; comparator := op_ge;
            terms := [ {| var := "x"; coeff := 1 |} ] |} ];
     has_objective := true |}.

Definition coverage_violation : SoftConstraintViolation :=
  {| constraintId := "coverage:test:2024-02-01:540"; violationAmount := 1;
     targetValue := 1; actualValue := 0 |}.

(** The same request with the empty string as identifier of the soft
    constraint. *)
Definition empty_id_request : SolverRequest :=
  request [bool_var "x"]
    [ linear_c [ {| var := "x"; coeff := 1 |} ] op_eq 0;
      soft_c [ {| var := "x"; coeff := 1 |} ] op_ge 1 5 (Some "") ]
    None.

(** The request of [test_infeasible_solution_reports_solution_info]. *)
Definition infeasible_request : SolverRequest :=
  request [bool_var "x"]
    [ linear_c [ {| var := "x"; coeff := 1 |} ] op_eq 0;
      linear_c [ {| var := "x"; coeff := 1 |} ] op_eq 1 ]
    None.


(** A request whose constraint names a variable that was not declared. *)
Definition undeclared_request : SolverRequest :=
  request [bool_var "x"] [ linear_c [ {| var := "y"; coeff := 1 |} ] op_le 1 ] None.

(** An integer variable declared with its maximum below its minimum. *)
Definition inverted_request : SolverRequest := request [int_var "x" 5 3] [] None.

(** An interval whose presence variable is declared as an integer. *)
Definition int_presence_request : SolverRequest :=
  request [int_var "p" 0 1; interval_var "i" 0 5 5 (Some "p")] [] None.

(** An interval whose presence variable is an integer variable with a wider
    domain. *)
Definition wide_presence_request : SolverRequest :=
  request [int_var "p" 0 5; interval_var "i" 0 5 5 (Some "p")] [] None.

(** Two intervals that meet: the end of the first is the start of the second. *)
Definition adjacent_request : SolverRequest :=
  request [interval_var "a" 0 5 5 None; bool_var "x"; interval_var "b" 5 10 5 None]
    [ soft_c [ {| var := "x"; coeff := 1 |} ] op_le 0 7 None ] None.

End Demo.


(** * Properties *)

(** ** The error monad and the loops *)

Lemma bind_Ok {A B} (m : Res A) (k : A → Res B) (b : B) :
  m ≫= k = Ok b ↔ ∃ a, m = Ok a ∧ k a = Ok b.
Proof.
  destruct m as [a|e]; simpl; split.
  - intros Hk. by exists a.
  - by intros (a' & [= ->] & Hk).
  - intros [=].
  - by intros (a' & [=] & _).
Qed.

Lemma bind_Ok_l {A B} (a : A) (k : A → Res B) : Ok a ≫= k = k a.
Proof. done. Qed.

Ltac inv_res :=
  repeat match goal with
  | H : Ok _ = Ok _ |- _ => injection H as H; subst
  | H : Raise _ = Ok _ |- _ => discriminate H
  | H : Ok _ = Raise _ |- _ => discriminate H
  | H : _ ≫= _ = Ok _ |- _ =>
      let a := fresh "a" in let Ha := fresh "Ha" in
      apply bind_Ok in H as (a & Ha & H)
  | H : context [let '(_, _) := ?p in _] |- _ => destruct p
  end.

(** An invariant that the body of a loop keeps holds after the loop. *)
Lemma for_in_invariant {A S} (P : S → Prop) (body : S → A → Res S) xs s s' :
  (∀ s x s', x ∈ xs → P s → body s x = Ok s' → P s') →
  P s → for_in body s xs = Ok s' → P s'.
Proof.
  revert s. induction xs as [|x xs IH]; intros s Hbody Hs Hrun; simpl in Hrun.
  - by inv_res.
  - inv_res. apply (IH a); [| |done].
    + intros s1 y s2 Hy. apply Hbody. by apply list_elem_of_further.
    + eapply Hbody; [apply list_elem_of_here|done..].
Qed.

(** The same with the part of the list already visited. *)
Lemma for_in_invariant_prefix {A S} (P : list A → S → Prop) (body : S → A → Res S) xs s s' :
  (∀ pre x s s', pre ++ [x] `prefix_of` xs → P pre s → body s x = Ok s' → P (pre ++ [x]) s') →
  P [] s → for_in body s xs = Ok s' → P xs s'.
Proof.
  intros Hbody. cut (∀ rest done_ s, done_ ++ rest = xs → P done_ s →
    for_in body s rest = Ok s' → P xs s').
  { intros Hgen Hs Hrun. by apply (Hgen xs [] s). }
  clear s. induction rest as [|x rest IH]; intros done_ s Hxs Hs Hrun; simpl in Hrun.
  - rewrite app_nil_r in Hxs. injection Hrun as <-. by rewrite <- Hxs.
  - apply bind_Ok in Hrun as (s1 & Hstep & Hrun).
    apply (IH (done_ ++ [x]) s1); [by rewrite <- app_assoc| |done].
    eapply Hbody; [|done..]. exists rest. by rewrite <- app_assoc.
Qed.

(** A loop whose body raises on some element raises. *)
Lemma for_in_raises {A S} (body : S → A → Res S) xs x :
  x ∈ xs → (∀ s, ∃ e, body s x = Raise e) → ∀ s, ∃ e, for_in body s xs = Raise e.
Proof.
  intros Hx Hbad. induction xs as [|y xs IH]; intros s; [by apply elem_of_nil in Hx|].
  simpl. destruct (body s y) as [s1|e] eqn:Hy; simpl; [|by eexists].
  apply elem_of_cons in Hx as [->|Hx]; [|by apply IH].
  destruct (Hbad s) as [e He]. congruence.
Qed.

(** ** Static ranges and linear sums *)

Lemma expression_range_from ts bounds lo hi :
  resolved bounds ts →
  for_in (fun '(min_expr, max_expr) term =>
    match bounds !! var term with
    | None => Raise (ValueError ("Unknown variable " +:+ var term))
    | Some b =>
        let '(term_min, term_max) := _term_range term b in
        Ok (min_expr + term_min, max_expr + term_max)
    end) (lo, hi) ts
  = Ok (lo + (expression_range_spec ts bounds).1, hi + (expression_range_spec ts bounds).2).
Proof.
  intros Hts. revert lo hi. induction Hts as [|t ts [b Hb] _ IH]; intros lo hi; simpl.
  - f_equal. f_equal; lia.
  - rewrite Hb. simpl. unfold _term_range.
    destruct (expression_range_spec ts bounds) as [smin smax] eqn:Hspec.
    repeat case_bool_decide; try lia; simpl; rewrite IH; simpl; f_equal; f_equal; lia.
Qed.

Lemma expression_range_ok ts bounds :
  resolved bounds ts → _expression_range ts bounds = Ok (expression_range_spec ts bounds).
Proof.
  intros Hts. unfold _expression_range. rewrite expression_range_from by done.
  by destruct (expression_range_spec ts bounds).
Qed.

Lemma expression_range_resolved ts bounds r :
  _expression_range ts bounds = Ok r → resolved bounds ts.
Proof.
  unfold _expression_range. generalize (0, 0). revert r.
  induction ts as [|t ts IH]; intros r acc Hrun; [by constructor|].
  simpl in Hrun. apply bind_Ok in Hrun as (acc' & Hstep & Hrun).
  destruct acc as [lo hi]. constructor; [|by eapply IH].
  by destruct (bounds !! var t).
Qed.

Lemma sum_terms_from vars_map ts e0 :
  resolved vars_map ts →
  ∃ expr,
    for_in (fun total t =>
      v ← subscript vars_map (var t);
      Ok (cp_model.Plus total (cp_model.Mul (cp_model.Var v) (coeff t)))) e0 ts = Ok expr
    ∧ ∀ val, cp_model.eval val expr = cp_model.eval val e0 + lhs_value vars_map val ts.
Proof.
  intros Hts. revert e0. induction Hts as [|t ts [h Hh] _ IH]; intros e0; simpl.
  - exists e0. split; [done|]. intros val. lia.
  - unfold subscript. rewrite Hh. simpl.
    destruct (IH (cp_model.Plus e0 (cp_model.Mul (cp_model.Var h) (coeff t))))
      as (expr & Hrun & Heval).
    exists expr. split; [done|]. intros val. rewrite Heval. simpl. lia.
Qed.

Lemma sum_terms_ok vars_map ts :
  resolved vars_map ts →
  ∃ expr, sum_terms vars_map ts = Ok expr
    ∧ ∀ val, cp_model.eval val expr = lhs_value vars_map val ts.
Proof.
  intros Hts. destruct (sum_terms_from vars_map ts (cp_model.Const 0) Hts)
    as (expr & Hrun & Heval).
  exists expr. split; [done|]. intros val. by rewrite Heval.
Qed.

Lemma sum_terms_resolved vars_map ts expr :
  sum_terms vars_map ts = Ok expr → resolved vars_map ts.
Proof.
  unfold sum_terms. generalize (cp_model.Const 0). revert expr.
  induction ts as [|t ts IH]; intros expr e0 Hrun; [by constructor|].
  simpl in Hrun. apply bind_Ok in Hrun as (e1 & Hstep & Hrun).
  constructor; [|by eapply IH].
  unfold subscript in Hstep. by destruct (vars_map !! var t).
Qed.

Lemma sum_values_from `{PyRuntime} vars_map solver ts z0 :
  resolved vars_map ts →
  for_in (fun total t =>
      v ← subscript vars_map (var t);
      Ok (total + cp_model.value solver v * coeff t)) z0 ts
  = Ok (z0 + lhs_value vars_map (cp_model.value solver) ts).
Proof.
  intros Hts. revert z0. induction Hts as [|t ts [h Hh] _ IH]; intros z0; simpl.
  - f_equal. lia.
  - unfold subscript. rewrite Hh. simpl. rewrite IH. f_equal. lia.
Qed.

Lemma sum_values_ok `{PyRuntime} vars_map solver ts :
  resolved vars_map ts →
  sum_values vars_map solver ts = Ok (lhs_value vars_map (cp_model.value solver) ts).
Proof. intros Hts. unfold sum_values. by rewrite sum_values_from. Qed.

(** ** Soft-linear constraints *)

(** The handler computed in full, for a constraint that has its fields and
    whose variables are known. *)
Lemma add_soft_linear_constraint_ok
    model constraint vars_map bounds penalty_terms tracked_constraints constraint_index
    ts op rhs penalty :
  truthy (c_terms constraint) = Some ts →
  c_op constraint = Some op → op ≠ op_eq →
  c_rhs constraint = Some rhs →
  c_penalty constraint = Some penalty →
  resolved bounds ts → resolved vars_map ts →
  ∃ expr,
    sum_terms vars_map ts = Ok expr ∧
    let max_violation := max_violation_spec op rhs (expression_range_spec ts bounds) in
    let v := length (cp_model.variables model) in
    _add_soft_linear_constraint model constraint vars_map bounds penalty_terms
      tracked_constraints constraint_index
    = Ok (with_slack model
            ("violation_" +:+ or_ (c_id constraint) ("soft_" +:+ pretty constraint_index))
            max_violation op expr rhs,
          penalty_terms ++ soft_penalty v max_violation penalty,
          tracked_constraints ++
            soft_tracked constraint constraint_index v max_violation op rhs ts).
Proof.
  intros Hts Hop Hne Hrhs Hpen Hb Hv.
  destruct (sum_terms_ok vars_map ts Hv) as (expr & Hexpr & _).
  exists expr. split; [done|]. simpl.
  unfold _add_soft_linear_constraint, soft_penalty, soft_tracked.
  rewrite Hts, Hop, Hrhs, Hpen, (expression_range_ok ts bounds Hb), Hexpr.
  destruct (expression_range_spec ts bounds) as [min_expr max_expr].
  destruct op; [| |done]; simpl; case_bool_decide; simpl;
    destruct (c_id constraint); simpl; by rewrite ?app_nil_r.
Qed.

(** The converse: when the handler returns, the constraint had its fields and
    its variables were known. *)
Lemma add_soft_linear_constraint_inv
    model constraint vars_map bounds penalty_terms tracked_constraints constraint_index r :
  _add_soft_linear_constraint model constraint vars_map bounds penalty_terms
    tracked_constraints constraint_index = Ok r →
  ∃ ts op rhs penalty,
    truthy (c_terms constraint) = Some ts ∧ c_op constraint = Some op ∧ op ≠ op_eq ∧
    c_rhs constraint = Some rhs ∧ c_penalty constraint = Some penalty ∧
    resolved bounds ts ∧ resolved vars_map ts.
Proof.
  unfold _add_soft_linear_constraint. intros Hrun.
  destruct (truthy (c_terms constraint)) as [ts|]; [|done].
  destruct (c_op constraint) as [op|]; [|done].
  destruct (c_rhs constraint) as [rhs|]; [|done].
  destruct (c_penalty constraint) as [penalty|]; [|done].
  apply bind_Ok in Hrun as ([min_expr max_expr] & Hrange & Hrun).
  apply bind_Ok in Hrun as (expr & Hexpr & Hrun).
  exists ts, op, rhs, penalty. repeat split; try done.
  - intros ->. by simpl in Hrun.
  - by eapply expression_range_resolved.
  - by eapply sum_terms_resolved.
Qed.

(** C1. For a soft-linear constraint with its fields present and its
    variables known, the range the code derives is the fold of the term
    ranges over its terms; the handler returns, having created one slack
    variable [v] with domain [0, maxViolation] and asserted one constraint:
    for [<=], maxViolation is [max(0, maxExpr - rhs)] and the constraint is
    [expr <= rhs + v]; for [>=], maxViolation is [max(0, rhs - minExpr)] and
    the constraint is [expr + v >= rhs]; [expr] evaluates to [Σ coeff·var],
    so the constraint holds under an assignment exactly when
    [Σ coeff·var <= rhs + v], resp. [Σ coeff·var + v >= rhs], does. *)
Theorem soft_linear_slack_and_constraint
    model constraint vars_map bounds penalty_terms tracked_constraints constraint_index
    ts op rhs penalty :
  truthy (c_terms constraint) = Some ts →
  c_op constraint = Some op → op ≠ op_eq →
  c_rhs constraint = Some rhs →
  c_penalty constraint = Some penalty →
  resolved bounds ts → resolved vars_map ts →
  ∃ min_expr max_expr expr model' penalty_terms' tracked' slack asserted,
    _expression_range ts bounds = Ok (min_expr, max_expr) ∧
    (min_expr, max_expr) = expression_range_spec ts bounds ∧
    sum_terms vars_map ts = Ok expr ∧
    (∀ val, cp_model.eval val expr = lhs_value vars_map val ts) ∧
    _add_soft_linear_constraint model constraint vars_map bounds penalty_terms
      tracked_constraints constraint_index = Ok (model', penalty_terms', tracked') ∧
    cp_model.variables model' = cp_model.variables model ++ [slack] ∧
    cp_model.constraints model' = cp_model.constraints model ++ [cp_model.Linear asserted] ∧
    cp_model.domain_lb slack = 0 ∧
    let v := length (cp_model.variables model) in
    match op with
    | op_le =>
        cp_model.domain_ub slack = Z.max 0 (max_expr - rhs) ∧
        asserted = cp_model.Le expr (cp_model.Plus (cp_model.Const rhs) (cp_model.Var v)) ∧
        ∀ val, cp_model.holds val asserted ↔ lhs_value vars_map val ts <= rhs + val v
    | op_ge =>
        cp_model.domain_ub slack = Z.max 0 (rhs - min_expr) ∧
        asserted = cp_model.Ge (cp_model.Plus expr (cp_model.Var v)) (cp_model.Const rhs) ∧
        ∀ val, cp_model.holds val asserted ↔ lhs_value vars_map val ts + val v >= rhs
    | op_eq => False
    end.
Proof.
  intros Hts Hop Hne Hrhs Hpen Hb Hv.
  destruct (add_soft_linear_constraint_ok model constraint vars_map bounds penalty_terms
    tracked_constraints constraint_index ts op rhs penalty) as (expr & Hexpr & Hrun);
    try done.
  destruct (sum_terms_ok vars_map ts Hv) as (expr' & Hexpr' & Heval).
  assert (expr' = expr) as -> by congruence.
  destruct (expression_range_spec ts bounds) as [min_expr max_expr] eqn:Hspec.
  exists min_expr, max_expr, expr. do 3 eexists. do 2 eexists.
  split; [by rewrite expression_range_ok, Hspec|].
  split; [done|]. split; [done|]. split; [done|].
  split; [exact Hrun|]. simpl.
  split; [done|]. split; [done|]. split; [done|].
  destruct op; [| |done]; (split; [done|]); (split; [done|]);
    intros val; simpl; by rewrite Heval.
Qed.

Lemma soft_linear_slack_and_constraint_witness :
  ∃ min_expr max_expr expr model' penalty_terms' tracked' slack asserted,
    _expression_range [ {| var := "x"; coeff := 2 |}; {| var := "y"; coeff := -3 |} ]
      {[ "x" := {| lower := 0; upper := 1 |}; "y" := {| lower := -1; upper := 4 |} ]}
      = Ok (min_expr, max_expr) ∧
    (min_expr, max_expr) =
      expression_range_spec [ {| var := "x"; coeff := 2 |}; {| var := "y"; coeff := -3 |} ]
        {[ "x" := {| lower := 0; upper := 1 |}; "y" := {| lower := -1; upper := 4 |} ]} ∧
    sum_terms {[ "x" := 0%nat; "y" := 1%nat ]}
      [ {| var := "x"; coeff := 2 |}; {| var := "y"; coeff := -3 |} ] = Ok expr ∧
    (∀ val, cp_model.eval val expr =
       lhs_value {[ "x" := 0%nat; "y" := 1%nat ]} val
         [ {| var := "x"; coeff := 2 |}; {| var := "y"; coeff := -3 |} ]) ∧
    _add_soft_linear_constraint
      (cp_model.NewIntVar (cp_model.NewBoolVar cp_model.new "x").1 (-1) 4 "y").1
      (Demo.soft_c [ {| var := "x"; coeff := 2 |}; {| var := "y"; coeff := -3 |} ]
         op_le 1 7 (Some "cap"))
      {[ "x" := 0%nat; "y" := 1%nat ]}
      {[ "x" := {| lower := 0; upper := 1 |}; "y" := {| lower := -1; upper := 4 |} ]}
      [] [] 0
      = Ok (model', penalty_terms', tracked') ∧
    cp_model.variables model' =
      cp_model.variables
        (cp_model.NewIntVar (cp_model.NewBoolVar cp_model.new "x").1 (-1) 4 "y").1 ++ [slack] ∧
    cp_model.constraints model' =
      cp_model.constraints
        (cp_model.NewIntVar (cp_model.NewBoolVar cp_model.new "x").1 (-1) 4 "y").1
        ++ [cp_model.Linear asserted] ∧
    cp_model.domain_lb slack = 0 ∧
    cp_model.domain_ub slack = Z.max 0 (max_expr - 1) ∧
    asserted = cp_model.Le expr (cp_model.Plus (cp_model.Const 1) (cp_model.Var 2%nat)) ∧
    ∀ val, cp_model.holds val asserted ↔
      lhs_value {[ "x" := 0%nat; "y" := 1%nat ]} val
        [ {| var := "x"; coeff := 2 |}; {| var := "y"; coeff := -3 |} ] <= 1 + val 2%nat.
Proof.
  apply (soft_linear_slack_and_constraint
    (cp_model.NewIntVar (cp_model.NewBoolVar cp_model.new "x").1 (-1) 4 "y").1
    (Demo.soft_c [ {| var := "x"; coeff := 2 |}; {| var := "y"; coeff := -3 |} ]
       op_le 1 7 (Some "cap"))
    {[ "x" := 0%nat; "y" := 1%nat ]}
    {[ "x" := {| lower := 0; upper := 1 |}; "y" := {| lower := -1; upper := 4 |} ]}
    [] [] 0%nat
    [ {| var := "x"; coeff := 2 |}; {| var := "y"; coeff := -3 |} ] op_le 1 7).
  - reflexivity.
  - reflexivity.
  - discriminate.
  - reflexivity.
  - reflexivity.
  - repeat constructor; vm_compute; eexists; reflexivity.
  - repeat constructor; vm_compute; eexists; reflexivity.
Defined.

(** ** What the constraint loop keeps *)

(** The library accepts a list of literals exactly when each of them is
    one, and only then adds the constraint. *)
Lemma check_literal_Ok m x : cp_model.check_literal m x = Ok () ↔ literal_of m x.
Proof.
  unfold cp_model.check_literal, literal_of. split.
  - destruct (cp_model.variables m !! x) as [d|]; [|done].
    case_decide; [|done]. intros _. by exists d.
  - intros (d & -> & Hd). by rewrite decide_True.
Qed.

Lemma check_literals_Ok m xs :
  cp_model.check_literals m xs = Ok () ↔ Forall (literal_of m) xs.
Proof.
  induction xs as [|x xs IH]; simpl.
  - split; [by constructor|done].
  - rewrite Forall_cons, <- IH, <- check_literal_Ok.
    destruct (cp_model.check_literal m x) as [[]|e]; simpl; [tauto|].
    split; [done|]. by intros [? _].
Qed.

Lemma check_literals_unit m xs u : cp_model.check_literals m xs = Ok u → Forall (literal_of m) xs.
Proof. destruct u. apply check_literals_Ok. Qed.

(** Each constraint over literals is added when the literals pass the check,
    and only then. *)
Lemma literal_constraint_Ok m xs (c : cp_model.ConstraintProto) m' :
  (_ ← cp_model.check_literals m xs; Ok (cp_model.add_constraint m c)) = Ok m' ↔
  Forall (literal_of m) xs ∧ m' = cp_model.add_constraint m c.
Proof.
  rewrite <- check_literals_Ok. destruct (cp_model.check_literals m xs) as [[]|e]; simpl.
  - split; [by intros [= <-]|by intros [_ ->]].
  - split; [done|by intros [? _]].
Qed.

Lemma AddExactlyOne_Ok m xs m' :
  cp_model.AddExactlyOne m xs = Ok m' ↔
  Forall (literal_of m) xs ∧ m' = cp_model.add_constraint m (cp_model.ExactlyOne xs).
Proof. apply literal_constraint_Ok. Qed.

Lemma AddAtMostOne_Ok m xs m' :
  cp_model.AddAtMostOne m xs = Ok m' ↔
  Forall (literal_of m) xs ∧ m' = cp_model.add_constraint m (cp_model.AtMostOne xs).
Proof. apply literal_constraint_Ok. Qed.

Lemma AddBoolOr_Ok m xs m' :
  cp_model.AddBoolOr m xs = Ok m' ↔
  Forall (literal_of m) xs ∧ m' = cp_model.add_constraint m (cp_model.BoolOr xs).
Proof. apply literal_constraint_Ok. Qed.

Lemma AddBoolAnd_Ok m xs m' :
  cp_model.AddBoolAnd m xs = Ok m' ↔
  Forall (literal_of m) xs ∧ m' = cp_model.add_constraint m (cp_model.BoolAnd xs).
Proof. apply literal_constraint_Ok. Qed.

Lemma AddImplication_Ok m a b m' :
  cp_model.AddImplication m a b = Ok m' ↔
  (literal_of m a ∧ literal_of m b) ∧
  m' = cp_model.add_constraint m (cp_model.Implication a b).
Proof.
  unfold cp_model.AddImplication. rewrite literal_constraint_Ok.
  rewrite !Forall_cons, Forall_nil. tauto.
Qed.

Lemma NewOptionalIntervalVar_Ok m start size end_ presence name r :
  cp_model.NewOptionalIntervalVar m start size end_ presence name = Ok r ↔
  literal_of m presence ∧
  r = cp_model.add_interval m
        {| cp_model.interval_start := start; cp_model.interval_size := size;
           cp_model.interval_end := end_; cp_model.interval_presence := Some presence;
           cp_model.interval_name := name |}.
Proof.
  unfold cp_model.NewOptionalIntervalVar. rewrite <- check_literal_Ok.
  destruct (cp_model.check_literal m presence) as [[]|e]; simpl.
  - split; [by intros [= <-]|by intros [_ ->]].
  - split; [done|by intros [? _]].
Qed.

(** Asking for a constant leaves the model as it is, or adds the constant as
    last variable; either way the model remembers it. *)
Lemma NewConstant_frame m z m' h :
  cp_model.NewConstant m z = (m', h) →
  cp_model.variables m `prefix_of` cp_model.variables m' ∧
  cp_model.intervals m' = cp_model.intervals m ∧
  cp_model.constraints m' = cp_model.constraints m ∧
  cp_model.objective m' = cp_model.objective m ∧
  cp_model.constant_map m' = <[z := h]> (cp_model.constant_map m).
Proof.
  unfold cp_model.NewConstant.
  destruct (cp_model.constant_map m !! z) as [i|] eqn:Hz; intros [= <- <-]; simpl.
  - split_and!; try done. by rewrite insert_id.
  - split_and!; try done. by apply prefix_app_r.
Qed.

Lemma NewConstant_constants m z m' h (k : nat) :
  cp_model.NewConstant m z = (m', h) →
  constants_ok m →
  length (cp_model.variables m) = (k + size (cp_model.constant_map m))%nat →
  cp_model.variables m' !! h = Some (constant z) ∧
  constants_ok m' ∧
  length (cp_model.variables m') = (k + size (cp_model.constant_map m'))%nat.
Proof.
  unfold cp_model.NewConstant. intros Hrun Hok Hlen.
  destruct (cp_model.constant_map m !! z) as [i|] eqn:Hz; injection Hrun as <- <-.
  - split_and!; try done. by apply Hok.
  - simpl. split_and!.
    + rewrite lookup_app_r by done. by rewrite Nat.sub_diag.
    + intros z' h' Hz'. simpl in Hz'. destruct (decide (z = z')) as [<-|Hne].
      * rewrite lookup_insert_eq in Hz'. injection Hz' as <-. simpl.
        rewrite lookup_app_r by done. by rewrite Nat.sub_diag.
      * rewrite lookup_insert_ne in Hz' by done. simpl.
        apply lookup_app_l_Some. by apply Hok.
    + rewrite length_app, map_size_insert_None by done. simpl. lia.
Qed.

(** What materializing an interval variable does, when it returns. *)
Lemma create_variable_interval_Ok m vars_map intervals_map v st' :
  var_type v = type_interval →
  create_variable (m, vars_map, intervals_map) v = Ok st' →
  ∃ s e m1 start m2 end_ presence,
    var_start v = Some s ∧ var_end v = Some e ∧ var_size v = Some (e - s) ∧
    cp_model.NewConstant m s = (m1, start) ∧
    cp_model.NewConstant m1 e = (m2, end_) ∧
    match var_presenceVar v with
    | None => presence = None
    | Some p => ∃ h, vars_map !! p = Some h ∧ presence = Some h ∧ literal_of m2 h
    end ∧
    st' =
      ({| cp_model.variables := cp_model.variables m2;
          cp_model.intervals :=
            cp_model.intervals m2 ++
              [ {| cp_model.interval_start := start; cp_model.interval_size := e - s;
                   cp_model.interval_end := end_; cp_model.interval_presence := presence;
                   cp_model.interval_name := var_name v |} ];
          cp_model.constraints := cp_model.constraints m2;
          cp_model.objective := cp_model.objective m2;
          cp_model.constant_map := cp_model.constant_map m2 |},
       vars_map,
       <[var_name v :=
           {| cp_model.interval_start := start; cp_model.interval_size := e - s;
              cp_model.interval_end := end_; cp_model.interval_presence := presence;
              cp_model.interval_name := var_name v |}]> intervals_map).
Proof.
  intros Htype Hrun. unfold create_variable in Hrun. rewrite Htype in Hrun.
  destruct (var_start v) as [s|]; [|done].
  destruct (var_end v) as [e|]; [|done].
  destruct (var_size v) as [sz|]; [|done].
  case_bool_decide as Hcons; [done|].
  assert (e - s = sz) as <- by (destruct (decide (e - s = sz)); [done|by destruct Hcons]).
  destruct (cp_model.NewConstant m s) as [m1 start] eqn:H1.
  destruct (cp_model.NewConstant m1 e) as [m2 end_] eqn:H2.
  exists s, e, m1, start, m2, end_.
  destruct (var_presenceVar v) as [p|].
  - destruct (vars_map !! p) as [h|]; [|done].
    apply bind_Ok in Hrun as ([m3 iv] & Hopt & Hrun).
    apply NewOptionalIntervalVar_Ok in Hopt as [Hlit [= -> ->]].
    injection Hrun as <-. exists (Some h). split_and!; try done. by exists h.
  - injection Hrun as <-. by exists None.
Qed.

Lemma create_variable_interval_frame m vars_map intervals_map v m' vars_map' intervals_map' :
  var_type v = type_interval →
  create_variable (m, vars_map, intervals_map) v = Ok (m', vars_map', intervals_map') →
  vars_map' = vars_map ∧ cp_model.variables m `prefix_of` cp_model.variables m'.
Proof.
  intros Htype Hrun.
  apply create_variable_interval_Ok in Hrun
    as (s & e & m1 & start & m2 & end_ & presence & _ & _ & _ & H1 & H2 & _ & Hst);
    [|done].
  injection Hst as -> -> ->. split; [done|]. simpl.
  apply NewConstant_frame in H1 as (Hp1 & _). apply NewConstant_frame in H2 as (Hp2 & _).
  by etrans.
Qed.

(** What a handler's call of the library leaves to be read off. *)
Ltac library_call Hrun :=
  first
    [ apply AddExactlyOne_Ok in Hrun as [? ->]
    | apply AddAtMostOne_Ok in Hrun as [? ->]
    | apply AddBoolOr_Ok in Hrun as [? ->]
    | apply AddBoolAnd_Ok in Hrun as [? ->]
    | apply AddImplication_Ok in Hrun as [[? ?] ->]
    | injection Hrun as <- ].

(** The handlers of the hard constraints leave the variables of the model
    as they are: each one either raises or adds one constraint. *)
Ltac handler_variables :=
  intros Hrun;
  repeat match type of Hrun with
  | match ?o with _ => _ end = Ok _ => destruct o; try discriminate Hrun
  | _ ≫= _ = Ok _ =>
      let a := fresh "a" in let Ha := fresh "Ha" in
      apply bind_Ok in Hrun as (a & Ha & Hrun)
  end;
  try library_call Hrun; done.

Lemma add_linear_constraint_variables model constraint vars_map m' :
  _add_linear_constraint model constraint vars_map = Ok m' →
  cp_model.variables m' = cp_model.variables model.
Proof. unfold _add_linear_constraint. handler_variables. Qed.

Lemma add_exactly_one_variables model constraint vars_map m' :
  _add_exactly_one model constraint vars_map = Ok m' →
  cp_model.variables m' = cp_model.variables model.
Proof. unfold _add_exactly_one. handler_variables. Qed.

Lemma add_at_most_one_variables model constraint vars_map m' :
  _add_at_most_one model constraint vars_map = Ok m' →
  cp_model.variables m' = cp_model.variables model.
Proof. unfold _add_at_most_one. handler_variables. Qed.

Lemma add_implication_variables model constraint vars_map m' :
  _add_implication model constraint vars_map = Ok m' →
  cp_model.variables m' = cp_model.variables model.
Proof. unfold _add_implication. handler_variables. Qed.

Lemma add_bool_or_variables model constraint vars_map m' :
  _add_bool_or model constraint vars_map = Ok m' →
  cp_model.variables m' = cp_model.variables model.
Proof. unfold _add_bool_or. handler_variables. Qed.

Lemma add_bool_and_variables model constraint vars_map m' :
  _add_bool_and model constraint vars_map = Ok m' →
  cp_model.variables m' = cp_model.variables model.
Proof. unfold _add_bool_and. handler_variables. Qed.

Lemma add_no_overlap_variables model constraint intervals_map m' :
  _add_no_overlap model constraint intervals_map = Ok m' →
  cp_model.variables m' = cp_model.variables model.
Proof. unfold _add_no_overlap. handler_variables. Qed.

Lemma build_objective_variables model objective vars_map penalty_terms m' b :
  _build_objective model objective vars_map penalty_terms = Ok (m', b) →
  cp_model.variables m' = cp_model.variables model.
Proof.
  unfold _build_objective. intros Hrun.
  destruct objective as [o|].
  - apply bind_Ok in Hrun as (es & _ & Hrun).
    destruct (_sum_expr penalty_terms), (_sum_expr es);
      repeat case_bool_decide; by injection Hrun as <- <-.
  - destruct (_sum_expr penalty_terms); by injection Hrun as <- <-.
Qed.

Lemma tracked_from_extend cs bounds vars_map vars more k t :
  tracked_from cs bounds vars_map vars k t →
  tracked_from cs bounds vars_map (vars ++ more) k t.
Proof.
  intros (constraint & index & penalty & d & H).
  exists constraint, index, penalty, d. destruct_and!. repeat split; try done.
  by apply lookup_app_l_Some.
Qed.

Lemma max_violation_spec_nonneg op rhs range : 0 <= max_violation_spec op rhs range.
Proof. destruct op; simpl; lia. Qed.

Lemma constraint_loop_inv_same_variables cs bounds vars_map m0 m m' pens pens' tracked i i' :
  cp_model.variables m' = cp_model.variables m →
  constraint_loop_inv cs bounds vars_map m0 (m, pens, tracked, i) →
  constraint_loop_inv cs bounds vars_map m0 (m', pens', tracked, i').
Proof. unfold constraint_loop_inv. by intros ->. Qed.

Lemma add_soft_linear_constraint_inv_loop
    cs bounds vars_map m0 m pens tracked index constraint m' pens' tracked' :
  constraint ∈ cs → c_type constraint = soft_linear →
  constraint_loop_inv cs bounds vars_map m0 (m, pens, tracked, index) →
  _add_soft_linear_constraint m constraint vars_map bounds pens tracked index
    = Ok (m', pens', tracked') →
  constraint_loop_inv cs bounds vars_map m0 (m', pens', tracked', S index).
Proof.
  intros Hin Htype (Hprefix & Hslack & Htracked) Hrun.
  destruct (add_soft_linear_constraint_inv _ _ _ _ _ _ _ _ Hrun)
    as (ts & op & rhs & penalty & Hts & Hop & Hne & Hrhs & Hpen & Hb & Hv).
  destruct (add_soft_linear_constraint_ok m constraint vars_map bounds pens tracked index
    ts op rhs penalty Hts Hop Hne Hrhs Hpen Hb Hv) as (expr & _ & Hok).
  simpl in Hok. rewrite Hok in Hrun. injection Hrun as <- <- <-.
  unfold constraint_loop_inv, with_slack. simpl. split_and!.
  - by apply prefix_app_r.
  - intros i d Hk Hi. apply lookup_app_Some in Hi as [Hi|[Hlen Hi]]; [by eapply Hslack|].
    apply list_lookup_singleton_Some in Hi as [_ <-]. repeat split; simpl.
    + apply max_violation_spec_nonneg.
    + by eexists.
  - apply Forall_app. split.
    + eapply Forall_impl; [done|]. intros t. apply tracked_from_extend.
    + unfold soft_tracked. case_bool_decide as Hpos; [|by constructor].
      destruct (c_id constraint) as [id|] eqn:Hid; [|by constructor].
      constructor; [|by constructor].
      exists constraint, index, penalty,
        {| cp_model.domain_lb := 0;
           cp_model.domain_ub :=
             max_violation_spec op rhs (expression_range_spec ts bounds);
           cp_model.name := "violation_" +:+ or_ (Some id) ("soft_" +:+ pretty index) |}.
      simpl. rewrite Hid. split_and!; try done.
      * by apply prefix_length.
      * apply lookup_app_Some. right. split; [done|]. by rewrite Nat.sub_diag.
      * lia.
Qed.

Lemma compile_constraint_inv cs bounds vars_map intervals_map m0 st constraint st' :
  constraint ∈ cs →
  constraint_loop_inv cs bounds vars_map m0 st →
  compile_constraint vars_map intervals_map bounds st constraint = Ok st' →
  constraint_loop_inv cs bounds vars_map m0 st'.
Proof.
  intros Hin Hinv Hrun. destruct st as [[[m pens] tracked] index].
  unfold compile_constraint in Hrun.
  destruct (c_type constraint) eqn:Htype;
    apply bind_Ok in Hrun as (r & Hhandler & Hrun).
  2: { destruct r as [[m' pens'] tracked']. injection Hrun as <-.
       by eapply add_soft_linear_constraint_inv_loop. }
  all: injection Hrun as <-; eapply constraint_loop_inv_same_variables; [|done].
  - by eapply add_linear_constraint_variables.
  - by eapply add_exactly_one_variables.
  - by eapply add_at_most_one_variables.
  - by eapply add_implication_variables.
  - by eapply add_bool_or_variables.
  - by eapply add_bool_and_variables.
  - by eapply add_no_overlap_variables.
Qed.

Lemma constraint_loop_keeps cs bounds vars_map intervals_map m0 st' :
  for_in (compile_constraint vars_map intervals_map bounds) (m0, [], [], 0%nat) cs = Ok st' →
  constraint_loop_inv cs bounds vars_map m0 st'.
Proof.
  apply for_in_invariant.
  - intros st c st1 Hc. by apply compile_constraint_inv.
  - split_and!; [done| |by constructor].
    intros i d Hk Hi. apply lookup_lt_Some in Hi. lia.
Qed.

(** ** What the variable loop keeps *)

Lemma variable_loop_inv_snoc_scalar pre m vars_map intervals_map intervals_map' v d :
  scalar v → created_for v d →
  variable_loop_inv pre (m, vars_map, intervals_map) →
  variable_loop_inv (pre ++ [v])
    ({| cp_model.variables := cp_model.variables m ++ [d];
        cp_model.intervals := cp_model.intervals m;
        cp_model.constraints := cp_model.constraints m;
        cp_model.objective := cp_model.objective m;
        cp_model.constant_map := cp_model.constant_map m |},
     <[var_name v := length (cp_model.variables m)]> vars_map, intervals_map').
Proof.
  intros Hscalar Hd [Hdom Hlook]. split.
  - rewrite dom_insert_L, Hdom, filter_app, fmap_app, list_to_set_app_L.
    rewrite filter_cons_True, filter_nil by done. simpl.
    rewrite (right_id_L ∅ (∪)). apply (comm_L (∪)).
  - intros n h Hn. simpl. destruct (decide (var_name v = n)) as [<-|Hne].
    + rewrite lookup_insert_eq in Hn. injection Hn as <-.
      exists v, d. split_and!; try done.
      * apply elem_of_app. right. by apply list_elem_of_singleton.
      * apply lookup_app_Some. right. split; [done|]. by rewrite Nat.sub_diag.
    + rewrite lookup_insert_ne in Hn by done.
      destruct (Hlook n h Hn) as (v' & d' & Hv' & Hname & Hh & Hcreated).
      exists v', d'. split_and!; try done.
      * apply elem_of_app. by left.
      * by apply lookup_app_l_Some.
Qed.

Lemma variable_loop_inv_snoc_interval pre m m' vars_map intervals_map intervals_map' v :
  ¬ scalar v →
  cp_model.variables m `prefix_of` cp_model.variables m' →
  variable_loop_inv pre (m, vars_map, intervals_map) →
  variable_loop_inv (pre ++ [v]) (m', vars_map, intervals_map').
Proof.
  intros Hscalar [more Hmore] [Hdom Hlook]. split.
  - rewrite Hdom, filter_app, filter_cons_False, filter_nil by done.
    by rewrite app_nil_r.
  - intros n h Hn. destruct (Hlook n h Hn) as (v' & d' & Hv' & Hname & Hh & Hcreated).
    exists v', d'. split_and!; try done.
    + apply elem_of_app. by left.
    + rewrite Hmore. by apply lookup_app_l_Some.
Qed.

Lemma create_variable_inv pre st v st' :
  variable_loop_inv pre st → create_variable st v = Ok st' →
  variable_loop_inv (pre ++ [v]) st'.
Proof.
  intros Hinv Hrun. destruct st as [[m vars_map] intervals_map].
  destruct (var_type v) eqn:Htype.
  - unfold create_variable in Hrun. rewrite Htype in Hrun. injection Hrun as <-.
    eapply variable_loop_inv_snoc_scalar; [by unfold scalar; rewrite Htype| |done].
    unfold created_for. by rewrite Htype.
  - unfold create_variable in Hrun. rewrite Htype in Hrun.
    destruct (var_min v) as [lo|] eqn:Hlo; [|done].
    destruct (var_max v) as [hi|] eqn:Hhi; [|done].
    injection Hrun as <-.
    eapply variable_loop_inv_snoc_scalar; [by unfold scalar; rewrite Htype| |done].
    unfold created_for. by rewrite Htype, Hlo, Hhi.
  - assert (¬ scalar v) as Hns by (unfold scalar; rewrite Htype; auto).
    apply create_variable_interval_Ok in Hrun
      as (s & e & m1 & start & m2 & end_ & presence & _ & _ & _ & H1 & H2 & _ & ->);
      [|done].
    apply NewConstant_frame in H1 as (Hp1 & _). apply NewConstant_frame in H2 as (Hp2 & _).
    eapply variable_loop_inv_snoc_interval; [done| |done].
    simpl. by etrans.
Qed.

Lemma variable_loop_keeps vs st :
  for_in create_variable (cp_model.new, ∅, ∅) vs = Ok st → variable_loop_inv vs st.
Proof.
  apply (for_in_invariant_prefix variable_loop_inv).
  - intros pre v s s' _. apply create_variable_inv.
  - split; [by rewrite dom_empty_L|]. intros n h Hn. by rewrite lookup_empty in Hn.
Qed.

(** ** The compiled request *)

Section compiled.
Context `{PyRuntime} `{cp_model.StatusCodes}.

(** The stages of [compile], one by one. *)
Lemma compile_stages request c :
  compile request = Ok c →
  ∃ m0 m1 index,
    _collect_bounds (variables request) = Ok (var_bounds c) ∧
    for_in create_variable (cp_model.new, ∅, ∅) (variables request)
      = Ok (m0, vars_map c, intervals_map c) ∧
    for_in (compile_constraint (vars_map c) (intervals_map c) (var_bounds c))
      (m0, [], [], 0%nat) (constraints request)
      = Ok (m1, penalty_terms c, tracked_constraints c, index) ∧
    _build_objective m1 (objective request) (vars_map c) (penalty_terms c)
      = Ok (model c, has_objective c).
Proof.
  unfold compile. intros Hrun.
  apply bind_Ok in Hrun as (bounds & Hbounds & Hrun).
  apply bind_Ok in Hrun as ([[m0 vm] im] & Hvars & Hrun).
  apply bind_Ok in Hrun as ([[[m1 pens] tracked] index] & Hcs & Hrun).
  apply bind_Ok in Hrun as ([m2 has] & Hobj & Hrun).
  injection Hrun as <-. simpl. by exists m0, m1, index.
Qed.

(** Every tracked constraint of a compiled request comes from a soft-linear
    constraint of the request, and the variables the constraint loop added
    to the model are slack variables. *)
Lemma compile_tracked request c :
  compile request = Ok c →
  ∃ m0,
    for_in create_variable (cp_model.new, ∅, ∅) (variables request)
      = Ok (m0, vars_map c, intervals_map c) ∧
    cp_model.variables m0 `prefix_of` cp_model.variables (model c) ∧
    (∀ i d, (length (cp_model.variables m0) ≤ i)%nat →
       cp_model.variables (model c) !! i = Some d → is_slack d) ∧
    Forall (tracked_from (constraints request) (var_bounds c) (vars_map c)
              (cp_model.variables (model c)) (length (cp_model.variables m0)))
      (tracked_constraints c).
Proof.
  intros Hc. destruct (compile_stages request c Hc)
    as (m0 & m1 & index & _ & Hvars & Hcs & Hobj).
  exists m0. split; [done|].
  apply constraint_loop_keeps in Hcs as (Hprefix & Hslack & Htracked).
  apply build_objective_variables in Hobj. by rewrite Hobj.
Qed.

(** ** Extraction *)

Lemma report_violation_step vars_map solver acc t :
  resolved vars_map (terms t) →
  report_violation vars_map solver acc t
  = Ok (acc ++ (violation_record vars_map solver <$> violated solver [t])).
Proof.
  intros Ht. unfold report_violation, violated. case_bool_decide as Hpos.
  - rewrite filter_cons_False by lia. by rewrite filter_nil, app_nil_r.
  - rewrite sum_values_ok by done. rewrite filter_cons_True by lia. done.
Qed.

Lemma report_violations_from vars_map solver tracked acc :
  Forall (fun t => resolved vars_map (terms t)) tracked →
  for_in (report_violation vars_map solver) acc tracked
  = Ok (acc ++ (violation_record vars_map solver <$> violated solver tracked)).
Proof.
  intros Htracked. revert acc.
  induction Htracked as [|t tracked Ht _ IH]; intros acc; cbn [for_in].
  - by rewrite app_nil_r.
  - rewrite report_violation_step by done. rewrite bind_Ok_l, IH.
    rewrite <- app_assoc, <- fmap_app. unfold violated. by rewrite <- filter_app.
Qed.

(** After a compilation that went through, extraction does not raise. *)
Lemma extract_success request c solver :
  compile request = Ok c → succeeded solver →
  ∃ stats, extract c solver = Ok (success_response c solver stats).
Proof.
  intros Hc Hsucc. destruct (compile_tracked request c Hc) as (m0 & _ & _ & _ & Htracked).
  unfold extract. rewrite bool_decide_false by (intros Hn; by apply Hn).
  rewrite (report_violations_from _ _ _ []).
  - simpl. eexists. unfold success_response, or_None. reflexivity.
  - eapply Forall_impl; [done|]. intros t (? & ? & ? & ? & Ht). by destruct_and!.
Qed.

Lemma solve_request_success request oracle c solver :
  compile request = Ok c →
  oracle (model c) (parameters request) = Ok solver →
  succeeded solver →
  ∃ stats, solve_request request oracle = success_response c solver stats.
Proof.
  intros Hc Ho Hsucc. destruct (extract_success request c solver Hc Hsucc) as [stats Hx].
  exists stats. unfold solve_request, solve_request_try. rewrite Hc. simpl.
  rewrite Ho. simpl. by rewrite Hx.
Qed.

Lemma solve_request_no_success request oracle c solver :
  compile request = Ok c →
  oracle (model c) (parameters request) = Ok solver →
  ¬ succeeded solver →
  solve_request request oracle =
    {| status := default ERROR (status_map !! cp_model.status solver);
       values := None; statistics := None; error := None;
       solutionInfo :=
         (if bool_decide (cp_model.solution_info solver = "") then None
          else Some (cp_model.solution_info solver));
       softViolations := None |}.
Proof.
  intros Hc Ho Hfail. unfold solve_request, solve_request_try. rewrite Hc. simpl.
  rewrite Ho. simpl. unfold extract. by rewrite bool_decide_true.
Qed.

Lemma solve_request_raised request oracle exc :
  solve_request_try request oracle = Raise exc →
  solve_request request oracle = error_response exc.
Proof. unfold solve_request. by intros ->. Qed.

End compiled.

(** ** Violation records *)

Section violations.
Context `{PyRuntime} `{cp_model.StatusCodes}.

(** Where a reported violation comes from: a successful solve, and a
    tracked constraint whose slack is positive in the returned assignment. *)
Lemma reported_violation_origin request oracle vs r :
  softViolations (solve_request request oracle) = Some vs → r ∈ vs →
  ∃ c solver t,
    compile request = Ok c ∧
    oracle (model c) (parameters request) = Ok solver ∧
    succeeded solver ∧
    t ∈ tracked_constraints c ∧
    0 < cp_model.value solver (violation_var t) ∧
    r = violation_record (vars_map c) solver t.
Proof.
  intros Hvs Hr.
  destruct (compile request) as [c|e] eqn:Hc.
  2: { unfold solve_request, solve_request_try in Hvs. by rewrite Hc in Hvs. }
  destruct (oracle (model c) (parameters request)) as [solver|e] eqn:Ho.
  2: { unfold solve_request, solve_request_try in Hvs. rewrite Hc in Hvs. simpl in Hvs.
       by rewrite Ho in Hvs. }
  destruct (decide (succeeded solver)) as [Hsucc|Hfail].
  2: { by rewrite (solve_request_no_success request oracle c solver) in Hvs. }
  destruct (solve_request_success request oracle c solver Hc Ho Hsucc) as [stats Heq].
  rewrite Heq in Hvs. simpl in Hvs.
  assert (vs = violation_record (vars_map c) solver
                 <$> violated solver (tracked_constraints c)) as ->.
  { unfold or_None in Hvs. destruct (_ <$> _); congruence. }
  apply list_elem_of_fmap in Hr as (t & -> & Ht).
  apply list_elem_of_filter in Ht as [Hpos Ht].
  by exists c, solver, t.
Qed.

End violations.

Section claims_on_violations.
Context `{PyRuntime} `{cp_model.StatusCodes}.


End claims_on_violations.


Section claims_on_tracking.
Context `{PyRuntime} `{cp_model.StatusCodes}.

(** C5. A soft-linear constraint whose static maximum violation is 0 adds
    no penalty term and is not tracked; otherwise the term
    [violation * penalty] is appended, and the constraint is tracked exactly
    when it carries an identifier. Whatever the oracle answers, every record
    of the violation list stems from a soft-linear constraint of the request
    that carries an identifier and whose static maximum violation is not 0. *)
Theorem zero_max_violation_neither_penalised_nor_reported :
  (∀ model constraint vars_map bounds penalty_terms tracked_constraints constraint_index
     ts op rhs penalty,
     truthy (c_terms constraint) = Some ts →
     c_op constraint = Some op → op ≠ op_eq →
     c_rhs constraint = Some rhs →
     c_penalty constraint = Some penalty →
     resolved bounds ts → resolved vars_map ts →
     let max_violation := max_violation_spec op rhs (expression_range_spec ts bounds) in
     let v := length (cp_model.variables model) in
     ∃ model' penalty_terms' tracked' slack,
       _add_soft_linear_constraint model constraint vars_map bounds penalty_terms
         tracked_constraints constraint_index = Ok (model', penalty_terms', tracked') ∧
       cp_model.variables model' = cp_model.variables model ++ [slack] ∧
       cp_model.domain_ub slack = max_violation ∧
       (max_violation = 0 →
          penalty_terms' = penalty_terms ∧ tracked' = tracked_constraints) ∧
       (max_violation ≠ 0 →
          penalty_terms' = penalty_terms ++ [cp_model.Mul (cp_model.Var v) penalty] ∧
          tracked' =
            tracked_constraints ++
              match c_id constraint with
              | Some _ =>
                  [ {| constraint_id :=
                         or_ (c_id constraint) ("soft_" +:+ pretty constraint_index);
                       violation_var := v; target_value := rhs; comparator := op;
                       terms := ts |} ]
              | None => []
              end))
  ∧
  (∀ request oracle vs r,
     softViolations (solve_request request oracle) = Some vs → r ∈ vs →
     ∃ constraint (index : nat) bounds ts op rhs,
       constraint ∈ constraints request ∧
       c_type constraint = soft_linear ∧
       is_Some (c_id constraint) ∧
       constraintId r = or_ (c_id constraint) ("soft_" +:+ pretty index) ∧
       truthy (c_terms constraint) = Some ts ∧
       c_op constraint = Some op ∧
       c_rhs constraint = Some rhs ∧
       _collect_bounds (variables request) = Ok bounds ∧
       max_violation_spec op rhs (expression_range_spec ts bounds) ≠ 0).
Proof.
  split.
  - intros model constraint vars_map bounds penalty_terms tracked_constraints
      constraint_index ts op rhs penalty Hts Hop Hne Hrhs Hpen Hb Hv max_violation v.
    destruct (add_soft_linear_constraint_ok model constraint vars_map bounds penalty_terms
      tracked_constraints constraint_index ts op rhs penalty Hts Hop Hne Hrhs Hpen Hb Hv)
      as (expr & _ & Hrun).
    do 4 eexists. split; [exact Hrun|]. fold max_violation v.
    pose proof (max_violation_spec_nonneg op rhs (expression_range_spec ts bounds)) as Hnn.
    fold max_violation in Hnn.
    unfold soft_penalty, soft_tracked. split_and!; try done.
    + intros Hzero. rewrite bool_decide_false by lia. by rewrite !app_nil_r.
    + intros Hpos. by rewrite bool_decide_true by lia.
  - intros request oracle vs r Hvs Hr.
    destruct (reported_violation_origin request oracle vs r Hvs Hr)
      as (c & solver & t & Hc & _ & _ & Ht & _ & ->).
    destruct (compile_stages request c Hc) as (_ & _ & _ & Hbounds & _).
    destruct (compile_tracked request c Hc) as (m0 & _ & _ & _ & Htracked).
    rewrite Forall_forall in Htracked.
    destruct (Htracked t Ht) as (constraint & index & penalty & d & Hin & Htype & Hsome & Hid
      & Hts & Hop & Hne & Hrhs & _ & _ & _ & _ & _ & _ & Hub & Hpos).
    exists constraint, index, (var_bounds c), (terms t), (comparator t), (target_value t).
    split_and!; try done. rewrite <- Hub. lia.
Qed.

(** C4, at a request whose soft constraint carries the empty string as
    identifier: the record names the constraint ["soft_0"], an identifier the
    caller did not supply. *)
Theorem empty_identifier_reported_as_soft_0 :
  c_id <$> constraints Demo.empty_id_request = [None; Some ""] ∧
  softViolations
    (solve_request (H := Demo.runtime) (H0 := Demo.codes)
       Demo.empty_id_request (Demo.answer 4 "" Demo.zero_then_one))
  = Some [ {| constraintId := "soft_0"; violationAmount := 1;
              targetValue := 1; actualValue := 0 |} ].
Proof. split; vm_compute; reflexivity. Qed.

End claims_on_tracking.

Lemma zero_max_violation_neither_penalised_nor_reported_witness :
  (∃ model' penalty_terms' tracked' slack,
     _add_soft_linear_constraint
       (cp_model.NewBoolVar cp_model.new "x").1
       (Demo.soft_c [ {| var := "x"; coeff := 1 |} ] op_le 1 7 (Some "cap"))
       {[ "x" := 0%nat ]} {[ "x" := {| lower := 0; upper := 1 |} ]} [] [] 0
     = Ok (model', penalty_terms', tracked') ∧
     cp_model.variables model' =
       cp_model.variables (cp_model.NewBoolVar cp_model.new "x").1 ++ [slack] ∧
     cp_model.domain_ub slack = 0 ∧
     penalty_terms' = [] ∧ tracked' = [])
  ∧
  (∃ constraint (index : nat) bounds ts op rhs,
     constraint ∈ constraints Demo.coverage_request ∧
     c_type constraint = soft_linear ∧
     is_Some (c_id constraint) ∧
     constraintId Demo.coverage_violation = or_ (c_id constraint) ("soft_" +:+ pretty index) ∧
     truthy (c_terms constraint) = Some ts ∧
     c_op constraint = Some op ∧
     c_rhs constraint = Some rhs ∧
     _collect_bounds (variables Demo.coverage_request) = Ok bounds ∧
     max_violation_spec op rhs (expression_range_spec ts bounds) ≠ 0).
Proof.
  destruct (zero_max_violation_neither_penalised_nor_reported
              (H := Demo.runtime) (H0 := Demo.codes)) as [Hhandler Hresponse].
  split.
  - destruct (Hhandler (cp_model.NewBoolVar cp_model.new "x").1
      (Demo.soft_c [ {| var := "x"; coeff := 1 |} ] op_le 1 7 (Some "cap"))
      {[ "x" := 0%nat ]} {[ "x" := {| lower := 0; upper := 1 |} ]} [] [] 0%nat
      [ {| var := "x"; coeff := 1 |} ] op_le 1 7)
      as (model' & penalty_terms' & tracked' & slack & Hrun & Hvars & Hub & Hzero & _).
    + reflexivity.
    + reflexivity.
    + discriminate.
    + reflexivity.
    + reflexivity.
    + repeat constructor; vm_compute; eexists; reflexivity.
    + repeat constructor; vm_compute; eexists; reflexivity.
    + exists model', penalty_terms', tracked', slack.
      destruct Hzero as [Hp Ht]; [vm_compute; reflexivity|].
      repeat split; assumption.
  - apply (Hresponse Demo.coverage_request (Demo.answer 4 "" Demo.zero_then_one)
      [Demo.coverage_violation] Demo.coverage_violation).
    + vm_compute. reflexivity.
    + apply list_elem_of_here.
Defined.

(** ** Status mapping and failures *)

Section claims_on_status.
Context `{PyRuntime} `{cp_model.StatusCodes}.


(** C9. An exception raised while compiling, by the oracle, or while
    extracting, gives the response with status ERROR and the message of the
    exception as error, and with no value map, no statistics, no diagnostic
    and no violation list. *)
Theorem exception_becomes_error_response request oracle exc :
  (compile request = Raise exc ∨
   ∃ c, compile request = Ok c ∧
     (oracle (model c) (parameters request) = Raise exc ∨
      ∃ solver, oracle (model c) (parameters request) = Ok solver ∧
        extract c solver = Raise exc)) →
  solve_request_try request oracle = Raise exc ∧
  solve_request request oracle =
    {| status := ERROR; values := None; statistics := None; error := Some (str exc);
       solutionInfo := None; softViolations := None |}.
Proof.
  intros Hraise.
  assert (solve_request_try request oracle = Raise exc) as Htry.
  { unfold solve_request_try.
    destruct Hraise as [->|(c & -> & [Ho|(solver & Ho & Hx)])]; simpl; [done|..].
    - by rewrite Ho.
    - by rewrite Ho. }
  split; [done|]. by rewrite (solve_request_raised request oracle exc).
Qed.

End claims_on_status.


Lemma exception_becomes_error_response_witness :
  solve_request_try (H := Demo.runtime) (H0 := Demo.codes)
    Demo.undeclared_request (Demo.answer 4 "" Demo.zero_then_one) = Raise (KeyError "y") ∧
  solve_request (H := Demo.runtime) (H0 := Demo.codes)
    Demo.undeclared_request (Demo.answer 4 "" Demo.zero_then_one)
  = {| status := ERROR; values := None; statistics := None; error := Some "'y'";
       solutionInfo := None; softViolations := None |}.
Proof.
  apply (exception_becomes_error_response (H := Demo.runtime) (H0 := Demo.codes)
    Demo.undeclared_request (Demo.answer 4 "" Demo.zero_then_one) (KeyError "y")).
  left. vm_compute. reflexivity.
Defined.

(** ** The objective *)

Lemma foldl_Plus_eval val e0 es :
  cp_model.eval val (foldl cp_model.Plus e0 es) = cp_model.eval val e0 + sum_eval val es.
Proof.
  revert e0. induction es as [|e es IH]; intros e0; simpl; [lia|].
  rewrite IH. simpl. lia.
Qed.

Lemma sum_expr_eval val es e :
  _sum_expr es = Some e → cp_model.eval val e = sum_eval val es.
Proof.
  destruct es as [|e0 es]; [done|]. intros [= <-]. by rewrite foldl_Plus_eval.
Qed.

Lemma sum_expr_None es : _sum_expr es = None ↔ es = [].
Proof. by destruct es. Qed.

Lemma term_exprs_ok vars_map ts :
  resolved vars_map ts →
  ∃ es, term_exprs vars_map ts = Ok es ∧ (es = [] ↔ ts = []) ∧
    ∀ val, sum_eval val es = lhs_value vars_map val ts.
Proof.
  induction 1 as [|t ts [h Hh] _ (es & Hes & _ & Heval)]; simpl.
  - by exists [].
  - unfold subscript. rewrite Hh. simpl. rewrite Hes. simpl.
    eexists. split; [done|]. split; [done|]. intros val. simpl. by rewrite Heval.
Qed.

(** C2, as amended. The objective is assembled from the user objective, which
    contributes an expression only when it has at least one term, and from
    the sum of the penalty terms. With both, the expression is
    [userExpr + penaltySum] under minimize and [userExpr - penaltySum] under
    maximize; with a user expression only, it is forwarded unchanged; with
    penalty terms and no user objective, [penaltySum] is minimized; with
    penalty terms and a user objective without terms, the sense of the user
    is kept, on [penaltySum] under minimize and on [-penaltySum] under
    maximize; with no penalty terms and a user objective that is absent or
    without terms, nothing is sent and the model is unchanged. *)
Theorem objective_assembly model objective vars_map penalty_terms :
  (∀ o, objective = Some o → resolved vars_map (obj_terms o)) →
  ∃ model' has_objective,
    _build_objective model objective vars_map penalty_terms = Ok (model', has_objective) ∧
    cp_model.variables model' = cp_model.variables model ∧
    cp_model.intervals model' = cp_model.intervals model ∧
    cp_model.constraints model' = cp_model.constraints model ∧
    (∀ penalty_sum val, _sum_expr penalty_terms = Some penalty_sum →
       cp_model.eval val penalty_sum = sum_eval val penalty_terms) ∧
    match objective, _sum_expr penalty_terms with
    | Some o, Some penalty_sum =>
        has_objective = true ∧
        match obj_terms o with
        | [] =>
            cp_model.objective model' =
              Some (sense o,
                    match sense o with
                    | minimize => penalty_sum
                    | maximize => cp_model.Neg penalty_sum
                    end)
        | _ :: _ =>
            ∃ user_expr,
              (∀ val, cp_model.eval val user_expr = lhs_value vars_map val (obj_terms o)) ∧
              cp_model.objective model' =
                Some (sense o,
                      match sense o with
                      | minimize => cp_model.Plus user_expr penalty_sum
                      | maximize => cp_model.Minus user_expr penalty_sum
                      end)
        end
    | Some o, None =>
        match obj_terms o with
        | [] => has_objective = false ∧ model' = model
        | _ :: _ =>
            has_objective = true ∧
            ∃ user_expr,
              (∀ val, cp_model.eval val user_expr = lhs_value vars_map val (obj_terms o)) ∧
              cp_model.objective model' = Some (sense o, user_expr)
        end
    | None, Some penalty_sum =>
        has_objective = true ∧ cp_model.objective model' = Some (minimize, penalty_sum)
    | None, None => has_objective = false ∧ model' = model
    end.
Proof.
  intros Hres. unfold _build_objective.
  assert (∀ penalty_sum val, _sum_expr penalty_terms = Some penalty_sum →
            cp_model.eval val penalty_sum = sum_eval val penalty_terms) as Hpen.
  { intros p val Hp. by apply sum_expr_eval. }
  destruct objective as [o|].
  - destruct (term_exprs_ok vars_map (obj_terms o) (Hres o eq_refl))
      as (es & Hes & Hnil & Heval).
    rewrite Hes. simpl.
    destruct (_sum_expr es) as [user_expr|] eqn:Huser.
    + assert (obj_terms o ≠ []) as Hne.
      { intros Hts. apply Hnil in Hts. subst es. done. }
      assert (∀ val, cp_model.eval val user_expr = lhs_value vars_map val (obj_terms o))
        as Huser_eval.
      { intros val. by rewrite (sum_expr_eval val es user_expr), Heval. }
      destruct (obj_terms o) as [|t ts] eqn:Hts; [done|].
      destruct (_sum_expr penalty_terms) as [penalty_sum|], (sense o);
        simpl; do 2 eexists; (split; [reflexivity|]); simpl; split_and!; try done;
        by eexists.
    + apply sum_expr_None in Huser. apply Hnil in Huser. rewrite Huser.
      destruct (_sum_expr penalty_terms) as [penalty_sum|], (sense o);
        simpl; do 2 eexists; (split; [reflexivity|]); simpl; by split_and!.
  - destruct (_sum_expr penalty_terms) as [penalty_sum|];
      simpl; do 2 eexists; (split; [reflexivity|]); simpl; by split_and!.
Qed.

Lemma objective_assembly_witness :
  ∃ model' has_objective,
    _build_objective cp_model.new
      (Some {| sense := maximize; obj_terms := [ {| var := "x"; coeff := 10 |} ] |})
      {[ "x" := 0%nat ]} [cp_model.Mul (cp_model.Var 1%nat) 15] = Ok (model', has_objective) ∧
    cp_model.variables model' = [] ∧
    cp_model.intervals model' = [] ∧
    cp_model.constraints model' = [] ∧
    (∀ penalty_sum val, Some (cp_model.Mul (cp_model.Var 1%nat) 15) = Some penalty_sum →
       cp_model.eval val penalty_sum = sum_eval val [cp_model.Mul (cp_model.Var 1%nat) 15]) ∧
    has_objective = true ∧
    ∃ user_expr,
      (∀ val, cp_model.eval val user_expr =
         lhs_value {[ "x" := 0%nat ]} val [ {| var := "x"; coeff := 10 |} ]) ∧
      cp_model.objective model' =
        Some (maximize, cp_model.Minus user_expr (cp_model.Mul (cp_model.Var 1%nat) 15)).
Proof.
  apply (objective_assembly cp_model.new
    (Some {| sense := maximize; obj_terms := [ {| var := "x"; coeff := 10 |} ] |})
    {[ "x" := 0%nat ]} [cp_model.Mul (cp_model.Var 1%nat) 15]).
  intros o Ho. injection Ho as <-.
  repeat constructor. vm_compute. eexists. reflexivity.
Defined.

(** C2 as stated fails at a user objective without terms: with no penalty
    terms the user objective exists and nothing is sent, and with a penalty
    term under maximize what is sent is not the minimization of the penalty
    sum. *)
Lemma objective_without_terms_counterexample :
  _build_objective cp_model.new (Some {| sense := minimize; obj_terms := [] |}) ∅ []
    = Ok (cp_model.new, false) ∧
  cp_model.objective cp_model.new = None ∧
  _build_objective cp_model.new (Some {| sense := maximize; obj_terms := [] |}) ∅
      [cp_model.Mul (cp_model.Var 0%nat) 5]
    = Ok (cp_model.Maximize cp_model.new
            (cp_model.Neg (cp_model.Mul (cp_model.Var 0%nat) 5)), true).
Proof. repeat split. Qed.

(** ** Bounds of the declared variables *)

Lemma bounds_inv_snoc_scalar pre bounds v b :
  scalar v → declared_bounds v b → bounds_inv pre bounds →
  bounds_inv (pre ++ [v]) (<[var_name v := b]> bounds).
Proof.
  intros Hscalar Hb [Hdom Hlook]. split.
  - rewrite dom_insert_L, Hdom, filter_app, fmap_app, list_to_set_app_L.
    rewrite filter_cons_True, filter_nil by done. simpl.
    rewrite (right_id_L ∅ (∪)). apply (comm_L (∪)).
  - intros n b' Hn. destruct (decide (var_name v = n)) as [<-|Hne].
    + rewrite lookup_insert_eq in Hn. injection Hn as <-.
      exists v. split_and!; try done. apply elem_of_app. right.
      by apply list_elem_of_singleton.
    + rewrite lookup_insert_ne in Hn by done.
      destruct (Hlook n b' Hn) as (v' & Hv' & Hname & Hdecl).
      exists v'. split_and!; try done. apply elem_of_app. by left.
Qed.

Lemma collect_bounds_keeps vs bounds :
  _collect_bounds vs = Ok bounds → bounds_inv vs bounds.
Proof.
  unfold _collect_bounds. apply (for_in_invariant_prefix bounds_inv).
  - intros pre v b b' _ Hinv Hstep. destruct (var_type v) eqn:Htype.
    + injection Hstep as <-. apply bounds_inv_snoc_scalar; [|  |done].
      * unfold scalar. by rewrite Htype.
      * unfold declared_bounds. by rewrite Htype.
    + destruct (var_min v) as [lo|] eqn:Hlo; [|done].
      destruct (var_max v) as [hi|] eqn:Hhi; [|done].
      injection Hstep as <-. apply bounds_inv_snoc_scalar; [|  |done].
      * unfold scalar. by rewrite Htype.
      * unfold declared_bounds. by rewrite Htype, Hlo, Hhi.
    + injection Hstep as <-. destruct Hinv as [Hdom Hlook]. split.
      * rewrite Hdom, filter_app, filter_cons_False, filter_nil.
        -- by rewrite app_nil_r.
        -- unfold scalar. rewrite Htype. auto.
      * intros n b' Hn. destruct (Hlook n b' Hn) as (v' & Hv' & Hname & Hdecl).
        exists v'. split_and!; try done. apply elem_of_app. by left.
  - split; [by rewrite dom_empty_L|]. intros n b Hn. by rewrite lookup_empty in Hn.
Qed.

Lemma collect_bounds_missing vs v :
  v ∈ vs → var_type v = type_int → var_min v = None ∨ var_max v = None →
  ∃ e, _collect_bounds vs = Raise e.
Proof.
  intros Hv Htype Hmissing. unfold _collect_bounds.
  apply (for_in_raises _ vs v Hv). intros bounds. rewrite Htype.
  destruct Hmissing as [-> | ->]; [by eexists|].
  destruct (var_min v); by eexists.
Qed.

Section compile_failures.
Context `{PyRuntime} `{cp_model.StatusCodes}.

Lemma compile_raises_on_bounds request e :
  _collect_bounds (variables request) = Raise e → compile request = Raise e.
Proof. unfold compile. by intros ->. Qed.

Lemma compile_raises_on_variable request v :
  v ∈ variables request → (∀ st, ∃ e, create_variable st v = Raise e) →
  ∃ e, compile request = Raise e.
Proof.
  intros Hv Hbad. unfold compile.
  destruct (_collect_bounds (variables request)) as [bounds|e]; [|by eexists].
  simpl. destruct (for_in_raises create_variable (variables request) v Hv Hbad
    (cp_model.new, ∅, ∅)) as [e ->]. by eexists.
Qed.

End compile_failures.

(** ** Interval variables *)

Lemma create_variable_inconsistent_interval st v s e sz :
  var_type v = type_interval →
  var_start v = Some s → var_end v = Some e → var_size v = Some sz →
  e - s ≠ sz →
  create_variable st v =
    Raise (ValueError
      ("Interval variable " +:+ var_name v +:+ " inconsistent: end-start="
       +:+ pretty (e - s) +:+ " != size=" +:+ pretty sz)).
Proof.
  intros Htype Hs He Hsz Hne. destruct st as [[m vars_map] intervals_map].
  unfold create_variable. rewrite Htype, Hs, He, Hsz. by rewrite bool_decide_true.
Qed.

Lemma variable_loop_names vs m vars_map intervals_map p :
  for_in create_variable (cp_model.new, ∅, ∅) vs = Ok (m, vars_map, intervals_map) →
  is_Some (vars_map !! p) ↔ ∃ u, u ∈ vs ∧ scalar u ∧ var_name u = p.
Proof.
  intros Hrun. apply variable_loop_keeps in Hrun as [Hdom _].
  rewrite <- elem_of_dom, Hdom, elem_of_list_to_set, list_elem_of_fmap.
  split.
  - intros (u & -> & Hu). apply list_elem_of_filter in Hu as [Hscalar Hu]. by exists u.
  - intros (u & Hu & Hscalar & <-). exists u. split; [done|].
    by apply list_elem_of_filter.
Qed.

(** ** The value map *)

Section claims_on_values.
Context `{PyRuntime} `{cp_model.StatusCodes}.


End claims_on_values.


(** ** The tests of the repository, run on the embedding

    The oracle is replaced by the answer the solving library gives in the
    test. *)

(** [test_linear_feasible_solution] *)
Example test_linear_feasible_solution :
  let response :=
    solve_request (H := Demo.runtime) (H0 := Demo.codes)
      (Demo.request [Demo.bool_var "x"]
         [Demo.linear_c [ {| var := "x"; coeff := 1 |} ] op_eq 1] None)
      (Demo.answer 4 "" (fun _ => 1)) in
  status response = OPTIMAL ∧ values response = Some {[ "x" := 1 ]}.
Proof. split; vm_compute; reflexivity. Qed.

(** [test_soft_constraint_reports_violation_when_id_provided] *)
Example test_soft_constraint_reports_violation_when_id_provided :
  let response :=
    solve_request (H := Demo.runtime) (H0 := Demo.codes)
      Demo.coverage_request (Demo.answer 4 "" Demo.zero_then_one) in
  status response = OPTIMAL ∧
  softViolations response =
    Some [ {| constraintId := "coverage:test:2024-02-01:540"; violationAmount := 1;
              targetValue := 1; actualValue := 0 |} ].
Proof. split; vm_compute; reflexivity. Qed.

(** [test_infeasible_solution_reports_solution_info] *)
Example test_infeasible_solution_reports_solution_info :
  let response :=
    solve_request (H := Demo.runtime) (H0 := Demo.codes)
      Demo.infeasible_request (Demo.answer 3 "infeasible" Demo.zero_then_one) in
  status response = INFEASIBLE ∧ solutionInfo response = Some "infeasible" ∧
  values response = None.
Proof. repeat split; vm_compute; reflexivity. Qed.

(** * Further properties of the compiler and the extractor *)

(** ** The static ranges bound the expressions *)

(** The range of a term bounds the term: for a value of the variable within
    its bounds, [coeff·value] lies within the range [_term_range] returns. *)
Theorem term_range_sound (term : Term) (b : _VariableBounds) (x : Z) :
  lower b <= x <= upper b →
  (_term_range term b).1 <= coeff term * x <= (_term_range term b).2.
Proof.
  intros Hx. unfold _term_range. case_bool_decide; simpl; nia.
Qed.

Lemma term_range_sound_witness :
  (_term_range {| var := "y"; coeff := -3 |} {| lower := -1; upper := 4 |}).1 <= -3 * 2
  <= (_term_range {| var := "y"; coeff := -3 |} {| lower := -1; upper := 4 |}).2.
Proof.
  apply (term_range_sound {| var := "y"; coeff := -3 |} {| lower := -1; upper := 4 |} 2).
  simpl. lia.
Defined.

Lemma expression_range_spec_sound ts bounds (x : string → Z) :
  resolved bounds ts →
  (∀ t b, t ∈ ts → bounds !! var t = Some b → lower b <= x (var t) <= upper b) →
  (expression_range_spec ts bounds).1 <= linear_value x ts
  <= (expression_range_spec ts bounds).2.
Proof.
  intros Hts. induction Hts as [|t ts [b Hb] _ IH]; intros Hx; simpl; [lia|].
  rewrite Hb. simpl.
  assert (lower b <= x (var t) <= upper b) as Ht
    by (apply Hx; [apply list_elem_of_here|done]).
  assert ((expression_range_spec ts bounds).1 <= linear_value x ts
          <= (expression_range_spec ts bounds).2) as Hrest.
  { apply IH. intros t' b' Ht'. apply Hx. by apply list_elem_of_further. }
  destruct (expression_range_spec ts bounds) as [lo hi]. simpl in Hrest.
  case_bool_decide; simpl; nia.
Qed.

(** The range of an expression bounds the expression: when
    [_expression_range] returns [(min_expr, max_expr)], every assignment that
    keeps the variables of the terms within their bounds gives [Σ coeff·var]
    a value between [min_expr] and [max_expr]. *)
Theorem expression_range_sound ts bounds min_expr max_expr (x : string → Z) :
  _expression_range ts bounds = Ok (min_expr, max_expr) →
  (∀ t b, t ∈ ts → bounds !! var t = Some b → lower b <= x (var t) <= upper b) →
  min_expr <= linear_value x ts <= max_expr.
Proof.
  intros Hrange Hx. pose proof (expression_range_resolved _ _ _ Hrange) as Hts.
  rewrite (expression_range_ok ts bounds Hts) in Hrange. injection Hrange as Hrange.
  pose proof (expression_range_spec_sound ts bounds x Hts Hx) as Hsound.
  rewrite Hrange in Hsound. done.
Qed.

Lemma expression_range_sound_witness :
  -12 <= linear_value (fun n => if bool_decide (n = "x") then 1 else 2)
           [ {| var := "x"; coeff := 2 |}; {| var := "y"; coeff := -3 |} ] <= 5.
Proof.
  apply (expression_range_sound
    [ {| var := "x"; coeff := 2 |}; {| var := "y"; coeff := -3 |} ]
    {[ "x" := {| lower := 0; upper := 1 |}; "y" := {| lower := -1; upper := 4 |} ]}
    (-12) 5 (fun n => if bool_decide (n = "x") then 1 else 2)).
  - vm_compute. reflexivity.
  - intros t b Ht Hb.
    apply elem_of_cons in Ht as [->|Ht]; [|apply list_elem_of_singleton in Ht as ->];
      vm_compute in Hb; injection Hb as <-; vm_compute; split; discriminate.
Defined.

Lemma size_union_alt_le (X Y : gset Z) : (size (X ∪ Y) ≤ size X + size Y)%nat.
Proof.
  rewrite size_union_alt. pose proof (subseteq_size (Y ∖ X) Y) as Hle.
  assert (Y ∖ X ⊆ Y) as Hsub by (intros x Hx; by apply elem_of_difference in Hx as [? _]).
  specialize (Hle Hsub). lia.
Qed.

Lemma for_in_app {A S} (body : S → A → Res S) s xs ys :
  for_in body s (xs ++ ys) = for_in body s xs ≫= fun s' => for_in body s' ys.
Proof.
  revert s. induction xs as [|x xs IH]; intros s; simpl; [done|].
  destruct (body s x) as [s1|e]; simpl; [apply IH|done].
Qed.

Lemma expression_range_raises_at pre t post bounds :
  resolved bounds pre → bounds !! var t = None →
  _expression_range (pre ++ t :: post) bounds
  = Raise (ValueError ("Unknown variable " +:+ var t)).
Proof.
  intros Hpre Ht. unfold _expression_range. rewrite for_in_app.
  rewrite (expression_range_from pre bounds 0 0 Hpre). simpl. by rewrite Ht.
Qed.

(** A term whose variable has no bounds makes [_expression_range] raise
    "Unknown variable", naming the first such variable of the list. *)
Theorem expression_range_unknown_variable pre t post bounds :
  resolved bounds pre → bounds !! var t = None →
  _expression_range (pre ++ t :: post) bounds
  = Raise (ValueError ("Unknown variable " +:+ var t)).
Proof. apply expression_range_raises_at. Qed.

Lemma expression_range_unknown_variable_witness :
  _expression_range
    ([ {| var := "x"; coeff := 2 |} ] ++ {| var := "shift"; coeff := 1 |}
       :: [ {| var := "gone"; coeff := 1 |} ])
    {[ "x" := {| lower := 0; upper := 1 |} ]}
  = Raise (ValueError "Unknown variable shift").
Proof.
  apply (expression_range_unknown_variable [ {| var := "x"; coeff := 2 |} ]
    {| var := "shift"; coeff := 1 |} [ {| var := "gone"; coeff := 1 |} ]
    {[ "x" := {| lower := 0; upper := 1 |} ]}).
  - repeat constructor. vm_compute. eexists. reflexivity.
  - vm_compute. reflexivity.
Defined.

(** ** Soft-linear constraints can always be met *)

Lemma lhs_value_named vars_map val ts :
  lhs_value vars_map val ts = linear_value (named_value vars_map val) ts.
Proof.
  induction ts as [|t ts IH]; simpl; [done|]. rewrite IH. unfold named_value. lia.
Qed.

Lemma lhs_value_assign vars_map val v s ts :
  (∀ n h, vars_map !! n = Some h → h ≠ v) →
  lhs_value vars_map (assign v s val) ts = lhs_value vars_map val ts.
Proof.
  intros Hfresh. induction ts as [|t ts IH]; simpl; [done|]. rewrite IH. f_equal.
  destruct (vars_map !! var t) as [h|] eqn:Hh; simpl; [|done].
  unfold assign. rewrite decide_False; [done|]. by eapply Hfresh.
Qed.

Lemma in_bounds_named (vars_map : gmap string cp_model.IntVar)
    (bounds : gmap string _VariableBounds) (val : cp_model.IntVar → Z) ts :
  resolved vars_map ts →
  (∀ n h b, vars_map !! n = Some h → bounds !! n = Some b → lower b <= val h <= upper b) →
  ∀ t b, t ∈ ts → bounds !! var t = Some b →
    lower b <= named_value vars_map val (var t) <= upper b.
Proof.
  intros Hts Hval t b Ht Hb. unfold resolved in Hts. rewrite Forall_forall in Hts.
  destruct (Hts t Ht) as [h Hh]. unfold named_value. rewrite Hh. simpl. by eapply Hval.
Qed.

(** A soft-linear constraint never rules out an assignment of the declared
    variables: when the handler returns and the variables take values within
    their bounds, the slack variable has a value within its domain for which
    the asserted constraint holds. *)
Theorem soft_constraint_met_within_slack
    model constraint vars_map bounds penalty_terms tracked_constraints constraint_index
    model' penalty_terms' tracked' (val : cp_model.IntVar → Z) :
  _add_soft_linear_constraint model constraint vars_map bounds penalty_terms
    tracked_constraints constraint_index = Ok (model', penalty_terms', tracked') →
  (∀ n h, vars_map !! n = Some h → (h < length (cp_model.variables model))%nat) →
  (∀ n h b, vars_map !! n = Some h → bounds !! n = Some b → lower b <= val h <= upper b) →
  ∃ slack asserted s,
    cp_model.variables model' = cp_model.variables model ++ [slack] ∧
    cp_model.constraints model' = cp_model.constraints model ++ [cp_model.Linear asserted] ∧
    cp_model.domain_lb slack <= s <= cp_model.domain_ub slack ∧
    cp_model.holds (assign (length (cp_model.variables model)) s val) asserted.
Proof.
  intros Hrun Hhandles Hval.
  destruct (add_soft_linear_constraint_inv _ _ _ _ _ _ _ _ Hrun)
    as (ts & op & rhs & penalty & Hts & Hop & Hne & Hrhs & Hpen & Hb & Hv).
  destruct (add_soft_linear_constraint_ok model constraint vars_map bounds penalty_terms
    tracked_constraints constraint_index ts op rhs penalty Hts Hop Hne Hrhs Hpen Hb Hv)
    as (expr & Hexpr & Hok).
  simpl in Hok. rewrite Hok in Hrun. injection Hrun as <- <- <-.
  destruct (sum_terms_ok vars_map ts Hv) as (expr' & Hexpr' & Heval).
  assert (expr' = expr) as -> by congruence.
  pose proof (expression_range_spec_sound ts bounds (named_value vars_map val) Hb
    (in_bounds_named vars_map bounds val ts Hv Hval)) as Hsound.
  rewrite <- lhs_value_named in Hsound.
  set (v := length (cp_model.variables model)).
  assert (∀ s, lhs_value vars_map (assign v s val) ts = lhs_value vars_map val ts) as Hsame.
  { intros s. apply lhs_value_assign. intros n h Hh. apply Hhandles in Hh. unfold v. lia. }
  assert (∀ s, assign v s val v = s) as Hv_s.
  { intros s. unfold assign. by rewrite decide_True. }
  destruct (expression_range_spec ts bounds) as [min_expr max_expr]. simpl in Hsound.
  unfold with_slack. simpl. fold v.
  destruct op; [| |done]; simpl.
  - do 2 eexists. exists (Z.max 0 (lhs_value vars_map val ts - rhs)).
    split_and!; try done; simpl; try lia. rewrite Heval, Hsame, Hv_s. lia.
  - do 2 eexists. exists (Z.max 0 (rhs - lhs_value vars_map val ts)).
    split_and!; try done; simpl; try lia. rewrite Heval, Hsame, Hv_s. lia.
Qed.

Lemma soft_constraint_met_within_slack_witness :
  ∃ slack asserted s,
    cp_model.variables (model Demo.coverage_compiled)
      = cp_model.variables (cp_model.NewBoolVar cp_model.new "x").1 ++ [slack] ∧
    [ cp_model.Linear
        (cp_model.Ge (cp_model.Plus Demo.x_times_1 (cp_model.Var 1%nat)) (cp_model.Const 1)) ]
      = [cp_model.Linear asserted] ∧
    cp_model.domain_lb slack <= s <= cp_model.domain_ub slack ∧
    cp_model.holds (assign 1%nat s (fun _ => 0)) asserted.
Proof.
  apply (soft_constraint_met_within_slack
    (cp_model.NewBoolVar cp_model.new "x").1
    (Demo.soft_c [ {| var := "x"; coeff := 1 |} ] op_ge 1 5 (Some "coverage:test:2024-02-01:540"))
    {[ "x" := 0%nat ]} {[ "x" := {| lower := 0; upper := 1 |} ]} [] [] 0%nat
    (cp_model.add_constraint
       {| cp_model.variables := cp_model.variables (model Demo.coverage_compiled);
          cp_model.intervals := []; cp_model.constraints := [];
          cp_model.objective := None;
          cp_model.constant_map := ∅ |}
       (cp_model.Linear
          (cp_model.Ge (cp_model.Plus Demo.x_times_1 (cp_model.Var 1%nat))
             (cp_model.Const 1))))
    [cp_model.Mul (cp_model.Var 1%nat) 5]
    (tracked_constraints Demo.coverage_compiled) (fun _ => 0)).
  - vm_compute. reflexivity.
  - intros n h Hh. destruct (decide (n = "x")) as [->|Hne].
    + vm_compute in Hh. injection Hh as <-. simpl. lia.
    + rewrite lookup_singleton_ne in Hh by done. discriminate Hh.
  - intros n h b Hh Hb. destruct (decide (n = "x")) as [->|Hne].
    + vm_compute in Hb. injection Hb as <-. simpl. lia.
    + rewrite lookup_singleton_ne in Hh by done. discriminate Hh.
Defined.

(** When the slack variable of a soft-linear constraint gets the domain
    [0, 0], the constraint cannot be violated: every assignment that keeps
    the variables within their bounds satisfies the inequality as it
    stands. *)
Theorem zero_slack_constraint_holds
    model constraint vars_map bounds penalty_terms tracked_constraints constraint_index
    model' penalty_terms' tracked' slack ts op rhs (val : cp_model.IntVar → Z) :
  _add_soft_linear_constraint model constraint vars_map bounds penalty_terms
    tracked_constraints constraint_index = Ok (model', penalty_terms', tracked') →
  c_terms constraint = Some ts → c_op constraint = Some op → c_rhs constraint = Some rhs →
  cp_model.variables model' = cp_model.variables model ++ [slack] →
  cp_model.domain_ub slack = 0 →
  (∀ n h b, vars_map !! n = Some h → bounds !! n = Some b → lower b <= val h <= upper b) →
  match op with
  | op_le => lhs_value vars_map val ts <= rhs
  | op_ge => lhs_value vars_map val ts >= rhs
  | op_eq => False
  end.
Proof.
  intros Hrun Hts Hop Hrhs Hvars Hub Hval.
  destruct (add_soft_linear_constraint_inv _ _ _ _ _ _ _ _ Hrun)
    as (ts' & op' & rhs' & penalty & Hts' & Hop' & Hne & Hrhs' & Hpen & Hb & Hv).
  assert (op' = op) as -> by congruence. assert (rhs' = rhs) as -> by congruence.
  assert (ts' = ts) as ->.
  { rewrite Hts in Hts'. destruct ts; simpl in Hts'; congruence. }
  destruct (add_soft_linear_constraint_ok model constraint vars_map bounds penalty_terms
    tracked_constraints constraint_index ts op rhs penalty Hts' Hop Hne Hrhs Hpen Hb Hv)
    as (expr & _ & Hok).
  simpl in Hok. rewrite Hok in Hrun. injection Hrun as <- <- <-.
  unfold with_slack in Hvars. simpl in Hvars. apply app_inv_head in Hvars.
  injection Hvars as <-. simpl in Hub.
  pose proof (expression_range_spec_sound ts bounds (named_value vars_map val) Hb
    (in_bounds_named vars_map bounds val ts Hv Hval)) as Hsound.
  rewrite <- lhs_value_named in Hsound.
  destruct (expression_range_spec ts bounds) as [min_expr max_expr].
  destruct op; simpl in *; [lia..|done].
Qed.

Lemma zero_slack_constraint_holds_witness :
  lhs_value {[ "x" := 0%nat ]} (fun _ => 1) [ {| var := "x"; coeff := 1 |} ] <= 1.
Proof.
  apply (zero_slack_constraint_holds
    (cp_model.NewBoolVar cp_model.new "x").1
    (Demo.soft_c [ {| var := "x"; coeff := 1 |} ] op_le 1 7 (Some "cap"))
    {[ "x" := 0%nat ]} {[ "x" := {| lower := 0; upper := 1 |} ]} [] [] 0%nat
    (with_slack (cp_model.NewBoolVar cp_model.new "x").1 "violation_cap" 0 op_le
       Demo.x_times_1 1)
    [] []
    {| cp_model.domain_lb := 0; cp_model.domain_ub := 0; cp_model.name := "violation_cap" |}
    [ {| var := "x"; coeff := 1 |} ] op_le 1 (fun _ => 1)).
  - vm_compute. reflexivity.
  - reflexivity.
  - reflexivity.
  - reflexivity.
  - reflexivity.
  - reflexivity.
  - intros n h b Hh Hb. destruct (decide (n = "x")) as [->|Hne].
    + vm_compute in Hb. injection Hb as <-. simpl. lia.
    + rewrite lookup_singleton_ne in Hh by done. discriminate Hh.
Defined.

(** The failures of the soft-linear handler: a missing or empty term list or
    a missing op, rhs or penalty raises the error that lists the four
    fields; with the fields present, a term whose variable has no bounds
    raises "Unknown variable"; with the variables known, the comparator [==]
    raises "Unsupported soft linear operator ==". *)
Theorem soft_linear_failures
    model constraint vars_map bounds penalty_terms tracked_constraints constraint_index :
  (truthy (c_terms constraint) = None ∨ c_op constraint = None ∨
   c_rhs constraint = None ∨ c_penalty constraint = None →
   _add_soft_linear_constraint model constraint vars_map bounds penalty_terms
     tracked_constraints constraint_index
   = Raise (ValueError "Soft linear constraint requires terms, op, rhs, and penalty"))
  ∧
  (∀ pre t post op rhs penalty,
     c_terms constraint = Some (pre ++ t :: post) → c_op constraint = Some op →
     c_rhs constraint = Some rhs → c_penalty constraint = Some penalty →
     resolved bounds pre → bounds !! var t = None →
     _add_soft_linear_constraint model constraint vars_map bounds penalty_terms
       tracked_constraints constraint_index
     = Raise (ValueError ("Unknown variable " +:+ var t)))
  ∧
  (∀ ts rhs penalty,
     truthy (c_terms constraint) = Some ts → c_op constraint = Some op_eq →
     c_rhs constraint = Some rhs → c_penalty constraint = Some penalty →
     resolved bounds ts → resolved vars_map ts →
     _add_soft_linear_constraint model constraint vars_map bounds penalty_terms
       tracked_constraints constraint_index
     = Raise (ValueError "Unsupported soft linear operator ==")).
Proof.
  unfold _add_soft_linear_constraint. split_and!.
  - intros Hmissing. destruct (truthy (c_terms constraint)); [|done].
    destruct (c_op constraint); [|done]. destruct (c_rhs constraint); [|done].
    destruct (c_penalty constraint); [|done]. by destruct Hmissing as [?|[?|[?|?]]].
  - intros pre t post op rhs penalty Hts Hop Hrhs Hpen Hpre Ht.
    assert (truthy (c_terms constraint) = Some (pre ++ t :: post)) as ->.
    { rewrite Hts. by destruct pre. }
    rewrite Hop, Hrhs, Hpen.
    by rewrite (expression_range_raises_at pre t post bounds Hpre Ht).
  - intros ts rhs penalty Hts Hop Hrhs Hpen Hb Hv. rewrite Hts, Hop, Hrhs, Hpen.
    rewrite (expression_range_ok ts bounds Hb).
    destruct (sum_terms_ok vars_map ts Hv) as (expr & -> & _).
    by destruct (expression_range_spec ts bounds).
Qed.

Lemma soft_linear_failures_witness :
  _add_soft_linear_constraint cp_model.new
    (Demo.linear_c [ {| var := "x"; coeff := 1 |} ] op_le 1) ∅ ∅ [] [] 0
    = Raise (ValueError "Soft linear constraint requires terms, op, rhs, and penalty")
  ∧
  _add_soft_linear_constraint cp_model.new
    (Demo.soft_c ([] ++ {| var := "shift"; coeff := 1 |} :: []) op_le 1 7 None) ∅ ∅ [] [] 0
    = Raise (ValueError "Unknown variable shift")
  ∧
  _add_soft_linear_constraint (cp_model.NewBoolVar cp_model.new "x").1
    (Demo.soft_c [ {| var := "x"; coeff := 1 |} ] op_eq 1 7 None)
    {[ "x" := 0%nat ]} {[ "x" := {| lower := 0; upper := 1 |} ]} [] [] 0
    = Raise (ValueError "Unsupported soft linear operator ==").
Proof.
  split_and!.
  - apply (proj1 (soft_linear_failures cp_model.new
      (Demo.linear_c [ {| var := "x"; coeff := 1 |} ] op_le 1) ∅ ∅ [] [] 0%nat)).
    right. right. right. reflexivity.
  - apply (proj1 (proj2 (soft_linear_failures cp_model.new
      (Demo.soft_c ([] ++ {| var := "shift"; coeff := 1 |} :: []) op_le 1 7 None)
      ∅ ∅ [] [] 0%nat)) [] {| var := "shift"; coeff := 1 |} [] op_le 1 7);
      try reflexivity. constructor.
  - apply (proj2 (proj2 (soft_linear_failures (cp_model.NewBoolVar cp_model.new "x").1
      (Demo.soft_c [ {| var := "x"; coeff := 1 |} ] op_eq 1 7 None)
      {[ "x" := 0%nat ]} {[ "x" := {| lower := 0; upper := 1 |} ]} [] [] 0%nat))
      [ {| var := "x"; coeff := 1 |} ] 1 7); try reflexivity;
      repeat constructor; vm_compute; eexists; reflexivity.
Defined.

(** ** Hard constraints *)

Lemma sum_terms_raises_at vars_map pre t post :
  resolved vars_map pre → vars_map !! var t = None →
  sum_terms vars_map (pre ++ t :: post) = Raise (KeyError (var t)).
Proof.
  intros Hpre Ht. unfold sum_terms. rewrite for_in_app.
  destruct (sum_terms_from vars_map pre (cp_model.Const 0) Hpre) as (expr & -> & _).
  simpl. unfold subscript. by rewrite Ht.
Qed.

Lemma subscripts_ok {V} (d : gmap string V) ks :
  present d ks →
  ∃ vs, subscripts d ks = Ok vs ∧ Forall2 (fun k v => d !! k = Some v) ks vs.
Proof.
  induction 1 as [|k ks [v Hk] _ (vs & Hvs & Hall)]; simpl.
  - exists []. by split.
  - unfold subscript. rewrite Hk. simpl. rewrite Hvs. simpl.
    exists (v :: vs). split; [done|]. by constructor.
Qed.

Lemma subscripts_inv {V} (d : gmap string V) ks vs :
  subscripts d ks = Ok vs → Forall2 (fun k v => d !! k = Some v) ks vs.
Proof.
  revert vs. induction ks as [|k ks IH]; intros vs Hrun; simpl in Hrun.
  - injection Hrun as <-. constructor.
  - apply bind_Ok in Hrun as (v & Hv & Hrun). apply bind_Ok in Hrun as (vs' & Hvs & Hrun).
    injection Hrun as <-. constructor; [|by apply IH].
    unfold subscript in Hv. destruct (d !! k); by inv_res.
Qed.

Lemma subscripts_raises_at {V} (d : gmap string V) pre k post :
  present d pre → d !! k = None →
  subscripts d (pre ++ k :: post) = Raise (KeyError k).
Proof.
  induction 1 as [|k' pre [v Hk'] _ IH]; intros Hk; simpl.
  - unfold subscript. by rewrite Hk.
  - unfold subscript at 1. rewrite Hk'. simpl. by rewrite IH.
Qed.

(** A linear constraint with its fields present and its variables known adds
    exactly one constraint to the model and touches nothing else; the
    constraint holds under an assignment exactly when [Σ coeff·var] stands in
    the relation [op] to [rhs]. *)
Theorem linear_constraint_added model constraint vars_map ts op rhs :
  truthy (c_terms constraint) = Some ts →
  c_op constraint = Some op → c_rhs constraint = Some rhs →
  resolved vars_map ts →
  ∃ asserted,
    _add_linear_constraint model constraint vars_map
      = Ok {| cp_model.variables := cp_model.variables model;
              cp_model.intervals := cp_model.intervals model;
              cp_model.constraints :=
                cp_model.constraints model ++ [cp_model.Linear asserted];
              cp_model.objective := cp_model.objective model;
              cp_model.constant_map := cp_model.constant_map model |} ∧
    ∀ val, cp_model.holds val asserted ↔
      match op with
      | op_le => lhs_value vars_map val ts <= rhs
      | op_ge => lhs_value vars_map val ts >= rhs
      | op_eq => lhs_value vars_map val ts = rhs
      end.
Proof.
  intros Hts Hop Hrhs Hv. unfold _add_linear_constraint. rewrite Hts, Hop, Hrhs.
  destruct (sum_terms_ok vars_map ts Hv) as (expr & -> & Heval). simpl.
  destruct op; eexists; (split; [reflexivity|]); intros val; simpl; by rewrite Heval.
Qed.

Lemma linear_constraint_added_witness :
  ∃ asserted,
    _add_linear_constraint (cp_model.NewBoolVar cp_model.new "x").1
      (Demo.linear_c [ {| var := "x"; coeff := 1 |} ] op_eq 1) {[ "x" := 0%nat ]}
      = Ok {| cp_model.variables :=
                cp_model.variables (cp_model.NewBoolVar cp_model.new "x").1;
              cp_model.intervals := [];
              cp_model.constraints := [] ++ [cp_model.Linear asserted];
              cp_model.objective := None;
              cp_model.constant_map := ∅ |} ∧
    ∀ val, cp_model.holds val asserted ↔
      lhs_value {[ "x" := 0%nat ]} val [ {| var := "x"; coeff := 1 |} ] = 1.
Proof.
  apply (linear_constraint_added (cp_model.NewBoolVar cp_model.new "x").1
    (Demo.linear_c [ {| var := "x"; coeff := 1 |} ] op_eq 1) {[ "x" := 0%nat ]}
    [ {| var := "x"; coeff := 1 |} ] op_eq 1); try reflexivity.
  repeat constructor. vm_compute. eexists. reflexivity.
Defined.

(** The failures of the linear handler: a missing or empty term list or a
    missing op or rhs raises the error that lists the three fields; with the
    fields present, the first term whose variable has no handle (an
    undeclared name, or the name of an interval) raises [KeyError] with that
    name. The model is not handed on in either case. *)
Theorem linear_constraint_failures model constraint vars_map :
  (truthy (c_terms constraint) = None ∨ c_op constraint = None ∨ c_rhs constraint = None →
   _add_linear_constraint model constraint vars_map
   = Raise (ValueError "Linear constraint requires terms, op, and rhs"))
  ∧
  (∀ pre t post op rhs,
     c_terms constraint = Some (pre ++ t :: post) → c_op constraint = Some op →
     c_rhs constraint = Some rhs →
     resolved vars_map pre → vars_map !! var t = None →
     _add_linear_constraint model constraint vars_map = Raise (KeyError (var t))).
Proof.
  unfold _add_linear_constraint. split.
  - intros Hmissing. destruct (truthy (c_terms constraint)); [|done].
    destruct (c_op constraint); [|done]. destruct (c_rhs constraint); [|done].
    by destruct Hmissing as [?|[?|?]].
  - intros pre t post op rhs Hts Hop Hrhs Hpre Ht.
    assert (truthy (c_terms constraint) = Some (pre ++ t :: post)) as ->.
    { rewrite Hts. by destruct pre. }
    rewrite Hop, Hrhs. by rewrite (sum_terms_raises_at vars_map pre t post Hpre Ht).
Qed.

Lemma linear_constraint_failures_witness :
  _add_linear_constraint cp_model.new
    (Demo.soft_c [] op_le 1 7 None) ∅
    = Raise (ValueError "Linear constraint requires terms, op, and rhs")
  ∧
  _add_linear_constraint (cp_model.NewBoolVar cp_model.new "x").1
    (Demo.linear_c ([ {| var := "x"; coeff := 1 |} ] ++ {| var := "y"; coeff := 1 |} :: [])
       op_le 1) {[ "x" := 0%nat ]}
    = Raise (KeyError "y").
Proof.
  split.
  - apply (proj1 (linear_constraint_failures cp_model.new (Demo.soft_c [] op_le 1 7 None) ∅)).
    left. reflexivity.
  - apply (proj2 (linear_constraint_failures (cp_model.NewBoolVar cp_model.new "x").1
      (Demo.linear_c ([ {| var := "x"; coeff := 1 |} ] ++ {| var := "y"; coeff := 1 |} :: [])
         op_le 1) {[ "x" := 0%nat ]})
      [ {| var := "x"; coeff := 1 |} ] {| var := "y"; coeff := 1 |} [] op_le 1);
      try reflexivity.
    repeat constructor. vm_compute. eexists. reflexivity.
Defined.

Lemma check_literals_raises_at m pre x post d :
  Forall (literal_of m) pre →
  cp_model.variables m !! x = Some d → ¬ cp_model.is_boolean d →
  cp_model.check_literals m (pre ++ x :: post) = Raise (InvalidLiteral (cp_model.name d)).
Proof.
  intros Hpre Hx Hd. induction Hpre as [|y pre Hy Hpre IH]; simpl.
  - unfold cp_model.check_literal. rewrite Hx. by rewrite decide_False.
  - apply check_literal_Ok in Hy. by rewrite Hy.
Qed.

Lemma subscripts_app {V} (d : gmap string V) ks1 ks2 vs1 vs2 :
  subscripts d ks1 = Ok vs1 → subscripts d ks2 = Ok vs2 →
  subscripts d (ks1 ++ ks2) = Ok (vs1 ++ vs2).
Proof.
  revert vs1. induction ks1 as [|k ks1 IH]; intros vs1 H1 H2; simpl in *.
  - by injection H1 as <-.
  - apply bind_Ok in H1 as (v & Hv & H1). apply bind_Ok in H1 as (vs & Hvs & H1).
    injection H1 as <-. rewrite Hv. simpl. by rewrite (IH vs Hvs H2).
Qed.

(** The four handlers of boolean lists ([exactly_one], [at_most_one],
    [bool_or], [bool_and]) on a non-empty list of known names. When the
    variable behind every name has a domain within [0, 1], each adds exactly
    one constraint of its kind, whose literals are the handles of the names,
    in the order of the names. When all names are known and the variable
    behind one of them has another domain, the library refuses the first
    such variable and the handler raises what the library raised. *)
Theorem boolean_list_constraints_added model constraint vars_map names :
  truthy (c_vars constraint) = Some names →
  (Forall (fun n => ∃ h, vars_map !! n = Some h ∧ literal_of model h) names →
   ∃ literals,
     Forall2 (fun n h => vars_map !! n = Some h) names literals ∧
     _add_exactly_one model constraint vars_map
       = Ok (cp_model.add_constraint model (cp_model.ExactlyOne literals)) ∧
     _add_at_most_one model constraint vars_map
       = Ok (cp_model.add_constraint model (cp_model.AtMostOne literals)) ∧
     _add_bool_or model constraint vars_map
       = Ok (cp_model.add_constraint model (cp_model.BoolOr literals)) ∧
     _add_bool_and model constraint vars_map
       = Ok (cp_model.add_constraint model (cp_model.BoolAnd literals)))
  ∧
  (∀ pre n post h d,
     names = pre ++ n :: post →
     Forall (fun n => ∃ h, vars_map !! n = Some h ∧ literal_of model h) pre →
     vars_map !! n = Some h → cp_model.variables model !! h = Some d →
     ¬ cp_model.is_boolean d →
     present vars_map post →
     _add_exactly_one model constraint vars_map = Raise (InvalidLiteral (cp_model.name d)) ∧
     _add_at_most_one model constraint vars_map = Raise (InvalidLiteral (cp_model.name d)) ∧
     _add_bool_or model constraint vars_map = Raise (InvalidLiteral (cp_model.name d)) ∧
     _add_bool_and model constraint vars_map = Raise (InvalidLiteral (cp_model.name d))).
Proof.
  intros Hnames. split.
  - intros Hall.
    assert (present vars_map names) as Hpresent.
    { eapply Forall_impl; [done|]. intros n (h & Hn & _). by exists h. }
    destruct (subscripts_ok vars_map names Hpresent) as (ls & Hls & Hall2).
    assert (Forall (literal_of model) ls) as Hlits.
    { clear Hls Hnames Hpresent. induction Hall2 as [|n h names ls Hn _ IH]; [by constructor|].
      apply Forall_cons in Hall as [(h' & Hn' & Hlit) Hall]. constructor; [|by apply IH].
      congruence. }
    apply check_literals_Ok in Hlits.
    exists ls. split; [done|].
    unfold _add_exactly_one, _add_at_most_one, _add_bool_or, _add_bool_and.
    rewrite Hnames, Hls. simpl.
    unfold cp_model.AddExactlyOne, cp_model.AddAtMostOne, cp_model.AddBoolOr,
      cp_model.AddBoolAnd. by rewrite Hlits.
  - intros pre n post h d -> Hpre Hn Hd Hbad Hpost.
    assert (present vars_map pre) as Hpresent.
    { eapply Forall_impl; [done|]. intros k (h' & Hk & _). by exists h'. }
    destruct (subscripts_ok vars_map pre Hpresent) as (ls1 & Hls1 & Hall1).
    destruct (subscripts_ok vars_map post Hpost) as (ls2 & Hls2 & _).
    assert (Forall (literal_of model) ls1) as Hlits.
    { clear Hls1 Hnames Hpresent. induction Hall1 as [|k h' pre ls1 Hk _ IH]; [by constructor|].
      apply Forall_cons in Hpre as [(h'' & Hk' & Hlit) Hpre]. constructor; [|by apply IH].
      congruence. }
    assert (subscripts vars_map (pre ++ n :: post) = Ok (ls1 ++ h :: ls2)) as Hls.
    { apply subscripts_app; [done|]. simpl. unfold subscript at 1. rewrite Hn. simpl.
      by rewrite Hls2. }
    pose proof (check_literals_raises_at model ls1 h ls2 d Hlits Hd Hbad) as Hcheck.
    unfold _add_exactly_one, _add_at_most_one, _add_bool_or, _add_bool_and.
    rewrite Hnames, Hls. simpl.
    unfold cp_model.AddExactlyOne, cp_model.AddAtMostOne, cp_model.AddBoolOr,
      cp_model.AddBoolAnd. by rewrite Hcheck.
Qed.

Lemma boolean_list_constraints_added_witness :
  (∃ literals,
    Forall2 (fun n h => ({[ "a" := 0%nat; "b" := 1%nat ]} : gmap string nat) !! n = Some h)
      ["b"; "a"] literals ∧
    _add_exactly_one (cp_model.NewBoolVar (cp_model.NewBoolVar cp_model.new "a").1 "b").1
      {| c_type := exactly_one; c_terms := None; c_op := None; c_rhs := None;
         c_penalty := None; c_vars := Some ["b"; "a"]; c_intervals := None;
         c_if := None; c_then := None; c_id := None |}
      {[ "a" := 0%nat; "b" := 1%nat ]}
      = Ok (cp_model.add_constraint (cp_model.NewBoolVar (cp_model.NewBoolVar cp_model.new "a").1 "b").1
              (cp_model.ExactlyOne literals)) ∧
    _add_at_most_one (cp_model.NewBoolVar (cp_model.NewBoolVar cp_model.new "a").1 "b").1
      {| c_type := exactly_one; c_terms := None; c_op := None; c_rhs := None;
         c_penalty := None; c_vars := Some ["b"; "a"]; c_intervals := None;
         c_if := None; c_then := None; c_id := None |}
      {[ "a" := 0%nat; "b" := 1%nat ]}
      = Ok (cp_model.add_constraint (cp_model.NewBoolVar (cp_model.NewBoolVar cp_model.new "a").1 "b").1
              (cp_model.AtMostOne literals)) ∧
    _add_bool_or (cp_model.NewBoolVar (cp_model.NewBoolVar cp_model.new "a").1 "b").1
      {| c_type := exactly_one; c_terms := None; c_op := None; c_rhs := None;
         c_penalty := None; c_vars := Some ["b"; "a"]; c_intervals := None;
         c_if := None; c_then := None; c_id := None |}
      {[ "a" := 0%nat; "b" := 1%nat ]}
      = Ok (cp_model.add_constraint (cp_model.NewBoolVar (cp_model.NewBoolVar cp_model.new "a").1 "b").1
              (cp_model.BoolOr literals)) ∧
    _add_bool_and (cp_model.NewBoolVar (cp_model.NewBoolVar cp_model.new "a").1 "b").1
      {| c_type := exactly_one; c_terms := None; c_op := None; c_rhs := None;
         c_penalty := None; c_vars := Some ["b"; "a"]; c_intervals := None;
         c_if := None; c_then := None; c_id := None |}
      {[ "a" := 0%nat; "b" := 1%nat ]}
      = Ok (cp_model.add_constraint (cp_model.NewBoolVar (cp_model.NewBoolVar cp_model.new "a").1 "b").1
              (cp_model.BoolAnd literals)))
  ∧
  _add_bool_and (cp_model.NewIntVar (cp_model.NewBoolVar cp_model.new "q").1 0 5 "p").1
    {| c_type := bool_and; c_terms := None; c_op := None; c_rhs := None;
       c_penalty := None; c_vars := Some ["q"; "p"]; c_intervals := None;
       c_if := None; c_then := None; c_id := None |}
    {[ "q" := 0%nat; "p" := 1%nat ]}
    = Raise (InvalidLiteral "p").
Proof.
  split.
  - apply (proj1 (boolean_list_constraints_added
      (cp_model.NewBoolVar (cp_model.NewBoolVar cp_model.new "a").1 "b").1
      {| c_type := exactly_one; c_terms := None; c_op := None; c_rhs := None;
         c_penalty := None; c_vars := Some ["b"; "a"]; c_intervals := None;
         c_if := None; c_then := None; c_id := None |}
      {[ "a" := 0%nat; "b" := 1%nat ]} ["b"; "a"] eq_refl)).
    repeat constructor.
    + exists 1%nat. split; [reflexivity|]. eexists. split; [reflexivity|].
      unfold cp_model.is_boolean. simpl. lia.
    + exists 0%nat. split; [reflexivity|]. eexists. split; [reflexivity|].
      unfold cp_model.is_boolean. simpl. lia.
  - apply (proj2 (boolean_list_constraints_added
      (cp_model.NewIntVar (cp_model.NewBoolVar cp_model.new "q").1 0 5 "p").1
      {| c_type := bool_and; c_terms := None; c_op := None; c_rhs := None;
       c_penalty := None; c_vars := Some ["q"; "p"]; c_intervals := None;
       c_if := None; c_then := None; c_id := None |}
      {[ "q" := 0%nat; "p" := 1%nat ]} ["q"; "p"] eq_refl)
      ["q"] "p" [] 1%nat
      {| cp_model.domain_lb := 0; cp_model.domain_ub := 5; cp_model.name := "p" |}).
    + reflexivity.
    + repeat constructor. exists 0%nat. split; [reflexivity|]. eexists.
      split; [reflexivity|]. unfold cp_model.is_boolean. simpl. lia.
    + reflexivity.
    + reflexivity.
    + unfold cp_model.is_boolean. simpl. lia.
    + constructor.
Defined.

(** The failures of the four handlers of boolean lists: a missing or empty
    list raises the [ValueError] of the handler, and the first name without a
    handle raises [KeyError] with that name. *)
Theorem boolean_list_constraints_failures model constraint vars_map :
  (truthy (c_vars constraint) = None →
   _add_exactly_one model constraint vars_map
     = Raise (ValueError "Exactly one constraint requires vars") ∧
   _add_at_most_one model constraint vars_map
     = Raise (ValueError "At most one constraint requires vars") ∧
   _add_bool_or model constraint vars_map
     = Raise (ValueError "Bool OR constraint requires vars") ∧
   _add_bool_and model constraint vars_map
     = Raise (ValueError "Bool AND constraint requires vars"))
  ∧
  (∀ pre n post,
     c_vars constraint = Some (pre ++ n :: post) →
     present vars_map pre → vars_map !! n = None →
     _add_exactly_one model constraint vars_map = Raise (KeyError n) ∧
     _add_at_most_one model constraint vars_map = Raise (KeyError n) ∧
     _add_bool_or model constraint vars_map = Raise (KeyError n) ∧
     _add_bool_and model constraint vars_map = Raise (KeyError n)).
Proof.
  unfold _add_exactly_one, _add_at_most_one, _add_bool_or, _add_bool_and. split.
  - by intros ->.
  - intros pre n post Hvars Hpre Hn.
    assert (truthy (c_vars constraint) = Some (pre ++ n :: post)) as ->.
    { rewrite Hvars. by destruct pre. }
    by rewrite (subscripts_raises_at vars_map pre n post Hpre Hn).
Qed.

Lemma boolean_list_constraints_failures_witness :
  _add_bool_or cp_model.new
    {| c_type := bool_or; c_terms := None; c_op := None; c_rhs := None;
       c_penalty := None; c_vars := Some []; c_intervals := None;
       c_if := None; c_then := None; c_id := None |} ∅
    = Raise (ValueError "Bool OR constraint requires vars")
  ∧
  _add_exactly_one cp_model.new
    {| c_type := exactly_one; c_terms := None; c_op := None; c_rhs := None;
       c_penalty := None; c_vars := Some (["a"] ++ "c" :: ["d"]); c_intervals := None;
       c_if := None; c_then := None; c_id := None |} {[ "a" := 0%nat ]}
    = Raise (KeyError "c").
Proof.
  split.
  - apply (proj1 (boolean_list_constraints_failures cp_model.new
      {| c_type := bool_or; c_terms := None; c_op := None; c_rhs := None;
         c_penalty := None; c_vars := Some []; c_intervals := None;
         c_if := None; c_then := None; c_id := None |} ∅)). reflexivity.
  - apply (proj2 (boolean_list_constraints_failures cp_model.new
      {| c_type := exactly_one; c_terms := None; c_op := None; c_rhs := None;
         c_penalty := None; c_vars := Some (["a"] ++ "c" :: ["d"]); c_intervals := None;
         c_if := None; c_then := None; c_id := None |} {[ "a" := 0%nat ]}) ["a"] "c" ["d"]).
    + reflexivity.
    + repeat constructor. vm_compute. eexists. reflexivity.
    + vm_compute. reflexivity.
Defined.

(** ** Intervals and the size of the model *)

Lemma interval_created_for_extend vars vars' v iv :
  vars `prefix_of` vars' →
  interval_created_for vars v iv → interval_created_for vars' v iv.
Proof.
  intros [more ->] (Htype & Hname & s & e & Hs & He & Hsz & Hcons & Hstart & Hend & Hp).
  split; [done|]. split; [done|]. exists s, e. split_and!; try done.
  - by apply lookup_app_l_Some.
  - by apply lookup_app_l_Some.
  - destruct (var_presenceVar v) as [p|]; [|done].
    destruct Hp as (h & d & Hh & Hd & Hnd & Hlt). exists h, d. split_and!; try done.
    by apply lookup_app_l_Some.
Qed.

Lemma constants_ok_extend m d :
  constants_ok m →
  constants_ok
    {| cp_model.variables := cp_model.variables m ++ [d];
       cp_model.intervals := cp_model.intervals m;
       cp_model.constraints := cp_model.constraints m;
       cp_model.objective := cp_model.objective m;
       cp_model.constant_map := cp_model.constant_map m |}.
Proof. intros Hok z h Hz. simpl. apply lookup_app_l_Some. by apply Hok. Qed.

Lemma interval_constants_snoc pre v :
  interval_constants (pre ++ [v]) = interval_constants pre ∪ list_to_set (endpoints v).
Proof.
  unfold interval_constants. rewrite bind_app, list_to_set_app_L. simpl.
  by rewrite app_nil_r.
Qed.

Lemma interval_constants_cons v vs :
  interval_constants ([v] ++ vs) = list_to_set (endpoints v) ∪ interval_constants vs.
Proof.
  unfold interval_constants. rewrite bind_app, list_to_set_app_L. simpl.
  by rewrite app_nil_r.
Qed.

Lemma endpoints_scalar v : scalar v → endpoints v = [].
Proof. unfold scalar, endpoints. by destruct (var_type v). Qed.

Lemma interval_loop_inv_snoc_scalar pre m vars_map vars_map' intervals_map v d :
  scalar v →
  variable_loop_inv (pre ++ [v])
    ({| cp_model.variables := cp_model.variables m ++ [d];
        cp_model.intervals := cp_model.intervals m;
        cp_model.constraints := cp_model.constraints m;
        cp_model.objective := cp_model.objective m;
        cp_model.constant_map := cp_model.constant_map m |}, vars_map', intervals_map) →
  interval_loop_inv pre (m, vars_map, intervals_map) →
  interval_loop_inv (pre ++ [v])
    ({| cp_model.variables := cp_model.variables m ++ [d];
        cp_model.intervals := cp_model.intervals m;
        cp_model.constraints := cp_model.constraints m;
        cp_model.objective := cp_model.objective m;
        cp_model.constant_map := cp_model.constant_map m |}, vars_map', intervals_map).
Proof.
  intros Hscalar Hvar' (_ & Hdom & Hlook & Hnv & Hcd & Hok & Hni & Hcs & Hobj).
  assert (¬ is_interval v) as Hni' by (unfold is_interval; exact Hscalar).
  split; [done|]. simpl. split_and!; try done.
  - by rewrite Hdom, filter_app, filter_cons_False, filter_nil, app_nil_r.
  - intros n iv Hn. destruct (Hlook n iv Hn) as (Hin & v' & Hv' & Hname & Hcreated).
    split; [done|]. exists v'. split_and!; try done.
    + apply elem_of_app. by left.
    + eapply interval_created_for_extend; [|done]. by apply prefix_app_r.
  - rewrite !filter_app, !length_app, Hnv.
    rewrite filter_cons_True, !filter_nil by done.
    simpl. lia.
  - rewrite interval_constants_snoc, endpoints_scalar by done. simpl.
    by rewrite (right_id_L ∅ (∪)).
  - by apply constants_ok_extend.
  - rewrite filter_app, length_app, Hni.
    rewrite filter_cons_False, filter_nil by done. simpl. lia.
Qed.

Lemma create_variable_interval_inv pre st v st' :
  interval_loop_inv pre st → create_variable st v = Ok st' →
  interval_loop_inv (pre ++ [v]) st'.
Proof.
  intros Hinv Hrun. destruct st as [[m vars_map] intervals_map].
  pose proof Hinv as (Hvar & Hdom & Hlook & Hnv & Hcd & Hok & Hni & Hcs & Hobj).
  pose proof (create_variable_inv pre _ v st' Hvar Hrun) as Hvar'.
  destruct (var_type v) eqn:Htype.
  - unfold create_variable in Hrun. rewrite Htype in Hrun.
    injection Hrun as <-. eapply interval_loop_inv_snoc_scalar; [|done..].
    unfold scalar. by rewrite Htype.
  - unfold create_variable in Hrun. rewrite Htype in Hrun.
    destruct (var_min v) as [lo|]; [|done]. destruct (var_max v) as [hi|]; [|done].
    injection Hrun as <-. eapply interval_loop_inv_snoc_scalar; [|done..].
    unfold scalar. by rewrite Htype.
  - assert (¬ scalar v) as Hns by (unfold scalar; rewrite Htype; auto).
    apply create_variable_interval_Ok in Hrun
      as (s & e & m1 & start & m2 & end_ & presence & Hs & He & Hsz & H1 & H2 & Hp & ->);
      [|done].
    destruct (NewConstant_constants m s m1 start _ H1 Hok Hnv) as (Hstart & Hok1 & Hnv1).
    destruct (NewConstant_constants m1 e m2 end_ _ H2 Hok1 Hnv1) as (Hend & Hok2 & Hnv2).
    apply NewConstant_frame in H1 as (Hp1 & Hi1 & Hc1 & Ho1 & Hm1).
    apply NewConstant_frame in H2 as (Hp2 & Hi2 & Hc2 & Ho2 & Hm2).
    assert (cp_model.variables m `prefix_of` cp_model.variables m2) as Hp02 by by etrans.
    split; [done|]. simpl. split_and!.
    + rewrite dom_insert_L, Hdom, filter_app, fmap_app, list_to_set_app_L.
      rewrite filter_cons_True, filter_nil by done. simpl.
      rewrite (right_id_L ∅ (∪)). apply (comm_L (∪)).
    + intros n iv Hn. destruct (decide (var_name v = n)) as [<-|Hne].
      * rewrite lookup_insert_eq in Hn. injection Hn as <-. split.
        { apply elem_of_app. right. apply list_elem_of_here. }
        exists v. split_and!; try done.
        { apply elem_of_app. right. apply list_elem_of_here. }
        split; [done|]. split; [done|]. exists s, e. simpl. split_and!; try done.
        { destruct Hp2 as [more ->]. by apply lookup_app_l_Some. }
        destruct (var_presenceVar v) as [p|]; [|done].
        destruct Hp as (h & Hh & -> & d & Hd & Hbool). exists h, d.
        split_and!; try done.
        destruct Hvar as [_ Hl].
        destruct (Hl p h Hh) as (v' & d' & _ & Hname & Hd' & Hnd & _).
        destruct Hp02 as [more Hmore]. rewrite Hmore in Hd.
        rewrite (lookup_app_l_Some _ _ _ _ Hd') in Hd. congruence.
      * rewrite lookup_insert_ne in Hn by done.
        destruct (Hlook n iv Hn) as (Hin & v' & Hv' & Hname & Hcreated). split.
        { apply elem_of_app. left. by rewrite Hi2, Hi1. }
        exists v'. split_and!; try done.
        { apply elem_of_app. by left. }
        by eapply interval_created_for_extend.
    + rewrite filter_app, length_app, Hnv2.
      rewrite (filter_cons_False scalar), !filter_nil by done.
      simpl. lia.
    + rewrite interval_constants_snoc, Hm2, Hm1, !dom_insert_L, Hcd.
      unfold endpoints. rewrite Htype, Hs, He. simpl.
      rewrite (right_id_L ∅ (∪)). rewrite (comm_L (∪) {[e]}), (comm_L (∪) {[s]}).
      by rewrite <- (assoc_L (∪)).
    + done.
    + rewrite filter_app, !length_app, Hi2, Hi1, Hni.
      rewrite filter_cons_True, filter_nil by done. simpl. lia.
    + by rewrite Hc2, Hc1.
    + by rewrite Ho2, Ho1.
Qed.

Lemma interval_loop_keeps vs st :
  for_in create_variable (cp_model.new, ∅, ∅) vs = Ok st → interval_loop_inv vs st.
Proof.
  apply (for_in_invariant_prefix interval_loop_inv).
  - intros pre v s s' _. apply create_variable_interval_inv.
  - unfold interval_loop_inv, variable_loop_inv. simpl.
    split_and!; try done; try (by rewrite dom_empty_L);
      intros n x Hn; by rewrite lookup_empty in Hn.
Qed.

(** The interval map after the variable loop: its keys are the names of the
    declared interval variables, and each interval it holds was created for a
    declared interval variable of that name, with the declared size, between
    two constants whose values are the declared start and end and differ by
    the size; it has a presence literal exactly when the declaration names
    one. The model holds one interval per declared interval variable. *)
Theorem declared_intervals_materialized vs m vars_map intervals_map :
  for_in create_variable (cp_model.new, ∅, ∅) vs = Ok (m, vars_map, intervals_map) →
  dom intervals_map
    = list_to_set (var_name <$> filter (fun v => var_type v = type_interval) vs) ∧
  length (cp_model.intervals m)
    = length (filter (fun v => var_type v = type_interval) vs) ∧
  ∀ n iv, intervals_map !! n = Some iv →
    iv ∈ cp_model.intervals m ∧
    ∃ v s e,
      v ∈ vs ∧ var_type v = type_interval ∧ var_name v = n ∧
      cp_model.interval_name iv = n ∧
      var_start v = Some s ∧ var_end v = Some e ∧
      var_size v = Some (cp_model.interval_size iv) ∧
      e - s = cp_model.interval_size iv ∧
      cp_model.variables m !! cp_model.interval_start iv
        = Some {| cp_model.domain_lb := s; cp_model.domain_ub := s; cp_model.name := "" |} ∧
      cp_model.variables m !! cp_model.interval_end iv
        = Some {| cp_model.domain_lb := e; cp_model.domain_ub := e; cp_model.name := "" |} ∧
      (var_presenceVar v = None ↔ cp_model.interval_presence iv = None).
Proof.
  intros Hrun. apply interval_loop_keeps in Hrun as (_ & Hdom & Hlook & _ & _ & _ & Hni & _).
  split; [done|]. split; [done|]. intros n iv Hn.
  destruct (Hlook n iv Hn) as (Hin & v & Hv & Hname & Htype & Hiname & s & e & Hs & He & Hsz
    & Hcons & Hstart & Hend & Hp).
  split; [done|]. exists v, s, e. split_and!; try done; [congruence|].
  destruct (var_presenceVar v) as [p|].
  - destruct Hp as (h & d & -> & _). split; discriminate.
  - by rewrite Hp.
Qed.

Lemma declared_intervals_materialized_witness :
  dom ({[ "i" := {| cp_model.interval_start := 1%nat; cp_model.interval_size := 5;
                     cp_model.interval_end := 2%nat;
                     cp_model.interval_presence := Some 0%nat;
                     cp_model.interval_name := "i" |} ]} : gmap string cp_model.IntervalVar)
    = list_to_set (var_name <$> filter (fun v => var_type v = type_interval)
                                  (variables Demo.int_presence_request)) ∧
  length (cp_model.intervals
            (cp_model.add_interval
               (cp_model.NewConstant
                  (cp_model.NewConstant (cp_model.NewIntVar cp_model.new 0 1 "p").1 0).1 5).1
               {| cp_model.interval_start := 1%nat; cp_model.interval_size := 5;
                     cp_model.interval_end := 2%nat;
                     cp_model.interval_presence := Some 0%nat;
                     cp_model.interval_name := "i" |}).1)
    = length (filter (fun v => var_type v = type_interval)
                (variables Demo.int_presence_request)).
Proof.
  destruct (declared_intervals_materialized (variables Demo.int_presence_request)
    (cp_model.add_interval
               (cp_model.NewConstant
                  (cp_model.NewConstant (cp_model.NewIntVar cp_model.new 0 1 "p").1 0).1 5).1
               {| cp_model.interval_start := 1%nat; cp_model.interval_size := 5;
                     cp_model.interval_end := 2%nat;
                     cp_model.interval_presence := Some 0%nat;
                     cp_model.interval_name := "i" |}).1
    {[ "p" := 0%nat ]}
    {[ "i" := {| cp_model.interval_start := 1%nat; cp_model.interval_size := 5;
                     cp_model.interval_end := 2%nat;
                     cp_model.interval_presence := Some 0%nat;
                     cp_model.interval_name := "i" |} ]}) as (Hdom & Hlen & _).
  - vm_compute. reflexivity.
  - split; assumption.
Defined.

(** A handler of a hard constraint that returns has added one constraint. *)
Ltac handler_adds_one :=
  intros Hrun;
  repeat match type of Hrun with
  | match ?o with _ => _ end = Ok _ => destruct o; try discriminate Hrun
  | _ ≫= _ = Ok _ =>
      let a := fresh "a" in let Ha := fresh "Ha" in
      apply bind_Ok in Hrun as (a & Ha & Hrun)
  end;
  library_call Hrun; by eexists.

Lemma add_linear_constraint_adds_one model constraint vars_map m' :
  _add_linear_constraint model constraint vars_map = Ok m' →
  ∃ c, m' = cp_model.add_constraint model c.
Proof. unfold _add_linear_constraint. handler_adds_one. Qed.

Lemma add_exactly_one_adds_one model constraint vars_map m' :
  _add_exactly_one model constraint vars_map = Ok m' →
  ∃ c, m' = cp_model.add_constraint model c.
Proof. unfold _add_exactly_one. handler_adds_one. Qed.

Lemma add_at_most_one_adds_one model constraint vars_map m' :
  _add_at_most_one model constraint vars_map = Ok m' →
  ∃ c, m' = cp_model.add_constraint model c.
Proof. unfold _add_at_most_one. handler_adds_one. Qed.

Lemma add_implication_adds_one model constraint vars_map m' :
  _add_implication model constraint vars_map = Ok m' →
  ∃ c, m' = cp_model.add_constraint model c.
Proof. unfold _add_implication. handler_adds_one. Qed.

Lemma add_bool_or_adds_one model constraint vars_map m' :
  _add_bool_or model constraint vars_map = Ok m' →
  ∃ c, m' = cp_model.add_constraint model c.
Proof. unfold _add_bool_or. handler_adds_one. Qed.

Lemma add_bool_and_adds_one model constraint vars_map m' :
  _add_bool_and model constraint vars_map = Ok m' →
  ∃ c, m' = cp_model.add_constraint model c.
Proof. unfold _add_bool_and. handler_adds_one. Qed.

Lemma add_no_overlap_adds_one model constraint intervals_map m' :
  _add_no_overlap model constraint intervals_map = Ok m' →
  ∃ c, m' = cp_model.add_constraint model c.
Proof. unfold _add_no_overlap. handler_adds_one. Qed.

Lemma asserted_in_extend vars_map cons more t :
  asserted_in vars_map cons t → asserted_in vars_map (cons ++ more) t.
Proof.
  intros (expr & Hexpr & Hin). exists expr. split; [done|]. apply elem_of_app. by left.
Qed.

Lemma shape_inv_hard vars_map m0 pre m pens tracked index constraint c :
  ¬ is_soft constraint →
  shape_inv vars_map m0 pre (m, pens, tracked, index) →
  shape_inv vars_map m0 (pre ++ [constraint])
    (cp_model.add_constraint m c, pens, tracked, index).
Proof.
  intros Hhard (Hiv & Hobj & Hcs & Hidx & Hvars & Hpens & Htr & Hasserted).
  unfold shape_inv. simpl. split_and!; try done.
  - rewrite !length_app, Hcs. simpl. lia.
  - by rewrite filter_app, filter_cons_False, filter_nil, app_nil_r.
  - eapply Forall_impl; [done|]. intros t. apply asserted_in_extend.
Qed.

Lemma shape_inv_soft vars_map bounds m0 pre m pens tracked index constraint m' pens' tracked' :
  is_soft constraint →
  shape_inv vars_map m0 pre (m, pens, tracked, index) →
  _add_soft_linear_constraint m constraint vars_map bounds pens tracked index
    = Ok (m', pens', tracked') →
  shape_inv vars_map m0 (pre ++ [constraint]) (m', pens', tracked', S index).
Proof.
  intros Hsoft (Hiv & Hobj & Hcs & Hidx & Hvars & Hpens & Htr & Hasserted) Hrun.
  destruct (add_soft_linear_constraint_inv _ _ _ _ _ _ _ _ Hrun)
    as (ts & op & rhs & penalty & Hts & Hop & Hne & Hrhs & Hpen & Hb & Hv).
  destruct (add_soft_linear_constraint_ok m constraint vars_map bounds pens tracked index
    ts op rhs penalty Hts Hop Hne Hrhs Hpen Hb Hv) as (expr & Hexpr & Hok).
  simpl in Hok. rewrite Hok in Hrun. injection Hrun as <- <- <-.
  unfold shape_inv, with_slack. simpl. split_and!; try done.
  - rewrite !length_app, Hcs. simpl. lia.
  - rewrite filter_app, length_app, filter_cons_True, filter_nil by done. simpl. lia.
  - rewrite length_app, Hvars. simpl. lia.
  - unfold soft_penalty. rewrite length_app. case_bool_decide; simpl; lia.
  - unfold soft_penalty, soft_tracked. rewrite !length_app.
    case_bool_decide; [destruct (c_id constraint)|]; simpl; lia.
  - apply Forall_app. split.
    + eapply Forall_impl; [done|]. intros t. apply asserted_in_extend.
    + unfold soft_tracked. case_bool_decide; [|by constructor].
      destruct (c_id constraint); [|by constructor].
      constructor; [|by constructor]. exists expr. simpl. split; [done|].
      apply elem_of_app. right. apply list_elem_of_singleton. by destruct op.
Qed.

Lemma compile_constraint_shape vars_map intervals_map bounds m0 pre st constraint st' :
  shape_inv vars_map m0 pre st →
  compile_constraint vars_map intervals_map bounds st constraint = Ok st' →
  shape_inv vars_map m0 (pre ++ [constraint]) st'.
Proof.
  intros Hinv Hrun. destruct st as [[[m pens] tracked] index].
  unfold compile_constraint in Hrun.
  destruct (c_type constraint) eqn:Htype;
    apply bind_Ok in Hrun as (r & Hhandler & Hrun).
  2: { destruct r as [[m' pens'] tracked']. injection Hrun as <-.
       by eapply shape_inv_soft. }
  all: injection Hrun as <-;
    assert (¬ is_soft constraint) as Hhard by (unfold is_soft; by rewrite Htype).
  - apply add_linear_constraint_adds_one in Hhandler as [c ->]. by apply shape_inv_hard.
  - apply add_exactly_one_adds_one in Hhandler as [c ->]. by apply shape_inv_hard.
  - apply add_at_most_one_adds_one in Hhandler as [c ->]. by apply shape_inv_hard.
  - apply add_implication_adds_one in Hhandler as [c ->]. by apply shape_inv_hard.
  - apply add_bool_or_adds_one in Hhandler as [c ->]. by apply shape_inv_hard.
  - apply add_bool_and_adds_one in Hhandler as [c ->]. by apply shape_inv_hard.
  - apply add_no_overlap_adds_one in Hhandler as [c ->]. by apply shape_inv_hard.
Qed.

Lemma constraint_loop_shape vars_map intervals_map bounds m0 cs st' :
  for_in (compile_constraint vars_map intervals_map bounds) (m0, [], [], 0%nat) cs = Ok st' →
  shape_inv vars_map m0 cs st'.
Proof.
  apply (for_in_invariant_prefix (shape_inv vars_map m0)).
  - intros pre c s s' _. apply compile_constraint_shape.
  - unfold shape_inv. simpl. split_and!; try done; lia.
Qed.

Lemma term_exprs_length vars_map ts es :
  term_exprs vars_map ts = Ok es → length es = length ts.
Proof.
  revert es. induction ts as [|t ts IH]; intros es Hrun; simpl in Hrun.
  - by injection Hrun as <-.
  - apply bind_Ok in Hrun as (v & _ & Hrun). apply bind_Ok in Hrun as (es' & Hes & Hrun).
    injection Hrun as <-. simpl. f_equal. by apply IH.
Qed.

(** What [_build_objective] does to the model: nothing, or it sets the
    objective; and it reports [True] exactly when there is a penalty term or
    a user objective with a term. *)
Lemma build_objective_shape model objective vars_map penalty_terms m' b :
  _build_objective model objective vars_map penalty_terms = Ok (m', b) →
  ((b = false ∧ m' = model) ∨ (b = true ∧ ∃ s e, m' = cp_model.set_objective model s e)) ∧
  (b = true ↔ penalty_terms ≠ [] ∨ ∃ o, objective = Some o ∧ obj_terms o ≠ []).
Proof.
  unfold _build_objective. intros Hrun. destruct objective as [o|].
  - apply bind_Ok in Hrun as (es & Hes & Hrun). apply term_exprs_length in Hes.
    destruct (obj_terms o) as [|t ts] eqn:Hts.
    + destruct es as [|e es]; [|discriminate Hes].
      destruct penalty_terms as [|p ps]; simpl in Hrun.
      * injection Hrun as <- <-. split; [by left|]. split; [done|].
        intros [?|(o' & Hsome & Ho')]; [done|]. injection Hsome as <-. by rewrite Hts in Ho'.
      * case_bool_decide; injection Hrun as <- <-;
          (split; [right; split; [done|by do 2 eexists]|]); (split; [by left|done]).
    + destruct es as [|e es]; [discriminate Hes|].
      destruct penalty_terms as [|p ps]; simpl in Hrun;
        case_bool_decide; injection Hrun as <- <-;
        (split; [right; split; [done|by do 2 eexists]|]);
        (split; [|done]); intros _; right; exists o; by rewrite Hts.
  - destruct penalty_terms as [|p ps]; simpl in Hrun; injection Hrun as <- <-.
    + split; [by left|]. split; [done|]. intros [?|(o' & ? & _)]; done.
    + split; [right; split; [done|by do 2 eexists]|]. split; [by left|done].
Qed.

Section shape_of_the_compiled_model.
Context `{PyRuntime} `{cp_model.StatusCodes}.

Lemma endpoints_size v :
  (size (list_to_set (endpoints v) : gset Z) ≤ 2 * length (filter is_interval [v]))%nat.
Proof.
  unfold endpoints, is_interval.
  destruct (var_type v) eqn:Htype.
  - rewrite list_to_set_nil, size_empty. lia.
  - rewrite list_to_set_nil, size_empty. lia.
  - rewrite filter_cons_True by done.
    destruct (var_start v), (var_end v);
      rewrite ?list_to_set_cons, ?list_to_set_nil, ?size_empty; cbn [length filter]; try lia.
    rewrite (right_id_L ∅ (∪)).
    etrans; [apply size_union_alt_le|]. rewrite !size_singleton. cbn. lia.
Qed.

Lemma interval_constants_size vs :
  (size (interval_constants vs) ≤ 2 * length (filter is_interval vs))%nat.
Proof.
  induction vs as [|v vs IH].
  - unfold interval_constants. change ([] ≫= endpoints) with (@nil Z).
    rewrite list_to_set_nil, size_empty. lia.
  - change (v :: vs) with ([v] ++ vs).
    rewrite interval_constants_cons, filter_app, length_app.
    etrans; [apply size_union_alt_le|]. pose proof (endpoints_size v). lia.
Qed.

Lemma compile_shape request c :
  compile request = Ok c →
  ∃ m0 m1 index,
    interval_loop_inv (variables request) (m0, vars_map c, intervals_map c) ∧
    shape_inv (vars_map c) m0 (constraints request)
      (m1, penalty_terms c, tracked_constraints c, index) ∧
    ((has_objective c = false ∧ model c = m1) ∨
     (has_objective c = true ∧ ∃ s e, model c = cp_model.set_objective m1 s e)) ∧
    (has_objective c = true ↔
       penalty_terms c ≠ [] ∨ ∃ o, objective request = Some o ∧ obj_terms o ≠ []).
Proof.
  intros Hc. destruct (compile_stages request c Hc)
    as (m0 & m1 & index & _ & Hvars & Hcs & Hobj).
  exists m0, m1, index. split; [by apply interval_loop_keeps|].
  split; [by eapply constraint_loop_shape|]. by eapply build_objective_shape.
Qed.

(** The size of a compiled model: one constraint per constraint of the
    request, one interval per declared interval variable, and as variables
    one per declared boolean or integer variable, one constant per value
    that is the start or the end of a declared interval (intervals share the
    constant of a value, so there are at most two per interval) and one slack
    variable per soft-linear constraint; there is at most one penalty term
    per soft-linear constraint and at most one tracked constraint per penalty
    term. *)
Theorem compiled_model_size request c :
  compile request = Ok c →
  length (cp_model.constraints (model c)) = length (constraints request) ∧
  length (cp_model.intervals (model c)) = length (filter is_interval (variables request)) ∧
  length (cp_model.variables (model c))
    = (length (filter scalar (variables request))
       + size (interval_constants (variables request))
       + length (filter is_soft (constraints request)))%nat ∧
  (size (interval_constants (variables request))
     ≤ 2 * length (filter is_interval (variables request)))%nat ∧
  (length (penalty_terms c) ≤ length (filter is_soft (constraints request)))%nat ∧
  (length (tracked_constraints c) ≤ length (penalty_terms c))%nat.
Proof.
  intros Hc. destruct (compile_shape request c Hc)
    as (m0 & m1 & index & (_ & _ & _ & Hnv & Hcd & _ & Hni & Hcs0 & _)
        & (Hiv & _ & Hcs & Hidx & Hvars & Hpens & Htr & _) & Hmodel & _).
  assert (cp_model.constraints (model c) = cp_model.constraints m1 ∧
          cp_model.intervals (model c) = cp_model.intervals m1 ∧
          cp_model.variables (model c) = cp_model.variables m1) as (-> & -> & ->).
  { by destruct Hmodel as [[_ ->]|[_ (s & e & ->)]]. }
  rewrite Hcs, Hcs0, Hiv, Hni, Hvars, Hnv, <- Hidx, <- Hcd, size_dom. simpl.
  split_and!; try done; try lia.
  rewrite <- size_dom, Hcd. apply interval_constants_size.
Qed.

End shape_of_the_compiled_model.

Lemma compiled_model_size_witness :
  ∃ c, compile (H := Demo.runtime) Demo.adjacent_request = Ok c ∧
    length (cp_model.variables (model c)) = 5%nat ∧
    length (cp_model.intervals (model c)) = 2%nat.
Proof.
  destruct (compile (H := Demo.runtime) Demo.adjacent_request) as [c|e] eqn:Hc.
  - exists c. split; [reflexivity|].
    destruct (compiled_model_size (H := Demo.runtime) Demo.adjacent_request c Hc)
      as (_ & Hintervals & Hvariables & _).
    split; [rewrite Hvariables|rewrite Hintervals]; vm_compute; reflexivity.
  - vm_compute in Hc. discriminate Hc.
Defined.

(** ** The response of a successful solve *)

Section successful_solve.
Context `{PyRuntime} `{cp_model.StatusCodes}.

Lemma tracked_terms_resolved request c :
  compile request = Ok c →
  Forall (fun t => resolved (vars_map c) (terms t)) (tracked_constraints c).
Proof.
  intros Hc. destruct (compile_tracked request c Hc) as (m0 & _ & _ & _ & Htracked).
  eapply Forall_impl; [done|]. intros t (? & ? & ? & ? & Ht). by destruct_and!.
Qed.

Lemma solve_request_statistics request oracle c solver :
  compile request = Ok c →
  oracle (model c) (parameters request) = Ok solver →
  succeeded solver →
  statistics (solve_request request oracle) =
    Some (let base : gmap string Statistic :=
            <["branches" := stat_int (cp_model.num_branches solver)]>
              (<["conflicts" := stat_int (cp_model.num_conflicts solver)]>
                (<["solveTimeMs" :=
                     stat_int (int_of_times_1000 (cp_model.wall_time solver))]> ∅)) in
          if has_objective c then
            <["bestObjectiveBound" := stat_float (cp_model.best_objective_bound solver)]>
              (<["objectiveValue" := stat_float (cp_model.objective_value solver)]> base)
          else base).
Proof.
  intros Hc Ho Hsucc. unfold solve_request, solve_request_try. rewrite Hc. simpl.
  rewrite Ho. simpl. unfold extract.
  rewrite bool_decide_false by (intros Hn; by apply Hn).
  by rewrite (report_violations_from _ _ _ [] (tracked_terms_resolved request c Hc)).
Qed.

(** The statistics of a successful solve: solve time, conflicts and branches
    are always there, read from the solver; the objective value and the best
    bound are there exactly when an objective was sent to the oracle, which
    is the case exactly when there is a penalty term or a user objective with
    a term; there is no other key. *)
Theorem statistics_of_a_successful_solve request oracle c solver :
  compile request = Ok c →
  oracle (model c) (parameters request) = Ok solver →
  cp_model.status solver = cp_model.OPTIMAL ∨ cp_model.status solver = cp_model.FEASIBLE →
  ∃ stats,
    statistics (solve_request request oracle) = Some stats ∧
    stats !! "solveTimeMs" = Some (stat_int (int_of_times_1000 (cp_model.wall_time solver))) ∧
    stats !! "conflicts" = Some (stat_int (cp_model.num_conflicts solver)) ∧
    stats !! "branches" = Some (stat_int (cp_model.num_branches solver)) ∧
    (is_Some (cp_model.objective (model c)) ↔
       penalty_terms c ≠ [] ∨ ∃ o, objective request = Some o ∧ obj_terms o ≠ []) ∧
    (if decide (is_Some (cp_model.objective (model c))) then
       stats !! "objectiveValue" = Some (stat_float (cp_model.objective_value solver)) ∧
       stats !! "bestObjectiveBound"
         = Some (stat_float (cp_model.best_objective_bound solver))
     else stats !! "objectiveValue" = None ∧ stats !! "bestObjectiveBound" = None) ∧
    ∀ k, is_Some (stats !! k) →
      k ∈ ["solveTimeMs"; "conflicts"; "branches"; "objectiveValue"; "bestObjectiveBound"].
Proof.
  intros Hc Ho Hsucc. eexists. split; [by apply solve_request_statistics|].
  destruct (compile_shape request c Hc)
    as (m0 & m1 & index & (_ & _ & _ & _ & _ & _ & _ & _ & Hobj0) & (_ & Hobj1 & _) & Hmodel & Hiff).
  assert (cp_model.objective m1 = None) as Hnone by congruence.
  assert (is_Some (cp_model.objective (model c)) ↔ has_objective c = true) as Hsent.
  { destruct Hmodel as [[-> ->]|[-> (s & e & ->)]]; simpl.
    - rewrite Hnone. split; [by intros [? ?]|done].
    - split; [done|]. intros _. by eexists. }
  simpl. split_and!.
  - destruct (has_objective c); by simplify_map_eq.
  - destruct (has_objective c); by simplify_map_eq.
  - destruct (has_objective c); by simplify_map_eq.
  - by rewrite Hsent.
  - destruct (decide (is_Some (cp_model.objective (model c)))) as [Hs|Hs].
    + apply Hsent in Hs. rewrite Hs. by simplify_map_eq.
    + destruct (has_objective c); [by destruct Hs; apply Hsent|]. by simplify_map_eq.
  - intros k Hk. apply elem_of_dom in Hk.
    destruct (has_objective c);
      rewrite !dom_insert_L, dom_empty_L, !elem_of_union, !elem_of_singleton,
        elem_of_empty in Hk; rewrite !elem_of_cons; tauto.
Qed.

End successful_solve.

Lemma statistics_of_a_successful_solve_witness :
  ∃ stats,
    statistics (solve_request (H := Demo.runtime) (H0 := Demo.codes)
                  Demo.coverage_request (Demo.answer 4 "" Demo.zero_then_one)) = Some stats ∧
    stats !! "solveTimeMs" = Some (stat_int 0) ∧
    stats !! "conflicts" = Some (stat_int 0) ∧
    stats !! "branches" = Some (stat_int 0) ∧
    (is_Some (cp_model.objective (model Demo.coverage_compiled)) ↔
       penalty_terms Demo.coverage_compiled ≠ [] ∨
       ∃ o, objective Demo.coverage_request = Some o ∧ obj_terms o ≠ []) ∧
    (if decide (is_Some (cp_model.objective (model Demo.coverage_compiled))) then
       stats !! "objectiveValue" = Some (stat_float (H := Demo.runtime) 0%Z) ∧
       stats !! "bestObjectiveBound" = Some (stat_float (H := Demo.runtime) 0%Z)
     else stats !! "objectiveValue" = None ∧ stats !! "bestObjectiveBound" = None) ∧
    ∀ k, is_Some (stats !! k) →
      k ∈ ["solveTimeMs"; "conflicts"; "branches"; "objectiveValue"; "bestObjectiveBound"].
Proof.
  apply (statistics_of_a_successful_solve (H := Demo.runtime) (H0 := Demo.codes)
    Demo.coverage_request (Demo.answer 4 "" Demo.zero_then_one) Demo.coverage_compiled
    (Demo.solved 4 "" Demo.zero_then_one)).
  - vm_compute. reflexivity.
  - reflexivity.
  - left. reflexivity.
Defined.

(** ** Bounds and domains *)

Lemma bounds_agree_extend bounds m m' vars_map intervals_map intervals_map' :
  cp_model.variables m `prefix_of` cp_model.variables m' →
  bounds_agree bounds (m, vars_map, intervals_map) →
  bounds_agree bounds (m', vars_map, intervals_map').
Proof.
  intros [more Hmore] Hagree n. specialize (Hagree n).
  destruct (bounds !! n) as [b|]; [|done].
  destruct Hagree as (h & d & Hh & Hd & Hrest). exists h, d. split; [done|].
  split; [|done]. rewrite Hmore. by apply lookup_app_l_Some.
Qed.

Lemma bounds_agree_insert bounds m vars_map intervals_map n lo hi :
  bounds_agree bounds (m, vars_map, intervals_map) →
  bounds_agree (<[n := {| lower := lo; upper := hi |}]> bounds)
    ((cp_model.NewIntVar m lo hi n).1,
     <[n := length (cp_model.variables m)]> vars_map, intervals_map).
Proof.
  intros Hagree n'. destruct (decide (n = n')) as [<-|Hne].
  - rewrite !lookup_insert_eq.
    exists (length (cp_model.variables m)),
      {| cp_model.domain_lb := lo; cp_model.domain_ub := hi; cp_model.name := n |}.
    split; [done|]. simpl. split; [|done].
    apply lookup_app_Some. right. split; [done|]. by rewrite Nat.sub_diag.
  - rewrite !lookup_insert_ne by done. specialize (Hagree n').
    destruct (bounds !! n') as [b|]; [|done].
    destruct Hagree as (h & d & Hh & Hd & Hrest). exists h, d. split; [done|].
    split; [|done]. simpl. by apply lookup_app_l_Some.
Qed.

Lemma bounds_agree_step bounds st v bounds' st' :
  bounds_agree bounds st →
  match var_type v with
  | type_bool => Ok (<[var_name v := {| lower := 0; upper := 1 |}]> bounds)
  | type_int =>
      match var_min v, var_max v with
      | Some lo, Some hi => Ok (<[var_name v := {| lower := lo; upper := hi |}]> bounds)
      | _, _ =>
          Raise (ValueError ("Int variable " +:+ var_name v +:+ " requires min and max"))
      end
  | type_interval => Ok bounds
  end = Ok bounds' →
  create_variable st v = Ok st' →
  bounds_agree bounds' st'.
Proof.
  intros Hagree Hb Hrun. destruct st as [[m vars_map] intervals_map].
  destruct (var_type v) eqn:Htype.
  - unfold create_variable in Hrun. rewrite Htype in Hrun.
    injection Hb as <-. injection Hrun as <-. by apply bounds_agree_insert.
  - unfold create_variable in Hrun. rewrite Htype in Hrun.
    destruct (var_min v) as [lo|]; [|done]. destruct (var_max v) as [hi|]; [|done].
    injection Hb as <-. injection Hrun as <-. by apply bounds_agree_insert.
  - injection Hb as <-. destruct st' as [[m' vars_map'] intervals_map'].
    apply create_variable_interval_frame in Hrun as [-> Hprefix]; [|done].
    by eapply bounds_agree_extend.
Qed.

Lemma bounds_agree_loops vs bounds st bounds' st' :
  bounds_agree bounds st →
  for_in (fun bounds v =>
    match var_type v with
    | type_bool => Ok (<[var_name v := {| lower := 0; upper := 1 |}]> bounds)
    | type_int =>
        match var_min v, var_max v with
        | Some lo, Some hi =>
            Ok (<[var_name v := {| lower := lo; upper := hi |}]> bounds)
        | _, _ =>
            Raise (ValueError ("Int variable " +:+ var_name v +:+ " requires min and max"))
        end
    | type_interval => Ok bounds
    end) bounds vs = Ok bounds' →
  for_in create_variable st vs = Ok st' →
  bounds_agree bounds' st'.
Proof.
  revert bounds st. induction vs as [|v vs IH]; intros bounds st Hagree Hb Hrun.
  - simpl in Hb, Hrun. injection Hb as <-. by injection Hrun as <-.
  - simpl in Hb, Hrun. apply bind_Ok in Hb as (b1 & Hb1 & Hb).
    apply bind_Ok in Hrun as (s1 & Hs1 & Hrun).
    apply (IH b1 s1); [|done..]. by eapply bounds_agree_step.
Qed.

Section bounds_and_domains.
Context `{PyRuntime} `{cp_model.StatusCodes}.

(** The bounds used for the static ranges are the domains given to the
    oracle: in a compiled request the bounds map and the map of handles have
    the same keys, and the model variable behind the handle of a name has
    exactly the bounds of that name as its domain. *)
Theorem bounds_are_the_domains request c :
  compile request = Ok c →
  ∀ n,
    match var_bounds c !! n with
    | Some b =>
        ∃ h d, vars_map c !! n = Some h ∧
          cp_model.variables (model c) !! h = Some d ∧
          cp_model.domain_lb d = lower b ∧ cp_model.domain_ub d = upper b ∧
          cp_model.name d = n
    | None => vars_map c !! n = None
    end.
Proof.
  intros Hc. destruct (compile_stages request c Hc)
    as (m0 & m1 & index & Hbounds & Hvars & _).
  destruct (compile_tracked request c Hc) as (m0' & Hvars' & Hprefix & _).
  assert (m0' = m0) as -> by congruence.
  assert (bounds_agree (var_bounds c) (m0, vars_map c, intervals_map c)) as Hagree.
  { eapply (bounds_agree_loops (variables request) ∅ (cp_model.new, ∅, ∅)); [|done..].
    intros n. by rewrite !lookup_empty. }
  by apply (bounds_agree_extend _ m0 (model c) _ _ (intervals_map c) Hprefix) in Hagree.
Qed.

End bounds_and_domains.

Lemma bounds_are_the_domains_witness :
  ∃ h d, vars_map Demo.coverage_compiled !! "x" = Some h ∧
    cp_model.variables (model Demo.coverage_compiled) !! h = Some d ∧
    cp_model.domain_lb d = 0 ∧ cp_model.domain_ub d = 1 ∧
    cp_model.name d = "x".
Proof.
  apply (bounds_are_the_domains (H := Demo.runtime) Demo.coverage_request
    Demo.coverage_compiled eq_refl "x").
Defined.

(** ** References to undeclared names *)

Lemma for_in_all_ok {A S} (body : S → A → Res S) s xs s' x :
  for_in body s xs = Ok s' → x ∈ xs → ∃ s1 s2, body s1 x = Ok s2.
Proof.
  revert s. induction xs as [|y xs IH]; intros s Hrun Hx; [by apply elem_of_nil in Hx|].
  simpl in Hrun. apply bind_Ok in Hrun as (s1 & Hstep & Hrun).
  apply elem_of_cons in Hx as [->|Hx]; [by exists s, s1|by eapply IH].
Qed.

Lemma truthy_Some {A} (o : option (list A)) l : truthy o = Some l ↔ o = Some l ∧ l ≠ [].
Proof.
  destruct o as [[|a l']|]; simpl.
  - split; [done|]. by intros [[= <-] ?].
  - split; [by intros [= <-]|]. by intros [[= <-] _].
  - split; [done|]. by intros [? _].
Qed.

Lemma present_elem {V} (d : gmap string V) ks k : present d ks → k ∈ ks → is_Some (d !! k).
Proof. unfold present. rewrite Forall_forall. auto. Qed.

Lemma subscripts_present {V} (d : gmap string V) ks vs :
  subscripts d ks = Ok vs → present d ks.
Proof.
  intros Hrun. apply subscripts_inv in Hrun.
  induction Hrun as [|k v ks vs Hk _ IH]; constructor; [by eexists|done].
Qed.

Lemma term_exprs_resolved vars_map ts es :
  term_exprs vars_map ts = Ok es → resolved vars_map ts.
Proof.
  revert es. induction ts as [|t ts IH]; intros es Hrun; [constructor|].
  simpl in Hrun. apply bind_Ok in Hrun as (v & Hv & Hrun).
  apply bind_Ok in Hrun as (es' & Hes & _). constructor; [|by eapply IH].
  unfold subscript in Hv. by destruct (vars_map !! var t).
Qed.

Lemma add_linear_constraint_inv model constraint vars_map m' :
  _add_linear_constraint model constraint vars_map = Ok m' →
  ∃ ts, truthy (c_terms constraint) = Some ts ∧ resolved vars_map ts.
Proof.
  unfold _add_linear_constraint. intros Hrun.
  destruct (truthy (c_terms constraint)) as [ts|]; [|done].
  destruct (c_op constraint); [|done]. destruct (c_rhs constraint); [|done].
  apply bind_Ok in Hrun as (expr & Hexpr & _). exists ts. split; [done|].
  by eapply sum_terms_resolved.
Qed.

Lemma boolean_list_handler_inv {V} (d : gmap string V) (o : option (list string))
    (msg : string) (k : list V → Res cp_model.CpModel) m' :
  match truthy o with
  | None => Raise (ValueError msg)
  | Some vs => literals ← subscripts d vs; k literals
  end = Ok m' →
  ∃ names, truthy o = Some names ∧ present d names.
Proof.
  intros Hrun. destruct (truthy o) as [names|]; [|done].
  apply bind_Ok in Hrun as (ls & Hls & _). exists names. split; [done|].
  by eapply subscripts_present.
Qed.

Lemma add_implication_inv model constraint vars_map m' :
  _add_implication model constraint vars_map = Ok m' →
  ∃ i t, c_if constraint = Some i ∧ c_then constraint = Some t ∧
    is_Some (vars_map !! i) ∧ is_Some (vars_map !! t).
Proof.
  unfold _add_implication. intros Hrun.
  destruct (c_if constraint) as [i|]; [|done]. destruct (c_then constraint) as [t|]; [|done].
  apply bind_Ok in Hrun as (a & Ha & Hrun). apply bind_Ok in Hrun as (b & Hb & _).
  exists i, t. unfold subscript in Ha, Hb.
  destruct (vars_map !! i), (vars_map !! t); done.
Qed.

Section references.
Context `{PyRuntime} `{cp_model.StatusCodes}.

(** A request compiles only when every name it refers to is declared, and
    declared for the right kind: the variables of the terms of linear and
    soft-linear constraints and of the objective, the names of the boolean
    lists and of implications are names of declared boolean or integer
    variables, and the names of a no-overlap constraint are names of declared
    interval variables; the lists are present and not empty. *)
Theorem compiled_references_are_declared request c :
  compile request = Ok c →
  (∀ constraint, constraint ∈ constraints request →
     match c_type constraint with
     | linear | soft_linear =>
         ∃ ts, c_terms constraint = Some ts ∧ ts ≠ [] ∧
           ∀ t, t ∈ ts → declared_scalar (variables request) (var t)
     | exactly_one | at_most_one | bool_or | bool_and =>
         ∃ names, c_vars constraint = Some names ∧ names ≠ [] ∧
           ∀ n, n ∈ names → declared_scalar (variables request) n
     | implication =>
         ∃ i t, c_if constraint = Some i ∧ c_then constraint = Some t ∧
           declared_scalar (variables request) i ∧ declared_scalar (variables request) t
     | no_overlap =>
         ∃ names, c_intervals constraint = Some names ∧ names ≠ [] ∧
           ∀ n, n ∈ names → declared_interval (variables request) n
     end)
  ∧
  (∀ o t, objective request = Some o → t ∈ obj_terms o →
     declared_scalar (variables request) (var t)).
Proof.
  intros Hc. destruct (compile_stages request c Hc)
    as (m0 & m1 & index & _ & Hvars & Hcs & Hobj).
  assert (∀ n, is_Some (vars_map c !! n) → declared_scalar (variables request) n) as Hscalar.
  { intros n Hn. by apply (variable_loop_names _ _ _ _ n Hvars). }
  assert (∀ n, is_Some (intervals_map c !! n) → declared_interval (variables request) n)
    as Hinterval.
  { intros n Hn. apply interval_loop_keeps in Hvars as (_ & Hdom & _).
    apply elem_of_dom in Hn. rewrite Hdom in Hn.
    apply elem_of_list_to_set, list_elem_of_fmap in Hn as (v & -> & Hv).
    apply list_elem_of_filter in Hv as [Htype Hv]. by exists v. }
  assert (∀ ts, resolved (vars_map c) ts →
            ∀ t, t ∈ ts → declared_scalar (variables request) (var t)) as Hterms.
  { intros ts Hts t Ht. apply Hscalar. unfold resolved in Hts.
    rewrite Forall_forall in Hts. by apply Hts. }
  assert (∀ names, present (vars_map c) names →
            ∀ n, n ∈ names → declared_scalar (variables request) n) as Hnames.
  { intros names Hp n Hn. apply Hscalar. by eapply present_elem. }
  split.
  - intros constraint Hin.
    destruct (for_in_all_ok _ _ _ _ constraint Hcs Hin) as ([[[m pens] tracked] i] & s2 & Hrun).
    unfold compile_constraint in Hrun.
    destruct (c_type constraint); apply bind_Ok in Hrun as (r & Hhandler & _).
    + apply add_linear_constraint_inv in Hhandler as (ts & Hts & Hres).
      apply truthy_Some in Hts as [Hts Hne]. exists ts. split_and!; try done. by apply Hterms.
    + destruct r as [[m' pens'] tracked'].
      apply add_soft_linear_constraint_inv in Hhandler
        as (ts & op & rhs & penalty & Hts & _ & _ & _ & _ & _ & Hres).
      apply truthy_Some in Hts as [Hts Hne]. exists ts. split_and!; try done. by apply Hterms.
    + apply boolean_list_handler_inv in Hhandler as (names & Hts & Hp).
      apply truthy_Some in Hts as [Hts Hne]. exists names. split_and!; try done.
      by apply Hnames.
    + apply boolean_list_handler_inv in Hhandler as (names & Hts & Hp).
      apply truthy_Some in Hts as [Hts Hne]. exists names. split_and!; try done.
      by apply Hnames.
    + apply add_implication_inv in Hhandler as (a & b & Ha & Hb & Hsa & Hsb).
      exists a, b. split_and!; try done; by apply Hscalar.
    + apply boolean_list_handler_inv in Hhandler as (names & Hts & Hp).
      apply truthy_Some in Hts as [Hts Hne]. exists names. split_and!; try done.
      by apply Hnames.
    + apply boolean_list_handler_inv in Hhandler as (names & Hts & Hp).
      apply truthy_Some in Hts as [Hts Hne]. exists names. split_and!; try done.
      by apply Hnames.
    + apply boolean_list_handler_inv in Hhandler as (names & Hts & Hp).
      apply truthy_Some in Hts as [Hts Hne]. exists names. split_and!; try done.
      intros n Hn. apply Hinterval. by eapply present_elem.
  - intros o t Ho Ht. unfold _build_objective in Hobj. rewrite Ho in Hobj.
    apply bind_Ok in Hobj as (es & Hes & _). apply term_exprs_resolved in Hes.
    by eapply Hterms.
Qed.

End references.

Lemma compiled_references_are_declared_witness :
  (∀ constraint, constraint ∈ constraints Demo.coverage_request →
     match c_type constraint with
     | linear | soft_linear =>
         ∃ ts, c_terms constraint = Some ts ∧ ts ≠ [] ∧
           ∀ t, t ∈ ts → declared_scalar (variables Demo.coverage_request) (var t)
     | exactly_one | at_most_one | bool_or | bool_and =>
         ∃ names, c_vars constraint = Some names ∧ names ≠ [] ∧
           ∀ n, n ∈ names → declared_scalar (variables Demo.coverage_request) n
     | implication =>
         ∃ i t, c_if constraint = Some i ∧ c_then constraint = Some t ∧
           declared_scalar (variables Demo.coverage_request) i ∧
           declared_scalar (variables Demo.coverage_request) t
     | no_overlap =>
         ∃ names, c_intervals constraint = Some names ∧ names ≠ [] ∧
           ∀ n, n ∈ names → declared_interval (variables Demo.coverage_request) n
     end)
  ∧
  (∀ o t, objective Demo.coverage_request = Some o → t ∈ obj_terms o →
     declared_scalar (variables Demo.coverage_request) (var t)).
Proof.
  apply (compiled_references_are_declared (H := Demo.runtime) Demo.coverage_request
    Demo.coverage_compiled).
  vm_compute. reflexivity.
Defined.

(** ** Sums of expressions *)

(** [_sum_expr] returns [None] exactly for the empty list, and otherwise an
    expression whose value under any assignment is the sum of the values of
    the expressions of the list. *)
Theorem sum_expr_is_the_sum es :
  (_sum_expr es = None ↔ es = []) ∧
  ∀ e val, _sum_expr es = Some e → cp_model.eval val e = sum_eval val es.
Proof.
  split; [apply sum_expr_None|]. intros e val He. by apply sum_expr_eval.
Qed.

Lemma sum_expr_is_the_sum_witness :
  (_sum_expr [cp_model.Var 0%nat; cp_model.Const 2; cp_model.Mul (cp_model.Var 1%nat) 3] = None
     ↔ [cp_model.Var 0%nat; cp_model.Const 2; cp_model.Mul (cp_model.Var 1%nat) 3] = []) ∧
  cp_model.eval (fun i => Z.of_nat i + 5)
    (cp_model.Plus (cp_model.Plus (cp_model.Var 0%nat) (cp_model.Const 2))
       (cp_model.Mul (cp_model.Var 1%nat) 3))
  = sum_eval (fun i => Z.of_nat i + 5)
      [cp_model.Var 0%nat; cp_model.Const 2; cp_model.Mul (cp_model.Var 1%nat) 3].
Proof.
  destruct (sum_expr_is_the_sum
    [cp_model.Var 0%nat; cp_model.Const 2; cp_model.Mul (cp_model.Var 1%nat) 3])
    as [Hnone Hsum].
  split; [exact Hnone|]. apply Hsum. reflexivity.
Defined.

(** ** Where the slack variables are *)

Lemma slack_positions_snoc_hard m0 pre vars constraint :
  ¬ is_soft constraint → slack_positions m0 pre vars →
  slack_positions m0 (pre ++ [constraint]) vars.
Proof.
  intros Hhard Hpos i c Hi Hsoft. apply lookup_app_Some in Hi as [Hi|[Hlen Hi]].
  - pose proof (lookup_lt_Some _ _ _ Hi) as Hlt.
    rewrite take_app_le by lia. by apply Hpos.
  - apply list_lookup_singleton_Some in Hi as [_ <-]. done.
Qed.

Lemma slack_positions_snoc_soft m0 pre vars constraint d :
  length vars = (length (cp_model.variables m0) + length (filter is_soft pre))%nat →
  cp_model.domain_lb d = 0 →
  cp_model.name d
    = "violation_" +:+ or_ (c_id constraint) ("soft_" +:+ pretty (length (filter is_soft pre))) →
  slack_positions m0 pre vars →
  slack_positions m0 (pre ++ [constraint]) (vars ++ [d]).
Proof.
  intros Hlen Hlb Hname Hpos i c Hi Hsoft. apply lookup_app_Some in Hi as [Hi|[Hge Hi]].
  - pose proof (lookup_lt_Some _ _ _ Hi) as Hlt.
    rewrite take_app_le by lia. destruct (Hpos i c Hi Hsoft) as (d' & Hd' & Hrest).
    exists d'. split; [|done]. by apply lookup_app_l_Some.
  - apply list_lookup_singleton_Some in Hi as [Hi <-].
    assert (i = length pre) as -> by lia.
    rewrite take_app_length. exists d. split_and!; try done.
    apply lookup_app_Some. right. split; [lia|]. rewrite Hlen. by rewrite Nat.sub_diag.
Qed.

Lemma compile_constraint_slack vars_map intervals_map bounds m0 pre st constraint st' :
  slack_inv vars_map m0 pre st →
  compile_constraint vars_map intervals_map bounds st constraint = Ok st' →
  slack_inv vars_map m0 (pre ++ [constraint]) st'.
Proof.
  intros [Hshape Hpos] Hrun.
  split; [by eapply compile_constraint_shape|].
  destruct st as [[[m pens] tracked] index]. simpl in Hpos.
  destruct Hshape as (_ & _ & _ & Hidx & Hvars & _).
  unfold compile_constraint in Hrun.
  destruct (c_type constraint) eqn:Htype;
    apply bind_Ok in Hrun as (r & Hhandler & Hrun).
  2: { destruct r as [[m' pens'] tracked']. injection Hrun as <-. simpl.
       destruct (add_soft_linear_constraint_inv _ _ _ _ _ _ _ _ Hhandler)
         as (ts & op & rhs & penalty & Hts & Hop & Hne & Hrhs & Hpen & Hb & Hv).
       destruct (add_soft_linear_constraint_ok m constraint vars_map bounds pens tracked
         index ts op rhs penalty Hts Hop Hne Hrhs Hpen Hb Hv) as (expr & _ & Hok).
       simpl in Hok. rewrite Hok in Hhandler. injection Hhandler as <- <- <-.
       unfold with_slack. simpl.
       apply slack_positions_snoc_soft; try done; [lia|]. simpl. by rewrite Hidx. }
  all: injection Hrun as <-; simpl;
    assert (¬ is_soft constraint) as Hhard by (unfold is_soft; by rewrite Htype).
  - apply add_linear_constraint_adds_one in Hhandler as [c ->].
    by apply slack_positions_snoc_hard.
  - apply add_exactly_one_adds_one in Hhandler as [c ->].
    by apply slack_positions_snoc_hard.
  - apply add_at_most_one_adds_one in Hhandler as [c ->].
    by apply slack_positions_snoc_hard.
  - apply add_implication_adds_one in Hhandler as [c ->].
    by apply slack_positions_snoc_hard.
  - apply add_bool_or_adds_one in Hhandler as [c ->].
    by apply slack_positions_snoc_hard.
  - apply add_bool_and_adds_one in Hhandler as [c ->].
    by apply slack_positions_snoc_hard.
  - apply add_no_overlap_adds_one in Hhandler as [c ->].
    by apply slack_positions_snoc_hard.
Qed.

Lemma constraint_loop_slack vars_map intervals_map bounds m0 cs st' :
  for_in (compile_constraint vars_map intervals_map bounds) (m0, [], [], 0%nat) cs = Ok st' →
  slack_inv vars_map m0 cs st'.
Proof.
  apply (for_in_invariant_prefix (slack_inv vars_map m0)).
  - intros pre c s s' _. apply compile_constraint_slack.
  - split.
    + unfold shape_inv. simpl. split_and!; try done; lia.
    + intros i c Hi. by rewrite lookup_nil in Hi.
Qed.

Lemma interval_loop_inv_length pre m vars_map intervals_map :
  interval_loop_inv pre (m, vars_map, intervals_map) →
  length (cp_model.variables m) = declared_position pre (length pre).
Proof.
  intros (_ & _ & _ & Hnv & Hcd & _). unfold declared_position.
  by rewrite firstn_all, <- Hcd, size_dom.
Qed.

(** ** Which constraint a tracked constraint stands for *)

Lemma tracked_at_snoc m0 pre constraint t :
  tracked_at m0 pre t → tracked_at m0 (pre ++ [constraint]) t.
Proof.
  intros (i & c & Hi & Hrest). pose proof (lookup_lt_Some _ _ _ Hi) as Hlt.
  exists i, c. rewrite take_app_le by lia. split; [|done]. by apply lookup_app_l_Some.
Qed.

Lemma compile_constraint_tracked_at vars_map intervals_map bounds m0 pre st constraint st' :
  shape_inv vars_map m0 pre st → Forall (tracked_at m0 pre) st.1.2 →
  compile_constraint vars_map intervals_map bounds st constraint = Ok st' →
  Forall (tracked_at m0 (pre ++ [constraint])) st'.1.2.
Proof.
  intros Hshape Htracked Hrun. destruct st as [[[m pens] tracked] index]. simpl in Htracked.
  destruct Hshape as (_ & _ & _ & Hidx & Hvars & _).
  assert (Forall (tracked_at m0 (pre ++ [constraint])) tracked) as Hold.
  { eapply Forall_impl; [done|]. intros t. apply tracked_at_snoc. }
  unfold compile_constraint in Hrun.
  destruct (c_type constraint) eqn:Htype;
    apply bind_Ok in Hrun as (r & Hhandler & Hrun).
  2: { destruct r as [[m' pens'] tracked']. injection Hrun as <-. simpl.
       destruct (add_soft_linear_constraint_inv _ _ _ _ _ _ _ _ Hhandler)
         as (ts & op & rhs & penalty & Hts & Hop & Hne & Hrhs & Hpen & Hb & Hv).
       destruct (add_soft_linear_constraint_ok m constraint vars_map bounds pens tracked
         index ts op rhs penalty Hts Hop Hne Hrhs Hpen Hb Hv) as (expr & _ & Hok).
       simpl in Hok. rewrite Hok in Hhandler. injection Hhandler as <- <- <-.
       apply Forall_app. split; [done|].
       unfold soft_tracked. case_bool_decide; [|by constructor].
       destruct (c_id constraint) as [id|] eqn:Hid; [|by constructor].
       constructor; [|by constructor].
       exists (length pre), constraint. rewrite take_app_length. simpl.
       rewrite <- Hidx, Hid. split_and!; try done.
       rewrite lookup_app_r by done. by rewrite Nat.sub_diag. }
  all: by injection Hrun as <-.
Qed.

Lemma constraint_loop_tracked_at vars_map intervals_map bounds m0 cs st' :
  for_in (compile_constraint vars_map intervals_map bounds) (m0, [], [], 0%nat) cs = Ok st' →
  Forall (tracked_at m0 cs) st'.1.2.
Proof.
  intros Hrun.
  cut (shape_inv vars_map m0 cs st' ∧ Forall (tracked_at m0 cs) st'.1.2); [by intros [_ ?]|].
  revert Hrun.
  apply (for_in_invariant_prefix
    (fun pre st => shape_inv vars_map m0 pre st ∧ Forall (tracked_at m0 pre) st.1.2)).
  - intros pre c s s' _ [Hshape Htracked] Hstep. split.
    + by eapply compile_constraint_shape.
    + by eapply compile_constraint_tracked_at.
  - split; [|by constructor]. unfold shape_inv. simpl. split_and!; try done; lia.
Qed.

Section consistent_records.
Context `{PyRuntime} `{cp_model.StatusCodes}.

(** The numbers of a violation record fit the constraint it is reported for.
    A record stems from the soft-linear constraint at some position of the
    request, which carries an identifier: with [k] soft-linear constraints
    before that position, the record has the identifier of the constraint (or
    ["soft_k"] for the empty identifier) and its target, its actual value is
    the value of the terms of that constraint, and its violation amount is
    the value of the slack variable of that constraint, which is positive.
    When the assignment of the oracle satisfies the linear constraints of the
    model, a record for a constraint with comparator [<=] has
    [actualValue <= targetValue + violationAmount], and one for [>=] has
    [actualValue + violationAmount >= targetValue]. *)
Theorem violation_record_fits_the_constraint request oracle c solver vs r :
  compile request = Ok c →
  oracle (model c) (parameters request) = Ok solver →
  (∀ b, cp_model.Linear b ∈ cp_model.constraints (model c) →
        cp_model.holds (cp_model.value solver) b) →
  softViolations (solve_request request oracle) = Some vs →
  r ∈ vs →
  0 < violationAmount r ∧
  ∃ i constraint ts op,
    constraints request !! i = Some constraint ∧ c_type constraint = soft_linear ∧
    is_Some (c_id constraint) ∧
    constraintId r
      = or_ (c_id constraint)
          ("soft_" +:+ pretty (length (filter is_soft (take i (constraints request))))) ∧
    c_terms constraint = Some ts ∧
    c_op constraint = Some op ∧ c_rhs constraint = Some (targetValue r) ∧
    actualValue r = lhs_value (vars_map c) (cp_model.value solver) ts ∧
    violationAmount r
      = cp_model.value solver
          (length (filter scalar (variables request))
           + size (interval_constants (variables request))
           + length (filter is_soft (take i (constraints request))))%nat ∧
    match op with
    | op_le => actualValue r <= targetValue r + violationAmount r
    | op_ge => actualValue r + violationAmount r >= targetValue r
    | op_eq => False
    end.
Proof.
  intros Hc Ho Hsat Hvs Hr.
  destruct (reported_violation_origin request oracle vs r Hvs Hr)
    as (c' & solver' & t & Hc' & Ho' & _ & Ht & Hpos & ->).
  assert (c' = c) as -> by congruence. assert (solver' = solver) as -> by congruence.
  split; [done|].
  destruct (compile_tracked request c Hc) as (m0' & _ & _ & _ & Htracked).
  rewrite Forall_forall in Htracked.
  destruct (Htracked t Ht) as (constraint' & index & penalty & d & _ & _ & _ & _
    & _ & _ & Hne & _ & _ & _ & Hres & _).
  destruct (compile_shape request c Hc)
    as (m0 & m1 & index' & Hint & (_ & _ & _ & _ & _ & _ & _ & Hasserted) & Hmodel & _).
  rewrite Forall_forall in Hasserted. destruct (Hasserted t Ht) as (expr & Hexpr & Hmember).
  assert (cp_model.constraints (model c) = cp_model.constraints m1) as Hcons.
  { by destruct Hmodel as [[_ ->]|[_ (s & e & ->)]]. }
  rewrite <- Hcons in Hmember. apply Hsat in Hmember.
  destruct (sum_terms_ok (vars_map c) (terms t) Hres) as (expr' & Hexpr' & Heval).
  assert (expr' = expr) as -> by congruence.
  destruct (compile_stages request c Hc) as (m0'' & m1' & index'' & _ & Hvars & Hcs & _).
  pose proof (interval_loop_keeps _ _ Hvars) as Hint'.
  apply interval_loop_inv_length in Hint'.
  apply constraint_loop_tracked_at in Hcs. simpl in Hcs.
  rewrite Forall_forall in Hcs.
  destruct (Hcs t Ht) as (i & constraint & Hi & Hsoft & Hid & Hname & Hvar & Hts & Hop & Hrhs).
  apply truthy_Some in Hts as [Hts _].
  exists i, constraint, (terms t), (comparator t). split_and!; try done.
  - simpl. rewrite Hvar, Hint'. unfold declared_position. by rewrite firstn_all.
  - simpl. destruct (comparator t); simpl in Hmember; rewrite ?Heval in Hmember;
      [lia|lia|done].
Qed.

End consistent_records.

Lemma violation_record_fits_the_constraint_witness :
  0 < violationAmount Demo.coverage_violation ∧
  ∃ i constraint ts op,
    constraints Demo.coverage_request !! i = Some constraint ∧
    c_type constraint = soft_linear ∧
    is_Some (c_id constraint) ∧
    constraintId Demo.coverage_violation
      = or_ (c_id constraint)
          ("soft_" +:+ pretty (length (filter is_soft
                                         (take i (constraints Demo.coverage_request))))) ∧
    c_terms constraint = Some ts ∧
    c_op constraint = Some op ∧
    c_rhs constraint = Some (targetValue Demo.coverage_violation) ∧
    actualValue Demo.coverage_violation
      = lhs_value (vars_map Demo.coverage_compiled) Demo.zero_then_one ts ∧
    violationAmount Demo.coverage_violation
      = Demo.zero_then_one
          (length (filter scalar (variables Demo.coverage_request))
           + size (interval_constants (variables Demo.coverage_request))
           + length (filter is_soft (take i (constraints Demo.coverage_request))))%nat ∧
    match op with
    | op_le => actualValue Demo.coverage_violation
               <= targetValue Demo.coverage_violation + violationAmount Demo.coverage_violation
    | op_ge => actualValue Demo.coverage_violation + violationAmount Demo.coverage_violation
               >= targetValue Demo.coverage_violation
    | op_eq => False
    end.
Proof.
  apply (violation_record_fits_the_constraint (H := Demo.runtime) (H0 := Demo.codes)
    Demo.coverage_request (Demo.answer 4 "" Demo.zero_then_one) Demo.coverage_compiled
    (Demo.solved 4 "" Demo.zero_then_one) [Demo.coverage_violation] Demo.coverage_violation).
  - vm_compute. reflexivity.
  - reflexivity.
  - intros b Hb. simpl in Hb.
    apply elem_of_cons in Hb as [Hb|Hb]; [injection Hb as ->; vm_compute; reflexivity|].
    apply list_elem_of_singleton in Hb. injection Hb as ->. vm_compute. discriminate.
  - vm_compute. reflexivity.
  - apply list_elem_of_here.
Defined.

Section slack_variables.
Context `{PyRuntime} `{cp_model.StatusCodes}.

(** The slack variable of each soft-linear constraint of a compiled request:
    for the soft-linear constraint at position [i], with [k] soft-linear
    constraints before it, the slack variable is the [k]-th model variable
    after those of the declarations, which are one per declared boolean or
    integer variable and one constant per value that is the start or the end
    of a declared interval; its lower bound is 0 and its name is
    ["violation_"] followed by the identifier of the constraint, or by
    ["soft_k"] when the identifier is absent or empty: the index counts the
    soft-linear constraints only. *)
Theorem slack_variable_of_each_soft_constraint request c i constraint :
  compile request = Ok c →
  constraints request !! i = Some constraint →
  c_type constraint = soft_linear →
  let k := length (filter is_soft (take i (constraints request))) in
  let declared :=
    (length (filter scalar (variables request))
     + size (interval_constants (variables request)))%nat in
  ∃ d,
    cp_model.variables (model c) !! (declared + k)%nat = Some d ∧
    cp_model.domain_lb d = 0 ∧
    cp_model.name d = "violation_" +:+ or_ (c_id constraint) ("soft_" +:+ pretty k).
Proof.
  intros Hc Hi Hsoft. destruct (compile_stages request c Hc)
    as (m0 & m1 & index & _ & Hvars & Hcs & Hobj).
  apply interval_loop_keeps in Hvars as (_ & _ & _ & Hnv & Hcd & _).
  apply constraint_loop_slack in Hcs as [_ Hpos]. simpl in Hpos.
  apply build_objective_variables in Hobj. rewrite Hobj, <- Hcd, size_dom, <- Hnv.
  by apply Hpos.
Qed.

End slack_variables.

Lemma slack_variable_of_each_soft_constraint_witness :
  ∃ c, compile (H := Demo.runtime) Demo.adjacent_request = Ok c ∧
    ∃ d, cp_model.variables (model c) !! 4%nat = Some d ∧
      cp_model.domain_lb d = 0 ∧
      cp_model.name d = "violation_soft_0".
Proof.
  destruct (compile (H := Demo.runtime) Demo.adjacent_request) as [c|e] eqn:Hc.
  - exists c. split; [reflexivity|].
    destruct (slack_variable_of_each_soft_constraint (H := Demo.runtime)
      Demo.adjacent_request c 0%nat
      (Demo.soft_c [ {| var := "x"; coeff := 1 |} ] op_le 0 7 None) Hc eq_refl eq_refl)
      as (d & Hd & Hlb & Hname).
    exists d. split; [|split; [exact Hlb|]].
    + etrans; [|exact Hd]. f_equal.
    + rewrite Hname. vm_compute. reflexivity.
  - vm_compute in Hc. discriminate Hc.
Defined.

(** ** Variables declared under the same name *)

Lemma declared_position_snoc pre x i :
  (i ≤ length pre)%nat → declared_position (pre ++ [x]) i = declared_position pre i.
Proof. intros Hi. unfold declared_position. by rewrite take_app_le. Qed.

Lemma last_named_snoc pre x i n :
  (i < length pre)%nat → last_named pre i n → (scalar x → var_name x ≠ n) →
  last_named (pre ++ [x]) i n.
Proof.
  intros Hi Hlast Hx j u Hj Hu Hscalar. apply lookup_app_Some in Hu as [Hu|[Hge Hu]].
  - by eapply Hlast.
  - apply list_lookup_singleton_Some in Hu as [_ <-]. by apply Hx.
Qed.

Lemma position_inv_snoc_scalar pre m vars_map intervals_map intervals_map' v d :
  scalar v → created_for v d →
  length (cp_model.variables m ++ [d])
    = declared_position (pre ++ [v]) (length (pre ++ [v])) →
  position_inv pre (m, vars_map, intervals_map) →
  position_inv (pre ++ [v])
    ({| cp_model.variables := cp_model.variables m ++ [d];
        cp_model.intervals := cp_model.intervals m;
        cp_model.constraints := cp_model.constraints m;
        cp_model.objective := cp_model.objective m;
        cp_model.constant_map := cp_model.constant_map m |},
     <[var_name v := length (cp_model.variables m)]> vars_map, intervals_map').
Proof.
  intros Hscalar Hd Hlen' (Hlen & Hpos & Hmap). unfold position_inv. simpl. split_and!.
  - done.
  - intros i u Hi Hu. apply lookup_app_Some in Hi as [Hi|[Hge Hi]].
    + pose proof (lookup_lt_Some _ _ _ Hi) as Hlt.
      rewrite declared_position_snoc by lia.
      destruct (Hpos i u Hi Hu) as (d' & Hd' & Hcr). exists d'. split; [|done].
      by apply lookup_app_l_Some.
    + apply list_lookup_singleton_Some in Hi as [Hi <-].
      assert (i = length pre) as -> by lia.
      rewrite declared_position_snoc by lia. rewrite <- Hlen. exists d. split; [|done].
      apply lookup_app_Some. right. split; [done|]. by rewrite Nat.sub_diag.
  - intros n h Hn. destruct (decide (var_name v = n)) as [<-|Hne].
    + rewrite lookup_insert_eq in Hn. injection Hn as <-.
      exists (length pre), v. split_and!; try done.
      * rewrite lookup_app_r by done. by rewrite Nat.sub_diag.
      * rewrite declared_position_snoc by lia. done.
      * intros j u Hj Hu. apply lookup_lt_Some in Hu. rewrite length_app in Hu.
        simpl in Hu. lia.
    + rewrite lookup_insert_ne in Hn by done.
      destruct (Hmap n h Hn) as (i & u & Hi & Hu & Hname & -> & Hlast).
      pose proof (lookup_lt_Some _ _ _ Hi) as Hlt.
      exists i, u. split_and!; try done.
      * by apply lookup_app_l_Some.
      * by rewrite declared_position_snoc by lia.
      * by apply last_named_snoc.
Qed.

Lemma position_inv_snoc_interval pre m m' vars_map intervals_map intervals_map' v :
  ¬ scalar v →
  cp_model.variables m `prefix_of` cp_model.variables m' →
  length (cp_model.variables m') = declared_position (pre ++ [v]) (length (pre ++ [v])) →
  position_inv pre (m, vars_map, intervals_map) →
  position_inv (pre ++ [v]) (m', vars_map, intervals_map').
Proof.
  intros Hns [more Hmore] Hlen' (Hlen & Hpos & Hmap). unfold position_inv. split_and!.
  - done.
  - intros i u Hi Hu. apply lookup_app_Some in Hi as [Hi|[Hge Hi]].
    + pose proof (lookup_lt_Some _ _ _ Hi) as Hlt.
      rewrite declared_position_snoc by lia.
      destruct (Hpos i u Hi Hu) as (d' & Hd' & Hcr). exists d'. split; [|done].
      rewrite Hmore. by apply lookup_app_l_Some.
    + apply list_lookup_singleton_Some in Hi as [_ <-]. done.
  - intros n h Hn. destruct (Hmap n h Hn) as (i & u & Hi & Hu & Hname & -> & Hlast).
    pose proof (lookup_lt_Some _ _ _ Hi) as Hlt.
    exists i, u. split_and!; try done.
    + by apply lookup_app_l_Some.
    + by rewrite declared_position_snoc by lia.
    + by apply last_named_snoc.
Qed.

Lemma create_variable_position_inv pre st v st' :
  interval_loop_inv pre st → position_inv pre st → create_variable st v = Ok st' →
  position_inv (pre ++ [v]) st'.
Proof.
  intros Hint Hinv Hrun.
  pose proof (create_variable_interval_inv pre st v st' Hint Hrun) as Hint'.
  destruct st as [[m vars_map] intervals_map].
  destruct st' as [[m' vars_map'] intervals_map'].
  apply interval_loop_inv_length in Hint'.
  destruct (var_type v) eqn:Htype.
  - unfold create_variable in Hrun. rewrite Htype in Hrun. injection Hrun as <- <- <-.
    apply position_inv_snoc_scalar with (intervals_map := intervals_map);
      [by unfold scalar; rewrite Htype| |done..].
    unfold created_for. by rewrite Htype.
  - unfold create_variable in Hrun. rewrite Htype in Hrun.
    destruct (var_min v) as [lo|] eqn:Hlo; [|done].
    destruct (var_max v) as [hi|] eqn:Hhi; [|done].
    injection Hrun as <- <- <-.
    apply position_inv_snoc_scalar with (intervals_map := intervals_map);
      [by unfold scalar; rewrite Htype| |done..].
    unfold created_for. by rewrite Htype, Hlo, Hhi.
  - assert (¬ scalar v) as Hns by (unfold scalar; rewrite Htype; auto).
    apply create_variable_interval_frame in Hrun as [-> Hprefix]; [|done].
    by apply position_inv_snoc_interval with (m := m) (intervals_map := intervals_map).
Qed.

Lemma variable_loop_positions vs st :
  for_in create_variable (cp_model.new, ∅, ∅) vs = Ok st → position_inv vs st.
Proof.
  intros Hrun.
  cut (interval_loop_inv vs st ∧ position_inv vs st); [by intros [_ ?]|].
  revert Hrun.
  apply (for_in_invariant_prefix (fun pre st => interval_loop_inv pre st ∧ position_inv pre st)).
  - intros pre v s s' _ [Hint Hpos] Hstep. split.
    + by eapply create_variable_interval_inv.
    + by eapply create_variable_position_inv.
  - split.
    + by apply (interval_loop_keeps [] (cp_model.new, ∅, ∅)).
    + unfold position_inv. simpl. split_and!; [done|..].
      * intros i v Hi. by rewrite lookup_nil in Hi.
      * intros n h Hn. by rewrite lookup_empty in Hn.
Qed.

(** Every declared boolean or integer variable gets a model variable of its
    own, at the position of its declaration (after one model variable per
    boolean or integer variable declared before it and one constant per
    value that is the start or the end of an interval declared before it),
    also when names repeat; a name of [vars_map] leads to the model variable
    of the last boolean or integer declaration of that name, so the earlier
    ones stay in the model without a name leading to them. *)
Theorem last_declaration_of_a_name_wins vs m vars_map intervals_map :
  for_in create_variable (cp_model.new, ∅, ∅) vs = Ok (m, vars_map, intervals_map) →
  (∀ i v, vs !! i = Some v → var_type v ≠ type_interval →
     ∃ d, cp_model.variables m !! declared_position vs i = Some d ∧
       cp_model.name d = var_name v ∧
       match var_type v with
       | type_bool => cp_model.domain_lb d = 0 ∧ cp_model.domain_ub d = 1
       | type_int =>
           var_min v = Some (cp_model.domain_lb d) ∧ var_max v = Some (cp_model.domain_ub d)
       | type_interval => False
       end)
  ∧
  (∀ n h, vars_map !! n = Some h →
     ∃ i v, vs !! i = Some v ∧ var_type v ≠ type_interval ∧ var_name v = n ∧
       h = declared_position vs i ∧
       ∀ j u, (i < j)%nat → vs !! j = Some u → var_type u ≠ type_interval →
         var_name u ≠ n).
Proof.
  intros Hrun. apply variable_loop_positions in Hrun as (_ & Hpos & Hmap). split.
  - intros i v Hi Hv. destruct (Hpos i v Hi Hv) as (d & Hd & Hname & Hdom). by exists d.
  - intros n h Hn. destruct (Hmap n h Hn) as (i & v & Hi & Hv & Hname & -> & Hlast).
    by exists i, v.
Qed.

Lemma last_declaration_of_a_name_wins_witness :
  ∃ m vars_map intervals_map,
    for_in create_variable (cp_model.new, ∅, ∅)
      [ Demo.interval_var "a" 0 5 5 None; Demo.bool_var "x";
        Demo.interval_var "b" 5 10 5 None; Demo.int_var "x" 2 7 ]
      = Ok (m, vars_map, intervals_map) ∧
    (∃ d, cp_model.variables m !! 2%nat = Some d ∧
       cp_model.name d = "x" ∧ cp_model.domain_lb d = 0 ∧ cp_model.domain_ub d = 1) ∧
    (∃ d, cp_model.variables m !! 4%nat = Some d ∧
       cp_model.name d = "x" ∧
       Some 2 = Some (cp_model.domain_lb d) ∧ Some 7 = Some (cp_model.domain_ub d)).
Proof.
  destruct (for_in create_variable (cp_model.new, ∅, ∅)
      [ Demo.interval_var "a" 0 5 5 None; Demo.bool_var "x";
        Demo.interval_var "b" 5 10 5 None; Demo.int_var "x" 2 7 ])
    as [[[m vars_map] intervals_map]|e] eqn:Hloop.
  - exists m, vars_map, intervals_map. split; [reflexivity|].
    destruct (last_declaration_of_a_name_wins _ m vars_map intervals_map Hloop)
      as [Hpos _].
    split.
    + apply (Hpos 1%nat (Demo.bool_var "x")); [reflexivity|discriminate].
    + apply (Hpos 3%nat (Demo.int_var "x" 2 7)); [reflexivity|discriminate].
  - vm_compute in Hloop. discriminate Hloop.
Defined.

(** ** No-overlap constraints *)

(** The no-overlap handler resolves its names through the interval map
    alone: a missing or empty list raises its [ValueError]; the first name
    that is not a key of the interval map raises [KeyError] with that name,
    whatever the map of the boolean and integer variables holds; and on a
    non-empty list of interval names it adds exactly one constraint, over the
    intervals of the names in the order of the names. *)
Theorem no_overlap_constraint model constraint intervals_map :
  (truthy (c_intervals constraint) = None →
   _add_no_overlap model constraint intervals_map
   = Raise (ValueError "NoOverlap constraint requires intervals"))
  ∧
  (∀ pre n post,
     c_intervals constraint = Some (pre ++ n :: post) →
     present intervals_map pre → intervals_map !! n = None →
     _add_no_overlap model constraint intervals_map = Raise (KeyError n))
  ∧
  (∀ names,
     truthy (c_intervals constraint) = Some names → present intervals_map names →
     ∃ ivs,
       Forall2 (fun n iv => intervals_map !! n = Some iv) names ivs ∧
       _add_no_overlap model constraint intervals_map
       = Ok {| cp_model.variables := cp_model.variables model;
               cp_model.intervals := cp_model.intervals model;
               cp_model.constraints :=
                 cp_model.constraints model ++ [cp_model.NoOverlap ivs];
               cp_model.objective := cp_model.objective model;
               cp_model.constant_map := cp_model.constant_map model |}).
Proof.
  unfold _add_no_overlap. split_and!.
  - by intros ->.
  - intros pre n post Hnames Hpre Hn.
    assert (truthy (c_intervals constraint) = Some (pre ++ n :: post)) as ->.
    { rewrite Hnames. by destruct pre. }
    by rewrite (subscripts_raises_at intervals_map pre n post Hpre Hn).
  - intros names Hnames Hpresent.
    destruct (subscripts_ok intervals_map names Hpresent) as (ivs & Hivs & Hall).
    exists ivs. split; [done|]. by rewrite Hnames, Hivs.
Qed.

Lemma no_overlap_constraint_witness :
  _add_no_overlap cp_model.new
    {| c_type := no_overlap; c_terms := None; c_op := None; c_rhs := None;
       c_penalty := None; c_vars := Some ["a"]; c_intervals := None;
       c_if := None; c_then := None; c_id := None |} ∅
    = Raise (ValueError "NoOverlap constraint requires intervals")
  ∧
  _add_no_overlap cp_model.new
    {| c_type := no_overlap; c_terms := None; c_op := None; c_rhs := None;
       c_penalty := None; c_vars := None; c_intervals := Some ([] ++ "x" :: ["i"]);
       c_if := None; c_then := None; c_id := None |} ∅
    = Raise (KeyError "x")
  ∧
  ∃ ivs,
    Forall2 (fun n iv =>
      ({[ "i" := {| cp_model.interval_start := 1%nat; cp_model.interval_size := 5;
                    cp_model.interval_end := 2%nat; cp_model.interval_presence := None;
                    cp_model.interval_name := "i" |} ]}
         : gmap string cp_model.IntervalVar) !! n = Some iv) ["i"] ivs ∧
    _add_no_overlap cp_model.new
      {| c_type := no_overlap; c_terms := None; c_op := None; c_rhs := None;
         c_penalty := None; c_vars := None; c_intervals := Some ["i"];
         c_if := None; c_then := None; c_id := None |}
      {[ "i" := {| cp_model.interval_start := 1%nat; cp_model.interval_size := 5;
                    cp_model.interval_end := 2%nat; cp_model.interval_presence := None;
                    cp_model.interval_name := "i" |} ]}
    = Ok {| cp_model.variables := []; cp_model.intervals := [];
            cp_model.constraints := [] ++ [cp_model.NoOverlap ivs];
            cp_model.objective := None;
            cp_model.constant_map := ∅ |}.
Proof.
  split_and!.
  - apply (proj1 (no_overlap_constraint cp_model.new
      {| c_type := no_overlap; c_terms := None; c_op := None; c_rhs := None;
         c_penalty := None; c_vars := Some ["a"]; c_intervals := None;
         c_if := None; c_then := None; c_id := None |} ∅)). reflexivity.
  - apply (proj1 (proj2 (no_overlap_constraint cp_model.new
      {| c_type := no_overlap; c_terms := None; c_op := None; c_rhs := None;
         c_penalty := None; c_vars := None; c_intervals := Some ([] ++ "x" :: ["i"]);
         c_if := None; c_then := None; c_id := None |} ∅)) [] "x" ["i"]);
      [reflexivity|constructor|reflexivity].
  - apply (proj2 (proj2 (no_overlap_constraint cp_model.new
      {| c_type := no_overlap; c_terms := None; c_op := None; c_rhs := None;
         c_penalty := None; c_vars := None; c_intervals := Some ["i"];
         c_if := None; c_then := None; c_id := None |}
      {[ "i" := {| cp_model.interval_start := 1%nat; cp_model.interval_size := 5;
                    cp_model.interval_end := 2%nat; cp_model.interval_presence := None;
                    cp_model.interval_name := "i" |} ]})) ["i"]); [reflexivity|].
    repeat constructor. vm_compute. eexists. reflexivity.
Defined.

(** ** Declared bounds and the order of minimum and maximum *)

Lemma last_named_unique vs i j u w n :
  vs !! i = Some u → scalar u → var_name u = n → last_named vs i n →
  vs !! j = Some w → scalar w → var_name w = n → last_named vs j n →
  i = j.
Proof.
  intros Hi Hu Hun Hli Hj Hw Hwn Hlj.
  destruct (Nat.lt_trichotomy i j) as [Hlt|[->|Hgt]]; [|done|].
  - by destruct (Hli j w Hlt Hj Hw).
  - by destruct (Hlj i u Hgt Hi Hu).
Qed.

Lemma bounds_last_inv_snoc_scalar pre bounds v b :
  scalar v → declared_bounds v b → bounds_last_inv pre bounds →
  bounds_last_inv (pre ++ [v]) (<[var_name v := b]> bounds).
Proof.
  intros Hscalar Hb Hinv n b' Hn. destruct (decide (var_name v = n)) as [<-|Hne].
  - rewrite lookup_insert_eq in Hn. injection Hn as <-.
    exists (length pre), v. split_and!; try done.
    + rewrite lookup_app_r by done. by rewrite Nat.sub_diag.
    + intros j u Hj Hu. apply lookup_lt_Some in Hu. rewrite length_app in Hu.
      simpl in Hu. lia.
  - rewrite lookup_insert_ne in Hn by done.
    destruct (Hinv n b' Hn) as (i & u & Hi & Hu & Hname & Hdecl & Hlast).
    pose proof (lookup_lt_Some _ _ _ Hi) as Hlt.
    exists i, u. split_and!; try done.
    + by apply lookup_app_l_Some.
    + by apply last_named_snoc.
Qed.

Lemma bounds_last_inv_snoc_interval pre bounds v :
  ¬ scalar v → bounds_last_inv pre bounds → bounds_last_inv (pre ++ [v]) bounds.
Proof.
  intros Hns Hinv n b Hn.
  destruct (Hinv n b Hn) as (i & u & Hi & Hu & Hname & Hdecl & Hlast).
  pose proof (lookup_lt_Some _ _ _ Hi) as Hlt.
  exists i, u. split_and!; try done; [by apply lookup_app_l_Some|].
  by apply last_named_snoc.
Qed.

Lemma collect_bounds_last vs bounds :
  _collect_bounds vs = Ok bounds → bounds_last_inv vs bounds.
Proof.
  unfold _collect_bounds. apply (for_in_invariant_prefix bounds_last_inv).
  - intros pre v b b' _ Hinv Hstep. destruct (var_type v) eqn:Htype.
    + injection Hstep as <-. apply bounds_last_inv_snoc_scalar; [| |done].
      * unfold scalar. by rewrite Htype.
      * unfold declared_bounds. by rewrite Htype.
    + destruct (var_min v) as [lo|] eqn:Hlo; [|done].
      destruct (var_max v) as [hi|] eqn:Hhi; [|done].
      injection Hstep as <-. apply bounds_last_inv_snoc_scalar; [| |done].
      * unfold scalar. by rewrite Htype.
      * unfold declared_bounds. by rewrite Htype, Hlo, Hhi.
    + injection Hstep as <-. apply bounds_last_inv_snoc_interval; [|done].
      unfold scalar. rewrite Htype. auto.
  - intros n b Hn. by rewrite lookup_empty in Hn.
Qed.

(** A loop that raises raised in its body, on an element of the list. *)
Lemma for_in_raises_inv {A S} (body : S → A → Res S) xs s e :
  for_in body s xs = Raise e → ∃ x s1, x ∈ xs ∧ body s1 x = Raise e.
Proof.
  revert s. induction xs as [|x xs IH]; intros s Hrun; [done|].
  simpl in Hrun. destruct (body s x) as [s1|e'] eqn:Hx; simpl in Hrun.
  - destruct (IH s1 Hrun) as (y & s2 & Hy & Hbody). exists y, s2.
    split; [by apply list_elem_of_further|done].
  - injection Hrun as ->. exists x, s. split; [apply list_elem_of_here|done].
Qed.

Lemma collect_bounds_raises vs :
  (∃ e, _collect_bounds vs = Raise e) ↔ ∃ v, v ∈ vs ∧ lacks_bound v.
Proof.
  split.
  - intros [e He]. unfold _collect_bounds in He.
    apply for_in_raises_inv in He as (v & b & Hv & Hbody). exists v. split; [done|].
    unfold lacks_bound. destruct (var_type v); [done| |done]. split; [done|].
    destruct (var_min v); [|by left]. destruct (var_max v); [done|by right].
  - intros (v & Hv & Htype & Hmissing). by eapply collect_bounds_missing.
Qed.

Lemma bounded_scalar_scalar v : bounded_scalar v → scalar v.
Proof. unfold scalar. by intros [->|[-> _]]. Qed.

Lemma variable_loop_bounded_scalars vs st :
  Forall bounded_scalar vs → ∃ st', for_in create_variable st vs = Ok st'.
Proof.
  intros Hall. revert st. induction Hall as [|v vs Hv _ IH]; intros st; simpl.
  - by eexists.
  - assert (∃ s1, create_variable st v = Ok s1) as [s1 ->].
    { destruct st as [[m vm] im]. unfold create_variable.
      destruct Hv as [->|(-> & [lo ->] & [hi ->])]; by eexists. }
    simpl. apply IH.
Qed.

Lemma scalars_only vs :
  Forall scalar vs → length (filter scalar vs) = length vs ∧ interval_constants vs = ∅.
Proof.
  induction 1 as [|v vs Hv _ [IHlen IHc]]; [done|]. split.
  - rewrite filter_cons_True by done. simpl. by rewrite IHlen.
  - change (v :: vs) with ([v] ++ vs).
    rewrite interval_constants_cons, endpoints_scalar, IHc by done.
    by rewrite list_to_set_nil, (left_id_L ∅ (∪)).
Qed.

Lemma declared_position_scalars vs i :
  Forall scalar vs → (i ≤ length vs)%nat → declared_position vs i = i.
Proof.
  intros Hall Hi. unfold declared_position.
  destruct (scalars_only (take i vs)) as [-> ->]; [by apply Forall_take|].
  rewrite size_empty, length_take. lia.
Qed.

Section claims_on_declared_bounds.
Context `{PyRuntime} `{cp_model.StatusCodes}.

(** C7, as amended. The bounds computed for the declared variables are the
    declared ones, and for a name declared more than once those of its last
    boolean or integer declaration: an integer variable that no later boolean
    or integer variable shadows has bounds (min, max), so that
    [lower <= upper] holds exactly when [min <= max] was declared. Computing
    the bounds fails exactly when some integer variable lacks its minimum or
    its maximum, and then the request is answered with an error response,
    whatever the oracle. No order between min and max is asked for: an
    integer variable with a minimum and a maximum is materialized with that
    domain, a request of boolean variables and such integer variables
    compiles, and the oracle is invoked; when the oracle then reports an
    invalid model, the response has status ERROR with the diagnostic of the
    oracle and no error message. *)
Theorem integer_bounds_are_the_declared_ones :
  (∀ vs bounds,
     _collect_bounds vs = Ok bounds →
     dom bounds = list_to_set (var_name <$> filter scalar vs) ∧
     (∀ n b, bounds !! n = Some b →
        ∃ i v, vs !! i = Some v ∧ var_name v = n ∧
          (∀ j u, (i < j)%nat → vs !! j = Some u → var_type u ≠ type_interval →
             var_name u ≠ n) ∧
          match var_type v with
          | type_bool => lower b = 0 ∧ upper b = 1
          | type_int => var_min v = Some (lower b) ∧ var_max v = Some (upper b)
          | type_interval => False
          end) ∧
     (∀ i v, vs !! i = Some v → var_type v = type_int →
        (∀ j u, (i < j)%nat → vs !! j = Some u → var_type u ≠ type_interval →
           var_name u ≠ var_name v) →
        ∃ lo hi, var_min v = Some lo ∧ var_max v = Some hi ∧
          bounds !! var_name v = Some {| lower := lo; upper := hi |}))
  ∧
  (∀ vs,
     (∃ e, _collect_bounds vs = Raise e) ↔
     ∃ v, v ∈ vs ∧ var_type v = type_int ∧ (var_min v = None ∨ var_max v = None))
  ∧
  (∀ request v,
     v ∈ variables request → var_type v = type_int →
     var_min v = None ∨ var_max v = None →
     ∃ e, compile request = Raise e ∧
       ∀ oracle, solve_request request oracle = error_response e)
  ∧
  (∀ m vars_map intervals_map v lo hi,
     var_type v = type_int → var_min v = Some lo → var_max v = Some hi →
     create_variable (m, vars_map, intervals_map) v =
       Ok ({| cp_model.variables :=
                cp_model.variables m ++
                  [ {| cp_model.domain_lb := lo; cp_model.domain_ub := hi;
                       cp_model.name := var_name v |} ];
              cp_model.intervals := cp_model.intervals m;
              cp_model.constraints := cp_model.constraints m;
              cp_model.objective := cp_model.objective m;
              cp_model.constant_map := cp_model.constant_map m |},
           <[var_name v := length (cp_model.variables m)]> vars_map, intervals_map))
  ∧
  (∀ request,
     Forall bounded_scalar (variables request) →
     constraints request = [] → objective request = None →
     ∃ c, compile request = Ok c ∧
       ∀ i v lo hi,
         variables request !! i = Some v → var_type v = type_int →
         var_min v = Some lo → var_max v = Some hi →
         cp_model.variables (model c) !! i =
           Some {| cp_model.domain_lb := lo; cp_model.domain_ub := hi;
                   cp_model.name := var_name v |})
  ∧
  (∀ request oracle c solver,
     compile request = Ok c →
     oracle (model c) (parameters request) = Ok solver →
     cp_model.status solver = cp_model.MODEL_INVALID →
     cp_model.MODEL_INVALID ≠ cp_model.OPTIMAL →
     cp_model.MODEL_INVALID ≠ cp_model.FEASIBLE →
     cp_model.MODEL_INVALID ≠ cp_model.UNKNOWN →
     solve_request request oracle =
       {| status := ERROR; values := None; statistics := None; error := None;
          solutionInfo :=
            (if bool_decide (cp_model.solution_info solver = "") then None
             else Some (cp_model.solution_info solver));
          softViolations := None |}).
Proof.
  split_and!.
  - intros vs bounds Hb.
    pose proof (collect_bounds_keeps vs bounds Hb) as [Hdom _].
    pose proof (collect_bounds_last vs bounds Hb) as Hlast.
    split; [done|]. split.
    + intros n b Hn. destruct (Hlast n b Hn) as (i & v & Hi & _ & Hname & Hdecl & Hl).
      by exists i, v.
    + intros i v Hi Htype Hl.
      assert (scalar v) as Hscalar by (unfold scalar; by rewrite Htype).
      assert (var_name v ∈ dom bounds) as Hin.
      { rewrite Hdom, elem_of_list_to_set, list_elem_of_fmap. exists v. split; [done|].
        apply list_elem_of_filter. split; [done|]. by eapply list_elem_of_lookup_2. }
      apply elem_of_dom in Hin as [b Hb'].
      destruct (Hlast _ b Hb') as (j & u & Hj & Hu & Hname & Hdecl & Hlj).
      assert (j = i) as -> by by eapply (last_named_unique vs j i u v).
      assert (u = v) as -> by congruence.
      unfold declared_bounds in Hdecl. rewrite Htype in Hdecl. destruct Hdecl as [Hlo Hhi].
      exists (lower b), (upper b). split_and!; try done. by destruct b.
  - intros vs. apply collect_bounds_raises.
  - intros request v Hv Htype Hmissing.
    destruct (collect_bounds_missing (variables request) v Hv Htype Hmissing) as [e He].
    exists e. pose proof (compile_raises_on_bounds request e He) as Hc.
    split; [done|]. intros oracle. apply solve_request_raised.
    unfold solve_request_try. by rewrite Hc.
  - intros m vars_map intervals_map v lo hi Htype Hlo Hhi.
    unfold create_variable. by rewrite Htype, Hlo, Hhi.
  - intros request Hall Hcs Hobj.
    destruct (_collect_bounds (variables request)) as [bounds|e] eqn:Hb.
    2: { assert (∃ v, v ∈ variables request ∧ lacks_bound v) as (v & Hv & Htype & Hmissing).
         { apply collect_bounds_raises. by exists e. }
         rewrite Forall_forall in Hall.
         destruct (Hall v Hv) as [Hbool|(_ & [lo Hlo] & [hi Hhi])]; [congruence|].
         destruct Hmissing; congruence. }
    destruct (variable_loop_bounded_scalars (variables request) (cp_model.new, ∅, ∅) Hall)
      as [[[m vm] im] Hloop].
    exists {| model := m; vars_map := vm; intervals_map := im; var_bounds := bounds;
              penalty_terms := []; tracked_constraints := []; has_objective := false |}.
    split.
    + unfold compile. rewrite Hb. simpl. rewrite Hloop. simpl. by rewrite Hcs, Hobj.
    + intros i v lo hi Hi Htype Hlo Hhi. simpl.
      assert (scalar v) as Hscalar by (unfold scalar; by rewrite Htype).
      apply variable_loop_positions in Hloop as (_ & Hpos & _).
      destruct (Hpos i v Hi Hscalar) as (d & Hd & Hname & Hdom).
      rewrite Htype in Hdom. destruct Hdom as [Hdlo Hdhi].
      rewrite declared_position_scalars in Hd.
      * rewrite Hd. f_equal. destruct d as [lb ub nm]. simpl in *. congruence.
      * eapply Forall_impl; [done|]. apply bounded_scalar_scalar.
      * apply lookup_lt_Some in Hi. lia.
  - intros request oracle c solver Hc Ho Hstatus Hopt Hfeas Hunknown.
    rewrite (solve_request_no_success request oracle c solver Hc Ho).
    + rewrite Hstatus. unfold status_map.
      rewrite lookup_insert_ne by done. by rewrite lookup_insert_eq.
    + rewrite <- Hstatus in Hopt, Hfeas. by intros [?|?].
Qed.

End claims_on_declared_bounds.

Lemma integer_bounds_are_the_declared_ones_witness :
  (∃ lo hi, var_min (Demo.int_var "x" 5 3) = Some lo ∧
     var_max (Demo.int_var "x" 5 3) = Some hi ∧
     ({[ "x" := {| lower := 5; upper := 3 |} ]} : gmap string _VariableBounds)
       !! var_name (Demo.int_var "x" 5 3) = Some {| lower := lo; upper := hi |})
  ∧
  (∃ e, _collect_bounds
          [ {| var_type := type_int; var_name := "n"; var_min := Some 0; var_max := None;
               var_start := None; var_end := None; var_size := None;
               var_presenceVar := None |} ] = Raise e)
  ∧
  (∃ e,
     compile (H := Demo.runtime)
       (Demo.request
          [ {| var_type := type_int; var_name := "n"; var_min := Some 0; var_max := None;
               var_start := None; var_end := None; var_size := None;
               var_presenceVar := None |} ] [] None) = Raise e ∧
     ∀ oracle,
       solve_request (H := Demo.runtime) (H0 := Demo.codes)
         (Demo.request
            [ {| var_type := type_int; var_name := "n"; var_min := Some 0; var_max := None;
                 var_start := None; var_end := None; var_size := None;
                 var_presenceVar := None |} ] [] None) oracle
       = error_response e)
  ∧
  (∃ c, compile (H := Demo.runtime) Demo.inverted_request = Ok c ∧
     ∀ i v lo hi,
       variables Demo.inverted_request !! i = Some v → var_type v = type_int →
       var_min v = Some lo → var_max v = Some hi →
       cp_model.variables (model c) !! i =
         Some {| cp_model.domain_lb := lo; cp_model.domain_ub := hi;
                 cp_model.name := var_name v |})
  ∧
  solve_request (H := Demo.runtime) (H0 := Demo.codes) Demo.inverted_request
    (Demo.answer 1 "var #0 has no domain" Demo.zero_then_one)
  = {| status := ERROR; values := None; statistics := None; error := None;
       solutionInfo := Some "var #0 has no domain"; softViolations := None |}.
Proof.
  destruct (integer_bounds_are_the_declared_ones (H := Demo.runtime) (H0 := Demo.codes))
    as (Hbounds & Hraises & Hmissing & _ & Hany & Hinvalid).
  split_and!.
  - destruct (Hbounds [Demo.bool_var "x"; Demo.int_var "x" 5 3]
      {[ "x" := {| lower := 5; upper := 3 |} ]}) as (_ & _ & Hlast).
    + vm_compute. reflexivity.
    + apply (Hlast 1%nat (Demo.int_var "x" 5 3)); [reflexivity|reflexivity|].
      intros j u Hj Hu. apply lookup_lt_Some in Hu. simpl in Hu. lia.
  - apply (proj2 (Hraises _)). eexists. split; [apply list_elem_of_here|].
    split; [reflexivity|]. right. reflexivity.
  - apply (Hmissing
      (Demo.request
         [ {| var_type := type_int; var_name := "n"; var_min := Some 0; var_max := None;
              var_start := None; var_end := None; var_size := None;
              var_presenceVar := None |} ] [] None)
      {| var_type := type_int; var_name := "n"; var_min := Some 0; var_max := None;
         var_start := None; var_end := None; var_size := None;
         var_presenceVar := None |}).
    + apply list_elem_of_here.
    + reflexivity.
    + right. reflexivity.
  - apply (Hany Demo.inverted_request); [|reflexivity|reflexivity].
    constructor; [|constructor]. right. split; [reflexivity|].
    split; eexists; reflexivity.
  - destruct (compile (H := Demo.runtime) Demo.inverted_request) as [c|e] eqn:Hc.
    + apply (Hinvalid Demo.inverted_request
        (Demo.answer 1 "var #0 has no domain" Demo.zero_then_one) c
        (Demo.solved 1 "var #0 has no domain" Demo.zero_then_one) Hc eq_refl eq_refl);
        vm_compute; discriminate.
    + vm_compute in Hc. discriminate Hc.
Defined.

(** C7 as stated fails for an integer variable declared with min 5 and
    max 3: its computed bounds are (5, 3), compilation goes through with a
    model variable of that domain, and the response is made from the answer
    of the oracle: here the diagnostic of an invalid model, with no error
    message, where a failed compilation always gives one. *)
Lemma inverted_bounds_counterexample :
  _collect_bounds (variables Demo.inverted_request)
    = Ok {[ "x" := {| lower := 5; upper := 3 |} ]} ∧
  ¬ (5 <= 3) ∧
  (∃ c, compile (H := Demo.runtime) Demo.inverted_request = Ok c ∧
     cp_model.variables (model c) =
       [ {| cp_model.domain_lb := 5; cp_model.domain_ub := 3; cp_model.name := "x" |} ]) ∧
  solve_request (H := Demo.runtime) (H0 := Demo.codes)
    Demo.inverted_request (Demo.answer 1 "var #0 has no domain" Demo.zero_then_one)
  = {| status := ERROR; values := None; statistics := None; error := None;
       solutionInfo := Some "var #0 has no domain"; softViolations := None |} ∧
  ∀ exc, error (error_response (H := Demo.runtime) exc) ≠ None.
Proof.
  split_and!.
  - vm_compute. reflexivity.
  - lia.
  - eexists. split; reflexivity.
  - vm_compute. reflexivity.
  - intros exc. discriminate.
Qed.

(** ** Interval variables and their presence literal *)

Lemma for_in_raises_after {A S} (body : S → A → Res S) s pre x post s1 e :
  for_in body s pre = Ok s1 → body s1 x = Raise e →
  for_in body s (pre ++ x :: post) = Raise e.
Proof. intros Hpre Hx. rewrite for_in_app, Hpre. simpl. by rewrite Hx. Qed.

Lemma created_for_boolean u d :
  created_for u d → (cp_model.is_boolean d ↔ usable_as_presence u).
Proof.
  unfold created_for, cp_model.is_boolean, usable_as_presence.
  intros [_ Hdom]. destruct (var_type u).
  - destruct Hdom as [-> ->]. split; [by left|]. intros _. lia.
  - destruct Hdom as [Hlo Hhi]. split.
    + intros Hd. right. split; [done|]. by eexists _, _.
    + intros [?|(_ & lo & hi & Hlo' & Hhi' & Hd)]; [done|].
      assert (lo = cp_model.domain_lb d) as -> by congruence.
      by assert (hi = cp_model.domain_ub d) as -> by congruence.
  - done.
Qed.

(** Materializing a consistent interval variable whose presence name has a
    handle: the library is asked for the two constants and then checks the
    variable behind the handle. *)
Lemma create_variable_optional m vars_map intervals_map v s e p h d (k : nat) :
  var_type v = type_interval →
  var_start v = Some s → var_end v = Some e → var_size v = Some (e - s) →
  var_presenceVar v = Some p → vars_map !! p = Some h →
  cp_model.variables m !! h = Some d →
  constants_ok m →
  length (cp_model.variables m) = (k + size (cp_model.constant_map m))%nat →
  (cp_model.is_boolean d →
   ∃ m' iv,
     create_variable (m, vars_map, intervals_map) v
       = Ok (m', vars_map, <[var_name v := iv]> intervals_map) ∧
     cp_model.interval_name iv = var_name v ∧
     cp_model.interval_size iv = e - s ∧
     cp_model.interval_presence iv = Some h ∧
     cp_model.variables m' !! cp_model.interval_start iv = Some (constant s) ∧
     cp_model.variables m' !! cp_model.interval_end iv = Some (constant e) ∧
     cp_model.variables m `prefix_of` cp_model.variables m' ∧
     cp_model.intervals m' = cp_model.intervals m ++ [iv] ∧
     cp_model.constraints m' = cp_model.constraints m)
  ∧
  (¬ cp_model.is_boolean d →
   create_variable (m, vars_map, intervals_map) v
     = Raise (InvalidLiteral (cp_model.name d))).
Proof.
  intros Htype Hs He Hsz Hp Hh Hd Hok Hlen.
  destruct (cp_model.NewConstant m s) as [m1 start] eqn:H1.
  destruct (cp_model.NewConstant m1 e) as [m2 end_] eqn:H2.
  destruct (NewConstant_constants m s m1 start _ H1 Hok Hlen) as (Hstart & Hok1 & Hlen1).
  destruct (NewConstant_constants m1 e m2 end_ _ H2 Hok1 Hlen1) as (Hend & Hok2 & Hlen2).
  pose proof (NewConstant_frame _ _ _ _ H1) as (Hp1 & Hi1 & Hc1 & _).
  pose proof (NewConstant_frame _ _ _ _ H2) as (Hp2 & Hi2 & Hc2 & _).
  assert (cp_model.variables m `prefix_of` cp_model.variables m2) as Hp02 by by etrans.
  assert (cp_model.variables m2 !! h = Some d) as Hd2.
  { destruct Hp02 as [more ->]. by apply lookup_app_l_Some. }
  assert (create_variable (m, vars_map, intervals_map) v =
            '(model, iv) ←
              cp_model.NewOptionalIntervalVar m2 start (e - s) end_ h (var_name v);
            Ok (model, vars_map, <[var_name v := iv]> intervals_map)) as ->.
  { unfold create_variable. rewrite Htype, Hs, He, Hsz, Hp.
    rewrite bool_decide_false by (intros Hne; by apply Hne).
    by rewrite H1, H2, Hh. }
  unfold cp_model.NewOptionalIntervalVar, cp_model.check_literal. rewrite Hd2. split.
  - intros Hbool. rewrite decide_True by done. simpl.
    eexists _, _. split; [reflexivity|]. simpl. split_and!; try done.
    + destruct Hp2 as [more ->]. by apply lookup_app_l_Some.
    + by rewrite Hi2, Hi1.
    + by rewrite Hc2, Hc1.
  - intros Hbad. by rewrite decide_False.
Qed.

Section claims_on_intervals.
Context `{PyRuntime} `{cp_model.StatusCodes}.

Lemma compile_raises_at request pre v post st exc :
  variables request = pre ++ v :: post →
  for_in create_variable (cp_model.new, ∅, ∅) pre = Ok st →
  create_variable st v = Raise exc →
  ∃ exc', compile request = Raise exc' ∧
    ∀ bounds, _collect_bounds (variables request) = Ok bounds → exc' = exc.
Proof.
  intros Hvs Hpre Hv. unfold compile.
  destruct (_collect_bounds (variables request)) as [bounds|e]; simpl.
  - rewrite Hvs, (for_in_raises_after _ _ pre v post st exc Hpre Hv). simpl.
    exists exc. by split.
  - exists e. split; [done|]. by intros bounds.
Qed.

(** C8, as amended. A request with an interval variable for which
    [end - start != size] gets an ERROR response, whatever the oracle. A
    consistent interval variable with a presence name, met after the
    variables [pre] were materialized: when no boolean or integer variable of
    [pre] has that name, materializing it fails with the unknown-variable
    error; otherwise the last boolean or integer variable of that name
    decides. When it is a boolean variable, or an integer variable with
    [0 <= min <= max <= 1], an optional interval is created on its model
    variable, with the declared size, between the constants of start and
    end. When it is any other integer variable, the library refuses its
    model variable as a literal and materializing fails with that refusal.
    A failed materialization gives an ERROR response whatever the oracle.
    The names with a handle are those of the boolean and integer variables
    declared. *)
Theorem interval_materialization :
  (∀ request v s e sz,
     v ∈ variables request → var_type v = type_interval →
     var_start v = Some s → var_end v = Some e → var_size v = Some sz →
     e - s ≠ sz →
     ∃ exc, compile request = Raise exc ∧
       ∀ oracle, solve_request request oracle = error_response exc ∧
                 status (solve_request request oracle) = ERROR)
  ∧
  (∀ pre m vars_map intervals_map v s e p,
     for_in create_variable (cp_model.new, ∅, ∅) pre = Ok (m, vars_map, intervals_map) →
     var_type v = type_interval →
     var_start v = Some s → var_end v = Some e → var_size v = Some (e - s) →
     var_presenceVar v = Some p →
     ((∀ u, u ∈ pre → var_type u ≠ type_interval → var_name u ≠ p) →
      create_variable (m, vars_map, intervals_map) v =
        Raise (ValueError
          ("Interval variable " +:+ var_name v
           +:+ " references unknown presenceVar " +:+ p)))
     ∧
     (∀ i u,
        pre !! i = Some u → var_type u ≠ type_interval → var_name u = p →
        (∀ j w, (i < j)%nat → pre !! j = Some w → var_type w ≠ type_interval →
           var_name w ≠ p) →
        (usable_as_presence u →
         ∃ m' iv d,
           create_variable (m, vars_map, intervals_map) v
             = Ok (m', vars_map, <[var_name v := iv]> intervals_map) ∧
           cp_model.interval_name iv = var_name v ∧
           cp_model.interval_size iv = e - s ∧
           cp_model.interval_presence iv = Some (declared_position pre i) ∧
           cp_model.variables m' !! declared_position pre i = Some d ∧
           created_for u d ∧
           cp_model.variables m' !! cp_model.interval_start iv = Some (constant s) ∧
           cp_model.variables m' !! cp_model.interval_end iv = Some (constant e) ∧
           cp_model.variables m `prefix_of` cp_model.variables m' ∧
           cp_model.intervals m' = cp_model.intervals m ++ [iv] ∧
           cp_model.constraints m' = cp_model.constraints m)
        ∧
        (¬ usable_as_presence u →
         create_variable (m, vars_map, intervals_map) v = Raise (InvalidLiteral p))))
  ∧
  (∀ request pre v post st exc,
     variables request = pre ++ v :: post →
     for_in create_variable (cp_model.new, ∅, ∅) pre = Ok st →
     create_variable st v = Raise exc →
     ∃ exc', compile request = Raise exc' ∧
       (∀ bounds, _collect_bounds (variables request) = Ok bounds → exc' = exc) ∧
       ∀ oracle, solve_request request oracle = error_response exc' ∧
                 status (solve_request request oracle) = ERROR)
  ∧
  (∀ vs m vars_map intervals_map p,
     for_in create_variable (cp_model.new, ∅, ∅) vs = Ok (m, vars_map, intervals_map) →
     is_Some (vars_map !! p) ↔
     ∃ u, u ∈ vs ∧ var_type u ≠ type_interval ∧ var_name u = p).
Proof.
  split_and!.
  - intros request v s e sz Hv Htype Hs He Hsz Hne.
    destruct (compile_raises_on_variable request v Hv) as [exc Hc].
    { intros st. eexists. by apply (create_variable_inconsistent_interval st v s e sz). }
    exists exc. split; [done|]. intros oracle.
    assert (solve_request request oracle = error_response exc) as ->; [|done].
    apply solve_request_raised. unfold solve_request_try. by rewrite Hc.
  - intros pre m vars_map intervals_map v s e p Hloop Htype Hs He Hsz Hp. split.
    + intros Hnone.
      assert (vars_map !! p = None) as Hvm.
      { destruct (vars_map !! p) as [h|] eqn:Hh; [|done].
        assert (is_Some (vars_map !! p)) as Hsome by by eexists.
        apply (variable_loop_names _ _ _ _ p Hloop) in Hsome as (u & Hu & Hscalar & Hname).
        by destruct (Hnone u Hu Hscalar). }
      unfold create_variable. rewrite Htype, Hs, He, Hsz, Hp.
      rewrite bool_decide_false by (intros Hne; by apply Hne).
      destruct (cp_model.NewConstant m s) as [m1 start].
      destruct (cp_model.NewConstant m1 e) as [m2 end_]. by rewrite Hvm.
    + intros i u Hi Hu Hname Hlast.
      pose proof (interval_loop_keeps _ _ Hloop) as (_ & _ & _ & Hnv & _ & Hok & _).
      pose proof (variable_loop_positions _ _ Hloop) as (_ & Hpos & Hmap).
      assert (vars_map !! p = Some (declared_position pre i)) as Hvm.
      { assert (is_Some (vars_map !! p)) as [h Hh].
        { apply (variable_loop_names _ _ _ _ p Hloop). exists u. split; [|done].
          by eapply list_elem_of_lookup_2. }
        destruct (Hmap p h Hh) as (j & w & Hj & Hw & Hwn & -> & Hlj).
        by assert (j = i) as -> by by eapply (last_named_unique pre j i w u p). }
      destruct (Hpos i u Hi Hu) as (d & Hd & Hcreated).
      pose proof (created_for_boolean u d Hcreated) as Hbool.
      destruct (create_variable_optional m vars_map intervals_map v s e p
        (declared_position pre i) d _ Htype Hs He Hsz Hp Hvm Hd Hok Hnv) as [Hgood Hbad].
      split.
      * intros Husable. apply Hbool in Husable.
        destruct (Hgood Husable) as (m' & iv & Hrun & Hn & Hsize & Hpres & Hstart & Hend
          & Hprefix & Hivs & Hcs).
        exists m', iv, d. split_and!; try done.
        destruct Hprefix as [more ->]. by apply lookup_app_l_Some.
      * intros Hnot. destruct Hcreated as [Hdn _]. rewrite <- Hname, <- Hdn.
        apply Hbad. by rewrite Hbool.
  - intros request pre v post st exc Hvs Hpre Hv.
    destruct (compile_raises_at request pre v post st exc Hvs Hpre Hv) as (exc' & Hc & Hexc).
    exists exc'. split; [done|]. split; [done|]. intros oracle.
    assert (solve_request request oracle = error_response exc') as ->; [|done].
    apply solve_request_raised. unfold solve_request_try. by rewrite Hc.
  - intros vs m vars_map intervals_map p. apply variable_loop_names.
Qed.

End claims_on_intervals.

Lemma interval_materialization_witness :
  (∃ exc,
     compile (H := Demo.runtime) (Demo.request [Demo.interval_var "i" 0 5 4 None] [] None)
       = Raise exc ∧
     ∀ oracle,
       solve_request (H := Demo.runtime) (H0 := Demo.codes)
         (Demo.request [Demo.interval_var "i" 0 5 4 None] [] None) oracle
         = error_response exc ∧
       status (solve_request (H := Demo.runtime) (H0 := Demo.codes)
                 (Demo.request [Demo.interval_var "i" 0 5 4 None] [] None) oracle) = ERROR)
  ∧
  create_variable (cp_model.new, ∅, ∅) (Demo.interval_var "i" 0 5 5 (Some "p")) =
    Raise (ValueError "Interval variable i references unknown presenceVar p")
  ∧
  create_variable
    ((cp_model.NewIntVar cp_model.new 0 5 "p").1, {[ "p" := 0%nat ]}, ∅)
    (Demo.interval_var "i" 0 5 5 (Some "p"))
  = Raise (InvalidLiteral "p")
  ∧
  (∃ m' iv d,
     create_variable
       ((cp_model.NewIntVar cp_model.new 0 1 "p").1, {[ "p" := 0%nat ]}, ∅)
       (Demo.interval_var "i" 0 5 5 (Some "p"))
     = Ok (m', {[ "p" := 0%nat ]}, <["i" := iv]> ∅) ∧
     cp_model.interval_name iv = "i" ∧
     cp_model.interval_size iv = 5 - 0 ∧
     cp_model.interval_presence iv = Some (declared_position [Demo.int_var "p" 0 1] 0) ∧
     cp_model.variables m' !! declared_position [Demo.int_var "p" 0 1] 0 = Some d ∧
     created_for (Demo.int_var "p" 0 1) d ∧
     cp_model.variables m' !! cp_model.interval_start iv = Some (constant 0) ∧
     cp_model.variables m' !! cp_model.interval_end iv = Some (constant 5) ∧
     cp_model.variables (cp_model.NewIntVar cp_model.new 0 1 "p").1
       `prefix_of` cp_model.variables m' ∧
     cp_model.intervals m'
       = cp_model.intervals (cp_model.NewIntVar cp_model.new 0 1 "p").1 ++ [iv] ∧
     cp_model.constraints m'
       = cp_model.constraints (cp_model.NewIntVar cp_model.new 0 1 "p").1)
  ∧
  (∃ exc',
     compile (H := Demo.runtime) Demo.wide_presence_request = Raise exc' ∧
     (∀ bounds, _collect_bounds (variables Demo.wide_presence_request) = Ok bounds →
        exc' = InvalidLiteral "p") ∧
     ∀ oracle,
       solve_request (H := Demo.runtime) (H0 := Demo.codes)
         Demo.wide_presence_request oracle = error_response exc' ∧
       status (solve_request (H := Demo.runtime) (H0 := Demo.codes)
                 Demo.wide_presence_request oracle) = ERROR)
  ∧
  (is_Some (({[ "x" := 0%nat ]} : gmap string cp_model.IntVar) !! "x") ↔
   ∃ u, u ∈ [Demo.bool_var "x"] ∧ var_type u ≠ type_interval ∧ var_name u = "x").
Proof.
  destruct (interval_materialization (H := Demo.runtime) (H0 := Demo.codes))
    as (Hbad & Hpresence & Hfails & Hnames).
  split_and!.
  - apply (Hbad (Demo.request [Demo.interval_var "i" 0 5 4 None] [] None)
      (Demo.interval_var "i" 0 5 4 None) 0 5 4); try reflexivity.
    + apply list_elem_of_here.
    + discriminate.
  - apply (proj1 (Hpresence [] cp_model.new ∅ ∅ (Demo.interval_var "i" 0 5 5 (Some "p"))
      0 5 "p" eq_refl eq_refl eq_refl eq_refl eq_refl eq_refl)).
    intros u Hu. by apply elem_of_nil in Hu.
  - assert (for_in create_variable (cp_model.new, ∅, ∅) [Demo.int_var "p" 0 5]
            = Ok ((cp_model.NewIntVar cp_model.new 0 5 "p").1, {[ "p" := 0%nat ]}, ∅))
      as Hloop by (vm_compute; reflexivity).
    destruct (Hpresence [Demo.int_var "p" 0 5]
      (cp_model.NewIntVar cp_model.new 0 5 "p").1 {[ "p" := 0%nat ]} ∅
      (Demo.interval_var "i" 0 5 5 (Some "p")) 0 5 "p"
      Hloop eq_refl eq_refl eq_refl eq_refl eq_refl) as [_ Hknown].
    assert (∀ j w, (0 < j)%nat → [Demo.int_var "p" 0 5] !! j = Some w →
              var_type w ≠ type_interval → var_name w ≠ "p") as Hlast.
    { intros j w Hj Hw. apply lookup_lt_Some in Hw. simpl in Hw. lia. }
    assert (var_type (Demo.int_var "p" 0 5) ≠ type_interval) as Hscalar by discriminate.
    destruct (Hknown 0%nat (Demo.int_var "p" 0 5) eq_refl Hscalar eq_refl Hlast)
      as [_ Hrefused].
    apply Hrefused.
    intros [Hb|(_ & lo & hi & Hlo & Hhi & Hd)]; [discriminate Hb|].
    injection Hhi as <-. lia.
  - assert (for_in create_variable (cp_model.new, ∅, ∅) [Demo.int_var "p" 0 1]
            = Ok ((cp_model.NewIntVar cp_model.new 0 1 "p").1, {[ "p" := 0%nat ]}, ∅))
      as Hloop by (vm_compute; reflexivity).
    destruct (Hpresence [Demo.int_var "p" 0 1]
      (cp_model.NewIntVar cp_model.new 0 1 "p").1 {[ "p" := 0%nat ]} ∅
      (Demo.interval_var "i" 0 5 5 (Some "p")) 0 5 "p"
      Hloop eq_refl eq_refl eq_refl eq_refl eq_refl) as [_ Hknown].
    assert (∀ j w, (0 < j)%nat → [Demo.int_var "p" 0 1] !! j = Some w →
              var_type w ≠ type_interval → var_name w ≠ "p") as Hlast.
    { intros j w Hj Hw. apply lookup_lt_Some in Hw. simpl in Hw. lia. }
    assert (var_type (Demo.int_var "p" 0 1) ≠ type_interval) as Hscalar by discriminate.
    destruct (Hknown 0%nat (Demo.int_var "p" 0 1) eq_refl Hscalar eq_refl Hlast)
      as [Haccepted _].
    apply Haccepted. right. split; [reflexivity|]. exists 0, 1.
    split_and!; [reflexivity|reflexivity|lia..].
  - apply (Hfails Demo.wide_presence_request [Demo.int_var "p" 0 5]
      (Demo.interval_var "i" 0 5 5 (Some "p")) []
      ((cp_model.NewIntVar cp_model.new 0 5 "p").1, {[ "p" := 0%nat ]}, ∅)
      (InvalidLiteral "p")); vm_compute; reflexivity.
  - apply (Hnames [Demo.bool_var "x"] (cp_model.NewBoolVar cp_model.new "x").1
      {[ "x" := 0%nat ]} ∅ "x"). vm_compute. reflexivity.
Defined.

(** C8 as stated fails in two ways for a presence name that is a
    materialized integer variable. Declared with min 0 and max 1, no error
    is raised and the optional interval is created on the model variable of
    the integer variable. Declared with min 0 and max 5, materializing fails,
    but with the refusal of the library, not with the unknown-variable
    error. *)
Lemma integer_presence_counterexample :
  (var_type <$> variables Demo.int_presence_request = [type_int; type_interval] ∧
   ∃ c, compile (H := Demo.runtime) Demo.int_presence_request = Ok c ∧
     vars_map c = {[ "p" := 0%nat ]} ∧
     intervals_map c !! "i" =
       Some {| cp_model.interval_start := 1%nat;
               cp_model.interval_size := 5;
               cp_model.interval_end := 2%nat;
               cp_model.interval_presence := Some 0%nat;
               cp_model.interval_name := "i" |})
  ∧
  (var_type <$> variables Demo.wide_presence_request = [type_int; type_interval] ∧
   compile (H := Demo.runtime) Demo.wide_presence_request = Raise (InvalidLiteral "p") ∧
   ∀ oracle,
     solve_request (H := Demo.runtime) (H0 := Demo.codes) Demo.wide_presence_request oracle
     = {| status := ERROR; values := None; statistics := None;
          error := Some "Invalid boolean literal: p";
          solutionInfo := None; softViolations := None |}).
Proof.
  split.
  - split; [reflexivity|]. eexists. split; [reflexivity|].
    split; vm_compute; reflexivity.
  - split; [reflexivity|]. split; [vm_compute; reflexivity|]. intros oracle.
    vm_compute. reflexivity.
Qed.
